(** * XSRN settlement core: epoch settlement and bonded attestations

    A shallow embedding of the contracts [EpochManager], [MerkleDistributor],
    [XsrnTreasury] and [AttestationRegistry] and of the off-chain
    [MerkleGenerator] service, with the properties of the settlement core
    stated and proved over it; then of the contracts around them
    ([XsrnFeeSplitter], [ReceiptRegistry], [XsrnSessionManager]) and of the
    aggregation done by the off-chain [EventIndexer].

    Conventions.
    - [uint256], [bytes32] and [address] values are numbers in [N]; every
      checked arithmetic operation of Solidity 0.8 is written out and
      reverts with [Panic] when its result leaves the 256-bit range.
    - A Solidity [mapping] is a finite map read with the zero default.
    - A transaction is a function from the state to [Ok] (new state and the
      outward token calls it issued, in order) or [Err] (a revert: the old
      state stays). The token contracts are external: a transaction commits
      when the token accepts the calls listed in its trace.
    - [block.timestamp] and [msg.sender] are explicit arguments. *)

From Stdlib Require Import NArith ZArith List Lia.
From stdpp Require Import base option list gmap strings.

Local Open Scope N_scope.

(** ** Bytes and machine words *)

Definition MAX_UINT256 : N := 2 ^ 256 - 1.

Definition ZERO_HASH : N := 0.

(** Big-endian bytes of [v], exactly [n] of them (high bytes dropped). *)
Fixpoint be_bytes (n : nat) (v : N) : list N :=
  match n with
  | O => []
  | S k => be_bytes k (v / 256) ++ [v mod 256]
  end.

(** The number a big-endian byte string denotes. *)
Definition be_value (bs : list N) : N :=
  fold_left (fun acc b => acc * 256 + b) bs 0.

(** The number a little-endian byte string denotes. *)
Definition le_value (bs : list N) : N :=
  fold_right (fun b acc => b + 256 * acc) 0 bs.

Fixpoint le_bytes (n : nat) (v : N) : list N :=
  match n with
  | O => []
  | S k => (v mod 256) :: le_bytes k (v / 256)
  end.

(** ** Keccak-256, the hash of the EVM and of [ethers.keccak256] *)

Module Keccak.

Definition lane_mask : N := 2 ^ 64 - 1.

Definition rotl64 (x : N) (r : N) : N :=
  N.lor (N.land (N.shiftl x r) lane_mask) (N.shiftr x (64 - r)).

Definition lane (st : list N) (i : nat) : N := nth i st 0.

Definition rotation_offsets : list N :=
  [ 0;  1; 62; 28; 27;
   36; 44;  6; 55; 20;
    3; 10; 43; 25; 39;
   41; 45; 15; 21;  8;
   18;  2; 61; 56; 14].

Definition round_constants : list N :=
  [0x0000000000000001; 0x0000000000008082; 0x800000000000808A;
   0x8000000080008000; 0x000000000000808B; 0x0000000080000001;
   0x8000000080008081; 0x8000000000008009; 0x000000000000008A;
   0x0000000000000088; 0x0000000080008009; 0x000000008000000A;
   0x000000008000808B; 0x800000000000008B; 0x8000000000008089;
   0x8000000000008003; 0x8000000000008002; 0x8000000000000080;
   0x000000000000800A; 0x800000008000000A; 0x8000000080008081;
   0x8000000000008080; 0x0000000080000001; 0x8000000080008008].

Definition theta (st : list N) : list N :=
  let c x := N.lxor (lane st x) (N.lxor (lane st (x + 5))
               (N.lxor (lane st (x + 10)) (N.lxor (lane st (x + 15)) (lane st (x + 20))))) in
  let cs := map c (seq 0 5) in
  let d x := N.lxor (lane cs ((x + 4) mod 5)%nat) (rotl64 (lane cs ((x + 1) mod 5)%nat) 1) in
  let ds := map d (seq 0 5) in
  map (fun i => N.lxor (lane st i) (lane ds (i mod 5)%nat)) (seq 0 25).

Definition rho_pi (st : list N) : list N :=
  map (fun j =>
         let X := (j mod 5)%nat in
         let Y := (j / 5)%nat in
         let x := ((X + 3 * Y) mod 5)%nat in
         let src := (x + 5 * X)%nat in
         rotl64 (lane st src) (lane rotation_offsets src))
      (seq 0 25).

Definition chi (st : list N) : list N :=
  map (fun i =>
         let x := (i mod 5)%nat in
         let row := (5 * (i / 5))%nat in
         N.lxor (lane st i)
                (N.ldiff (lane st (row + (x + 2) mod 5)%nat)
                         (lane st (row + (x + 1) mod 5)%nat)))
      (seq 0 25).

Definition iota (rc : N) (st : list N) : list N :=
  match st with
  | [] => []
  | a :: rest => N.lxor a rc :: rest
  end.

Definition round (st : list N) (rc : N) : list N :=
  iota rc (chi (rho_pi (theta st))).

Definition keccak_f (st : list N) : list N :=
  fold_left round round_constants st.

Definition rate_bytes : nat := 136.

(** Keccak padding (domain byte 0x01, final bit 0x80), to a multiple of
    the rate. *)
Definition pad (msg : list N) : list N :=
  let r := (rate_bytes - (length msg mod rate_bytes))%nat in
  match r with
  | 1%nat => msg ++ [0x81]
  | _ => msg ++ [0x01] ++ repeat 0 (r - 2) ++ [0x80]
  end.

Fixpoint lanes_of (n : nat) (bs : list N) : list N :=
  match n with
  | O => []
  | S k => le_value (firstn 8 bs) :: lanes_of k (skipn 8 bs)
  end.

Definition absorb_block (st : list N) (block : list N) : list N :=
  let ls := lanes_of 17 block in
  keccak_f (map (fun i => N.lxor (lane st i) (lane ls i)) (seq 0 25)).

Fixpoint absorb (fuel : nat) (st : list N) (bs : list N) : list N :=
  match fuel with
  | O => st
  | S k =>
      match bs with
      | [] => st
      | _ => absorb k (absorb_block st (firstn rate_bytes bs)) (skipn rate_bytes bs)
      end
  end.

Definition squeeze32 (st : list N) : list N :=
  flat_map (le_bytes 8) (firstn 4 st).

Definition keccak256_bytes (msg : list N) : list N :=
  let padded := pad msg in
  squeeze32 (absorb (length padded) (repeat 0 25) padded).

End Keccak.

(** [keccak256] as the contracts use it: bytes in, a [bytes32] out, read as
    the 256-bit number Solidity compares with [<] and [==]. *)
Definition keccak256 (msg : list N) : N :=
  be_value (Keccak.keccak256_bytes msg).

Definition ascii_bytes (s : string) : list N :=
  map (fun c => N.of_nat (Ascii.nat_of_ascii c)) (String.list_ascii_of_string s).

(** ** Transactions: results, reverts and outward calls *)

Inductive error : Type :=
| Revert (reason : string)                (* a failed [require] *)
| Panic                                   (* checked arithmetic left uint256 *)
| Unauthorized (role account : N)         (* a failed [onlyRole] *)
| BadConfirmation.                        (* [renounceRole] for somebody else *)

Inductive result (A : Type) : Type :=
| Ok (a : A)
| Err (e : error).

Arguments Ok {A} a.
Arguments Err {A} e.

#[global] Instance result_ret : MRet result := fun A a => Ok a.

#[global] Instance result_bind : MBind result :=
  fun A B f m => match m with Ok a => f a | Err e => Err e end.

#[global] Instance result_fmap : FMap result :=
  fun A B f m => match m with Ok a => Ok (f a) | Err e => Err e end.

Definition is_ok {A} (r : result A) : bool :=
  match r with Ok _ => true | Err _ => false end.

Definition require (cond : bool) (reason : string) : result unit :=
  if cond then Ok tt else Err (Revert reason).

Definition checked_add (a b : N) : result N :=
  if a + b <=? MAX_UINT256 then Ok (a + b) else Err Panic.

Definition checked_sub (a b : N) : result N :=
  if b <=? a then Ok (a - b) else Err Panic.

Definition checked_mul (a b : N) : result N :=
  if a * b <=? MAX_UINT256 then Ok (a * b) else Err Panic.

(** The calls a contract makes to the outside, in the order it makes them. *)
Inductive call : Type :=
| TransferFrom (token from to amount : N)   (* IERC20(token).safeTransferFrom *)
| Transfer (token to amount : N)            (* IERC20(token).safeTransfer *)
| SendValue (to amount : N).                (* to.call{value: amount}("") *)

Definition call_amount (c : call) : N :=
  match c with
  | TransferFrom _ _ _ a => a
  | Transfer _ _ a => a
  | SendValue _ a => a
  end.

Definition sum_list (l : list N) : N := fold_right N.add 0 l.

(** ** OpenZeppelin [AccessControl] (imported by every contract below) *)

Module AccessControl.

Definition DEFAULT_ADMIN_ROLE : N := 0.

Definition hasRole (rs : gset (N * N)) (role account : N) : bool :=
  bool_decide ((role, account) ∈ rs).

Definition onlyRole (rs : gset (N * N)) (role sender : N) : result unit :=
  if hasRole rs role sender then Ok tt else Err (Unauthorized role sender).

Definition _grantRole (rs : gset (N * N)) (role account : N) : gset (N * N) :=
  {[ (role, account) ]} ∪ rs.

Definition _revokeRole (rs : gset (N * N)) (role account : N) : gset (N * N) :=
  rs ∖ {[ (role, account) ]}.

(** No contract here calls [_setRoleAdmin]: the admin of every role is
    [DEFAULT_ADMIN_ROLE]. *)
Definition grantRole (sender role account : N) (rs : gset (N * N)) : result (gset (N * N)) :=
  onlyRole rs DEFAULT_ADMIN_ROLE sender ;; mret (_grantRole rs role account).

Definition revokeRole (sender role account : N) (rs : gset (N * N)) : result (gset (N * N)) :=
  onlyRole rs DEFAULT_ADMIN_ROLE sender ;; mret (_revokeRole rs role account).

Definition renounceRole (sender role callerConfirmation : N) (rs : gset (N * N)) : result (gset (N * N)) :=
  if callerConfirmation =? sender then Ok (_revokeRole rs role sender) else Err BadConfirmation.

End AccessControl.

(** ** OpenZeppelin [MerkleProof] (imported by [MerkleDistributor]) *)

Module MerkleProof.

(** [_hashPair]: the smaller of the two words goes first. *)
Definition hashPair (a b : N) : N :=
  if a <? b then keccak256 (be_bytes 32 a ++ be_bytes 32 b)
  else keccak256 (be_bytes 32 b ++ be_bytes 32 a).

Definition processProof (proof : list N) (leaf : N) : N :=
  fold_left hashPair proof leaf.

Definition verify (proof : list N) (root leaf : N) : bool :=
  processProof proof leaf =? root.

End MerkleProof.

(** ** [EpochManager] (contracts/ReceiptRegistry.sol, second contract) *)

Module EpochManager.
Import AccessControl.

Definition OPERATOR_ROLE : N := keccak256 (ascii_bytes "OPERATOR_ROLE").

Record Epoch : Type := mkEpoch {
  id : N;
  startTime : N;
  endTime : N;
  merkleRoot : N;
  finalized : bool;
  totalRewards : N
}.

Record state : Type := mkState {
  epochDuration : N;
  currentEpochId : N;
  epochs : gmap N Epoch;
  roles : gset (N * N)
}.

Definition days (n : N) : N := n * 86400.
Definition MIN_EPOCH_DURATION : N := days 1.
Definition MAX_EPOCH_DURATION : N := days 30.

(** A storage slot never written reads as the all-zero struct. *)
Definition zero_epoch : Epoch := mkEpoch 0 0 0 0 false 0.

Definition epoch_at (s : state) (i : N) : Epoch :=
  default zero_epoch (epochs s !! i).

Definition set_epoch (s : state) (i : N) (e : Epoch) : state :=
  mkState (epochDuration s) (currentEpochId s) (<[i := e]> (epochs s)) (roles s).

Definition set_roles (s : state) (rs : gset (N * N)) : state :=
  mkState (epochDuration s) (currentEpochId s) (epochs s) rs.

(** [epochDuration = 7 days] is the initialiser of the state variable. *)
Definition constructor (now _admin : N) : result state :=
  let rs := _grantRole (_grantRole ∅ DEFAULT_ADMIN_ROLE _admin) OPERATOR_ROLE _admin in
  let duration := days 7 in
  end_ ← checked_add now duration ;
  mret (mkState duration 1 {[ 1 := mkEpoch 1 now end_ 0 false 0 ]} rs).

Definition getCurrentEpochId (s : state) : N := currentEpochId s.

Definition getCurrentEpoch (s : state) : Epoch := epoch_at s (currentEpochId s).

Definition canAdvanceEpoch (now : N) (s : state) : bool :=
  endTime (epoch_at s (currentEpochId s)) <=? now.

Definition advanceEpoch (now : N) (s : state) : result state :=
  require (canAdvanceEpoch now s) "Current epoch not ended" ;;
  require (finalized (epoch_at s (currentEpochId s))) "Current epoch not finalized yet" ;;
  newId ← checked_add (currentEpochId s) 1 ;
  end_ ← checked_add now (epochDuration s) ;
  mret (mkState (epochDuration s) newId
          (<[newId := mkEpoch newId now end_ 0 false 0]> (epochs s)) (roles s)).

Definition finalizeEpoch (sender epochId root rewards : N) (s : state) : result state :=
  onlyRole (roles s) OPERATOR_ROLE sender ;;
  require (epochId <=? currentEpochId s) "Invalid epoch" ;;
  require (negb (finalized (epoch_at s epochId))) "Already finalized" ;;
  require (negb (root =? ZERO_HASH)) "Invalid merkle root" ;;
  let e := epoch_at s epochId in
  mret (set_epoch s epochId (mkEpoch (id e) (startTime e) (endTime e) root true rewards)).

Definition setEpochDuration (sender _duration : N) (s : state) : result state :=
  onlyRole (roles s) DEFAULT_ADMIN_ROLE sender ;;
  require (MIN_EPOCH_DURATION <=? _duration) "Duration too short" ;;
  require (_duration <=? MAX_EPOCH_DURATION) "Duration too long" ;;
  mret (mkState _duration (currentEpochId s) (epochs s) (roles s)).

Definition getMerkleRoot (s : state) (epochId : N) : N := merkleRoot (epoch_at s epochId).

Definition isEpochFinalized (s : state) (epochId : N) : bool := finalized (epoch_at s epochId).

(** The external functions, as one transaction type. *)
Inductive tx : Type :=
| AdvanceEpoch
| FinalizeEpoch (epochId root rewards : N)
| SetEpochDuration (_duration : N)
| GrantRole (role account : N)
| RevokeRole (role account : N)
| RenounceRole (role callerConfirmation : N).

Definition step (now sender : N) (t : tx) (s : state) : result state :=
  match t with
  | AdvanceEpoch => advanceEpoch now s
  | FinalizeEpoch epochId root rewards => finalizeEpoch sender epochId root rewards s
  | SetEpochDuration d => setEpochDuration sender d s
  | GrantRole role account => set_roles s <$> grantRole sender role account (roles s)
  | RevokeRole role account => set_roles s <$> revokeRole sender role account (roles s)
  | RenounceRole role c => set_roles s <$> renounceRole sender role c (roles s)
  end.

(** States the deployed contract can be in. *)
Inductive reachable : state → Prop :=
| reachable_deploy now admin s :
    constructor now admin = Ok s → reachable s
| reachable_step now sender t s s' :
    reachable s → step now sender t s = Ok s' → reachable s'.

(** A block of transactions, each at its own time and from its own
    sender; a reverted transaction leaves the state as it was. *)
Fixpoint run (txs : list (N * N * tx)) (s : state) : state :=
  match txs with
  | [] => s
  | (now, sender, t) :: rest =>
      match step now sender t s with
      | Ok s' => run rest s'
      | Err _ => run rest s
      end
  end.

(** What every reachable state satisfies: ids start at 1, nothing is
    stored above the current id, a finalized epoch has a root, and every
    epoch before the current one is finalized. *)
Definition inv (s : state) : Prop :=
  1 <= currentEpochId s
  ∧ (∀ i, currentEpochId s < i → epochs s !! i = None)
  ∧ (∀ i, finalized (epoch_at s i) = true → merkleRoot (epoch_at s i) ≠ ZERO_HASH)
  ∧ (∀ i, 1 <= i < currentEpochId s → finalized (epoch_at s i) = true).

(** Two states for examples: right after deployment at time 1000 by
    account 7, and after that account finalized epoch 1 and the epoch
    was advanced once its seven days were over. *)
Definition genesis : state :=
  mkState (days 7) 1 {[ 1 := mkEpoch 1 1000 (1000 + days 7) 0 false 0 ]}
          (_grantRole (_grantRole ∅ DEFAULT_ADMIN_ROLE 7) OPERATOR_ROLE 7).

Definition second_epoch : state :=
  run [ (2000, 7, FinalizeEpoch 1 0xabc 500); (1000 + days 7, 9, AdvanceEpoch) ] genesis.

End EpochManager.

(** ** [MerkleDistributor] (contracts/XsrnSessionManager.sol, second contract) *)

Module MerkleDistributor.
Import AccessControl.

Definition OPERATOR_ROLE : N := keccak256 (ascii_bytes "OPERATOR_ROLE").

Record state : Type := mkState {
  treasury : N;
  epochMerkleRoots : gmap (N * N) N;        (* epochId => token => root *)
  claimed : gmap (N * N * N) bool;          (* epochId => token => account *)
  totalClaimed : gmap (N * N) N;            (* account => token => total *)
  roles : gset (N * N)
}.

Definition root_at (s : state) (epochId token : N) : N :=
  default 0 (epochMerkleRoots s !! (epochId, token)).

Definition claimed_at (s : state) (epochId token account : N) : bool :=
  default false (claimed s !! (epochId, token, account)).

Definition total_at (s : state) (account token : N) : N :=
  default 0 (totalClaimed s !! (account, token)).

Definition set_root (s : state) (epochId token root : N) : state :=
  mkState (treasury s) (<[(epochId, token) := root]> (epochMerkleRoots s))
          (claimed s) (totalClaimed s) (roles s).

Definition mark_claimed (s : state) (epochId token account : N) : state :=
  mkState (treasury s) (epochMerkleRoots s)
          (<[(epochId, token, account) := true]> (claimed s)) (totalClaimed s) (roles s).

Definition set_total (s : state) (account token total : N) : state :=
  mkState (treasury s) (epochMerkleRoots s) (claimed s)
          (<[(account, token) := total]> (totalClaimed s)) (roles s).

Definition constructor (_admin _treasury : N) : result state :=
  require (negb (_treasury =? 0)) "Invalid treasury" ;;
  mret (mkState _treasury ∅ ∅ ∅
          (_grantRole (_grantRole ∅ DEFAULT_ADMIN_ROLE _admin) OPERATOR_ROLE _admin)).

(** [keccak256(abi.encodePacked(account, amount))]: 20 bytes of address,
    32 bytes of amount. *)
Definition leaf_of (account amount : N) : N :=
  keccak256 (be_bytes 20 account ++ be_bytes 32 amount).

Definition setMerkleRoot (sender epochId token root : N) (s : state) : result state :=
  onlyRole (roles s) OPERATOR_ROLE sender ;;
  require (negb (root =? 0)) "Invalid merkle root" ;;
  mret (set_root s epochId token root).

Definition claim (sender epochId token amount : N) (merkleProof : list N) (s : state)
  : result (state * list call) :=
  require (negb (claimed_at s epochId token sender)) "Already claimed" ;;
  let root := root_at s epochId token in
  require (negb (root =? 0)) "Merkle root not set" ;;
  let leaf := leaf_of sender amount in
  require (MerkleProof.verify merkleProof root leaf) "Invalid proof" ;;
  let s1 := mark_claimed s epochId token sender in
  total ← checked_add (total_at s1 sender token) amount ;
  mret (set_total s1 sender token total,
        [TransferFrom token (treasury s) sender amount]).

(** One turn of the loop of [claimMultiple]; the three [continue]s leave
    the state and the running total as they are. *)
Definition claim_entry (sender token : N) (entry : N * N * list N) (acc : state * N)
  : result (state * N) :=
  let '(epochId, amount, proof) := entry in
  let '(s, totalAmount) := acc in
  if claimed_at s epochId token sender then Ok acc else
  let root := root_at s epochId token in
  if root =? 0 then Ok acc else
  let leaf := leaf_of sender amount in
  if negb (MerkleProof.verify proof root leaf) then Ok acc else
  total ← checked_add totalAmount amount ;
  mret (mark_claimed s epochId token sender, total).

Fixpoint claim_loop (sender token : N) (entries : list (N * N * list N)) (acc : state * N)
  : result (state * N) :=
  match entries with
  | [] => Ok acc
  | entry :: rest =>
      acc' ← claim_entry sender token entry acc ;
      claim_loop sender token rest acc'
  end.

(** The [i]-th turn reads [epochIds[i]], [amounts[i]] and
    [merkleProofs[i]]; after the two length checks that is the zip. *)
Definition entries_of (epochIds amounts : list N) (merkleProofs : list (list N))
  : list (N * N * list N) :=
  zip (zip epochIds amounts) merkleProofs.

Definition claimMultiple (sender : N) (epochIds : list N) (token : N)
    (amounts : list N) (merkleProofs : list (list N)) (s : state)
  : result (state * list call) :=
  require (Nat.eqb (length epochIds) (length amounts)) "Length mismatch" ;;
  require (Nat.eqb (length epochIds) (length merkleProofs)) "Length mismatch" ;;
  acc ← claim_loop sender token (entries_of epochIds amounts merkleProofs) (s, 0) ;
  let '(s1, totalAmount) := acc in
  if 0 <? totalAmount then
    total ← checked_add (total_at s1 sender token) totalAmount ;
    mret (set_total s1 sender token total,
          [TransferFrom token (treasury s1) sender totalAmount])
  else mret (s1, []).


Definition canClaim (s : state) (epochId token account amount : N) (merkleProof : list N) : bool :=
  if claimed_at s epochId token account then false else
  let root := root_at s epochId token in
  if root =? 0 then false else
  MerkleProof.verify merkleProof root (leaf_of account amount).

Definition setTreasury (sender _treasury : N) (s : state) : result state :=
  onlyRole (roles s) DEFAULT_ADMIN_ROLE sender ;;
  require (negb (_treasury =? 0)) "Invalid treasury" ;;
  mret (mkState _treasury (epochMerkleRoots s) (claimed s) (totalClaimed s) (roles s)).

Definition set_roles (s : state) (rs : gset (N * N)) : state :=
  mkState (treasury s) (epochMerkleRoots s) (claimed s) (totalClaimed s) rs.

Inductive tx : Type :=
| SetMerkleRoot (epochId token root : N)
| Claim (epochId token amount : N) (merkleProof : list N)
| ClaimMultiple (epochIds : list N) (token : N) (amounts : list N) (merkleProofs : list (list N))
| SetTreasury (_treasury : N)
| GrantRole (role account : N)
| RevokeRole (role account : N)
| RenounceRole (role callerConfirmation : N).

Definition step (sender : N) (t : tx) (s : state) : result (state * list call) :=
  match t with
  | SetMerkleRoot epochId token root =>
      (fun s' => (s', [])) <$> setMerkleRoot sender epochId token root s
  | Claim epochId token amount proof => claim sender epochId token amount proof s
  | ClaimMultiple epochIds token amounts proofs =>
      claimMultiple sender epochIds token amounts proofs s
  | SetTreasury t' => (fun s' => (s', [])) <$> setTreasury sender t' s
  | GrantRole role account =>
      (fun rs => (set_roles s rs, [])) <$> grantRole sender role account (roles s)
  | RevokeRole role account =>
      (fun rs => (set_roles s rs, [])) <$> revokeRole sender role account (roles s)
  | RenounceRole role c =>
      (fun rs => (set_roles s rs, [])) <$> renounceRole sender role c (roles s)
  end.

Inductive reachable : state → Prop :=
| reachable_deploy admin tr s :
    constructor admin tr = Ok s → reachable s
| reachable_step sender t s s' calls :
    reachable s → step sender t s = Ok (s', calls) → reachable s'.

(** A sequence of transactions, each from its own sender; a reverted
    one leaves the state as it was. *)
Fixpoint run (txs : list (N * tx)) (s : state) : state :=
  match txs with
  | [] => s
  | (sender, t) :: rest =>
      match step sender t s with
      | Ok (s', _) => run rest s'
      | Err _ => run rest s
      end
  end.

(** An entry of a batch passes the three checks of the loop. *)
Definition eligible (s : state) (sender token : N) (entry : N * N * list N) : bool :=
  let '(epochId, amount, proof) := entry in
  negb (claimed_at s epochId token sender)
  && negb (root_at s epochId token =? 0)
  && MerkleProof.verify proof (root_at s epochId token) (leaf_of sender amount).

(** The entries of a batch that are paid: those eligible when their turn
    comes, an entry paid earlier in the batch counting as claimed. *)
Fixpoint paid_entries (s : state) (sender token : N) (entries : list (N * N * list N))
  : list (N * N * list N) :=
  match entries with
  | [] => []
  | entry :: rest =>
      if eligible s sender token entry
      then entry :: paid_entries (mark_claimed s entry.1.1 token sender) sender token rest
      else paid_entries s sender token rest
  end.

Definition mark_all (s : state) (sender token : N) (paid : list (N * N * list N)) : state :=
  fold_left (fun acc entry => mark_claimed acc entry.1.1 token sender) paid s.

Definition amounts_of (entries : list (N * N * list N)) : list N := map (fun e => e.1.2) entries.

(** No claimed flag without a root. *)
Definition inv (s : state) : Prop :=
  ∀ epochId token account,
    claimed_at s epochId token account = true → root_at s epochId token ≠ 0.

(** A deployment for examples: admin and operator 7, treasury 0x7EA; the
    operator records, for token 0x70 and account 0xA1, one single-leaf
    root per epoch 1, 2, 3 (amounts 100, 200, 50); the account claims
    epoch 2. *)
Definition deployed : state :=
  mkState 0x7EA ∅ ∅ ∅ (_grantRole (_grantRole ∅ DEFAULT_ADMIN_ROLE 7) OPERATOR_ROLE 7).

Definition funded : state :=
  run [ (7, SetMerkleRoot 1 0x70 (leaf_of 0xA1 100));
        (7, SetMerkleRoot 2 0x70 (leaf_of 0xA1 200));
        (7, SetMerkleRoot 3 0x70 (leaf_of 0xA1 50));
        (0xA1, Claim 2 0x70 200 []) ] deployed.



(** The calls issued by a sequence of transactions, reverted ones
    issuing none. *)
Fixpoint trace (txs : list (N * tx)) (s : state) : list call :=
  match txs with
  | [] => []
  | (sender, t) :: rest =>
      match step sender t s with
      | Ok (s', calls) => calls ++ trace rest s'
      | Err _ => trace rest s
      end
  end.

(** What a list of calls asks to be paid to [account] in [token]. *)
Definition paid_to (account token : N) (calls : list call) : N :=
  sum_list
    (map (fun c =>
            match c with
            | TransferFrom t _ to a => if (t =? token) && (to =? account) then a else 0
            | _ => 0
            end) calls).

(** What a claim changes besides the cumulative totals: claimed flags
    only, and those only from false to true. *)
Definition extends (s s' : state) : Prop :=
  treasury s' = treasury s
  ∧ epochMerkleRoots s' = epochMerkleRoots s
  ∧ roles s' = roles s
  ∧ ∀ e t a, claimed_at s e t a = true → claimed_at s' e t a = true.

End MerkleDistributor.

(** ** [XsrnTreasury] (contracts/XsrnFeeSplitter.sol, second contract) *)

Module XsrnTreasury.
Import AccessControl.

Definition DISTRIBUTOR_ROLE : N := keccak256 (ascii_bytes "DISTRIBUTOR_ROLE").
Definition TIMELOCK_ROLE : N := keccak256 (ascii_bytes "TIMELOCK_ROLE").

Definition WATCHER_BPS : N := 4000.
Definition OPERATOR_BPS : N := 3000.
Definition PUBLIC_GOODS_BPS : N := 2000.
Definition SECURITY_RESERVE_BPS : N := 1000.

Record state : Type := mkState {
  watcher : N;
  operator : N;
  publicGoods : N;
  securityReserve : N;
  roles : gset (N * N)
}.

Definition constructor (_admin : N) : state :=
  mkState _admin _admin _admin _admin
          (_grantRole (_grantRole ∅ DEFAULT_ADMIN_ROLE _admin) TIMELOCK_ROLE _admin).

(** [_transfer]: nothing for a zero amount, a native send for the zero
    token, an ERC-20 transfer otherwise. *)
Definition _transfer (token to amount : N) : list call :=
  if amount =? 0 then []
  else if token =? 0 then [SendValue to amount]
  else [Transfer token to amount].

(** [totalBalance] is what the contract reads as its own balance
    ([address(this).balance] or [balanceOf(address(this))]). *)
Definition distributeRewards (sender token totalBalance : N) (s : state)
  : result (list call) :=
  onlyRole (roles s) DISTRIBUTOR_ROLE sender ;;
  require (0 <? totalBalance) "No funds to distribute" ;;
  w ← checked_mul totalBalance WATCHER_BPS ;
  let watcherAmount := w / 10000 in
  o ← checked_mul totalBalance OPERATOR_BPS ;
  let operatorAmount := o / 10000 in
  p ← checked_mul totalBalance PUBLIC_GOODS_BPS ;
  let publicGoodsAmount := p / 10000 in
  r1 ← checked_sub totalBalance watcherAmount ;
  r2 ← checked_sub r1 operatorAmount ;
  securityReserveAmount ← checked_sub r2 publicGoodsAmount ;
  mret (_transfer token (watcher s) watcherAmount
        ++ _transfer token (operator s) operatorAmount
        ++ _transfer token (publicGoods s) publicGoodsAmount
        ++ _transfer token (securityReserve s) securityReserveAmount).

(** The four amounts [distributeRewards] computes, before [_transfer]
    drops the zero ones. *)
Definition distribution (totalBalance : N) : list N :=
  let watcherAmount := totalBalance * WATCHER_BPS / 10000 in
  let operatorAmount := totalBalance * OPERATOR_BPS / 10000 in
  let publicGoodsAmount := totalBalance * PUBLIC_GOODS_BPS / 10000 in
  [watcherAmount; operatorAmount; publicGoodsAmount;
   totalBalance - watcherAmount - operatorAmount - publicGoodsAmount].

Definition setDistributionAddresses
    (sender _watcher _operator _publicGoods _securityReserve : N) (s : state) : result state :=
  onlyRole (roles s) DEFAULT_ADMIN_ROLE sender ;;
  require (negb (_watcher =? 0)) "Invalid watcher" ;;
  require (negb (_operator =? 0)) "Invalid operator" ;;
  require (negb (_publicGoods =? 0)) "Invalid public goods" ;;
  require (negb (_securityReserve =? 0)) "Invalid security reserve" ;;
  mret (mkState _watcher _operator _publicGoods _securityReserve (roles s)).

(** [distributeReward]: one payment to one address, for the distributor;
    unlike [_transfer] it does not leave out a zero amount. *)
Definition distributeReward (sender token to amount : N) (s : state) : result (list call) :=
  onlyRole (roles s) DISTRIBUTOR_ROLE sender ;;
  mret (if token =? 0 then [SendValue to amount] else [Transfer token to amount]).

(** A treasury for examples: deployed by account 7, which then granted
    the distributor role to account 9. *)
Definition funded : state :=
  mkState 0x11 0x22 0x33 0x44
          (_grantRole (_grantRole (_grantRole ∅ DEFAULT_ADMIN_ROLE 7) TIMELOCK_ROLE 7)
                      DISTRIBUTOR_ROLE 9).

End XsrnTreasury.

(** ** The splitter of the specification

    No function of the repository splits by an arbitrary ratio list; the
    contracts have the two instances [XsrnTreasury.distributeRewards] and
    the slash of [AttestationRegistry.arbitrate]. [spec_split] follows the
    words of the specification, to compare the instances with. *)

Fixpoint spec_split_shares (total : N) (ratiosBps : list N) (paid : N) : list N :=
  match ratiosBps with
  | [] => []
  | [_] => [total - paid]
  | r :: rest =>
      let share := total * r / 10000 in
      share :: spec_split_shares total rest (paid + share)
  end.

Definition spec_split (total : N) (ratiosBps : list N) : option (list N) :=
  if sum_list ratiosBps =? 10000 then Some (spec_split_shares total ratiosBps 0) else None.

(** ** [AttestationRegistry] (contracts/AttestationRegistry.sol) *)

Module AttestationRegistry.
Import AccessControl.

Definition ARBITER_ROLE : N := keccak256 (ascii_bytes "ARBITER_ROLE").

Inductive AttestationStatus : Type :=
| Pending        (* awaiting challenge period end; the zero value *)
| Validated
| Challenged
| Slashed
| Withdrawn.

#[global] Instance AttestationStatus_eq_dec : EqDecision AttestationStatus.
Proof. solve_decision. Defined.

Record Attestation : Type := mkAttestation {
  attester : N;
  contentHash : N;
  bondAmount : N;
  timestamp : N;
  challengeDeadline : N;
  status : AttestationStatus;
  challenger : N;
  challengeReason : N
}.

Record state : Type := mkState {
  bondToken : N;
  minBondAmount : N;
  challengePeriod : N;
  slashPercentage : N;
  attestations : gmap N Attestation;
  attestationIds : list N;
  attesterValidCount : gmap N N;
  attesterSlashCount : gmap N N;
  challengerWinCount : gmap N N;
  roles : gset (N * N)
}.

Definition zero_attestation : Attestation := mkAttestation 0 0 0 0 0 Pending 0 0.

Definition attestation_at (s : state) (attestationId : N) : Attestation :=
  default zero_attestation (attestations s !! attestationId).

Definition count_at (m : gmap N N) (account : N) : N := default 0 (m !! account).

Definition status_of (s : state) (attestationId : N) : AttestationStatus :=
  status (attestation_at s attestationId).

Definition set_status (a : Attestation) (st : AttestationStatus) : Attestation :=
  mkAttestation (attester a) (contentHash a) (bondAmount a) (timestamp a)
                (challengeDeadline a) st (challenger a) (challengeReason a).

Definition set_attestation (s : state) (attestationId : N) (a : Attestation) : state :=
  mkState (bondToken s) (minBondAmount s) (challengePeriod s) (slashPercentage s)
          (<[attestationId := a]> (attestations s)) (attestationIds s)
          (attesterValidCount s) (attesterSlashCount s) (challengerWinCount s) (roles s).

Definition set_valid_count (s : state) (account n : N) : state :=
  mkState (bondToken s) (minBondAmount s) (challengePeriod s) (slashPercentage s)
          (attestations s) (attestationIds s)
          (<[account := n]> (attesterValidCount s)) (attesterSlashCount s)
          (challengerWinCount s) (roles s).

Definition set_slash_count (s : state) (account n : N) : state :=
  mkState (bondToken s) (minBondAmount s) (challengePeriod s) (slashPercentage s)
          (attestations s) (attestationIds s)
          (attesterValidCount s) (<[account := n]> (attesterSlashCount s))
          (challengerWinCount s) (roles s).

Definition set_win_count (s : state) (account n : N) : state :=
  mkState (bondToken s) (minBondAmount s) (challengePeriod s) (slashPercentage s)
          (attestations s) (attestationIds s)
          (attesterValidCount s) (attesterSlashCount s)
          (<[account := n]> (challengerWinCount s)) (roles s).

Definition push_id (s : state) (attestationId : N) : state :=
  mkState (bondToken s) (minBondAmount s) (challengePeriod s) (slashPercentage s)
          (attestations s) (attestationIds s ++ [attestationId])
          (attesterValidCount s) (attesterSlashCount s) (challengerWinCount s) (roles s).

Definition set_config (s : state) (minBond period pct : N) : state :=
  mkState (bondToken s) minBond period pct
          (attestations s) (attestationIds s)
          (attesterValidCount s) (attesterSlashCount s) (challengerWinCount s) (roles s).

Definition set_roles (s : state) (rs : gset (N * N)) : state :=
  mkState (bondToken s) (minBondAmount s) (challengePeriod s) (slashPercentage s)
          (attestations s) (attestationIds s)
          (attesterValidCount s) (attesterSlashCount s) (challengerWinCount s) rs.

Definition constructor (_admin _bondToken _minBondAmount _challengePeriod _slashPercentage : N)
  : result state :=
  require (negb (_bondToken =? 0)) "Invalid bond token" ;;
  require (_slashPercentage <=? 10000) "Invalid slash percentage" ;;
  mret (mkState _bondToken _minBondAmount _challengePeriod _slashPercentage
          ∅ [] ∅ ∅ ∅
          (_grantRole (_grantRole ∅ DEFAULT_ADMIN_ROLE _admin) ARBITER_ROLE _admin)).

(** [keccak256(abi.encodePacked(msg.sender, contentHash, block.timestamp,
    block.number))]. *)
Definition attestation_id (sender _contentHash now blockNumber : N) : N :=
  keccak256 (be_bytes 20 sender ++ be_bytes 32 _contentHash
             ++ be_bytes 32 now ++ be_bytes 32 blockNumber).

Definition submitAttestation (this now blockNumber sender _contentHash _bondAmount : N) (s : state)
  : result (N * state * list call) :=
  require (negb (_contentHash =? 0)) "Invalid content hash" ;;
  let attestationId := attestation_id sender _contentHash now blockNumber in
  require (timestamp (attestation_at s attestationId) =? 0) "Attestation exists" ;;
  calls ← (if 0 <? _bondAmount then
             require (minBondAmount s <=? _bondAmount) "Bond too low" ;;
             mret [TransferFrom (bondToken s) sender this _bondAmount]
           else mret []) ;
  deadline ← checked_add now (challengePeriod s) ;
  let att := mkAttestation sender _contentHash _bondAmount now deadline Pending 0 0 in
  mret (attestationId, push_id (set_attestation s attestationId att) attestationId, calls).

Definition challenge (now sender attestationId reason : N) (s : state) : result state :=
  let att := attestation_at s attestationId in
  require (negb (timestamp att =? 0)) "Attestation not found" ;;
  require (bool_decide (status att = Pending)) "Not challengeable" ;;
  require (now <=? challengeDeadline att) "Challenge period ended" ;;
  require (negb (sender =? attester att)) "Cannot self-challenge" ;;
  mret (set_attestation s attestationId
          (mkAttestation (attester att) (contentHash att) (bondAmount att) (timestamp att)
                         (challengeDeadline att) Challenged sender reason)).

Definition arbitrate (sender attestationId : N) (challengeSucceeded : bool) (s : state)
  : result (state * list call) :=
  onlyRole (roles s) ARBITER_ROLE sender ;;
  let att := attestation_at s attestationId in
  require (bool_decide (status att = Challenged)) "Not in challenge" ;;
  if challengeSucceeded then
    let s1 := set_attestation s attestationId (set_status att Slashed) in
    slashes ← checked_add (count_at (attesterSlashCount s1) (attester att)) 1 ;
    let s2 := set_slash_count s1 (attester att) slashes in
    wins ← checked_add (count_at (challengerWinCount s2) (challenger att)) 1 ;
    let s3 := set_win_count s2 (challenger att) wins in
    product ← checked_mul (bondAmount att) (slashPercentage s3) ;
    let slashAmount := product / 10000 in
    refundAmount ← checked_sub (bondAmount att) slashAmount ;
    mret (s3,
          (if 0 <? slashAmount then [Transfer (bondToken s3) (challenger att) slashAmount] else [])
          ++ (if 0 <? refundAmount then [Transfer (bondToken s3) (attester att) refundAmount] else []))
  else
    let s1 := set_attestation s attestationId (set_status att Validated) in
    valids ← checked_add (count_at (attesterValidCount s1) (attester att)) 1 ;
    mret (set_valid_count s1 (attester att) valids, []).

Definition validate (now attestationId : N) (s : state) : result state :=
  let att := attestation_at s attestationId in
  require (bool_decide (status att = Pending)) "Not pending" ;;
  require (challengeDeadline att <? now) "Challenge period not ended" ;;
  let s1 := set_attestation s attestationId (set_status att Validated) in
  valids ← checked_add (count_at (attesterValidCount s1) (attester att)) 1 ;
  mret (set_valid_count s1 (attester att) valids).

Definition withdrawBond (sender attestationId : N) (s : state) : result (state * list call) :=
  let att := attestation_at s attestationId in
  require (sender =? attester att) "Not attester" ;;
  require (bool_decide (status att = Validated)) "Not validated" ;;
  require (0 <? bondAmount att) "No bond" ;;
  let amount := bondAmount att in
  mret (set_attestation s attestationId
          (mkAttestation (attester att) (contentHash att) 0 (timestamp att)
                         (challengeDeadline att) Withdrawn (challenger att) (challengeReason att)),
        [Transfer (bondToken s) sender amount]).

Definition getAttestation (s : state) (attestationId : N) : Attestation :=
  attestation_at s attestationId.

Definition getAttesterStats (s : state) (account : N) : N * N :=
  (count_at (attesterValidCount s) account, count_at (attesterSlashCount s) account).

Definition setMinBondAmount (sender _amount : N) (s : state) : result state :=
  onlyRole (roles s) DEFAULT_ADMIN_ROLE sender ;;
  mret (set_config s _amount (challengePeriod s) (slashPercentage s)).

Definition setChallengePeriod (sender _period : N) (s : state) : result state :=
  onlyRole (roles s) DEFAULT_ADMIN_ROLE sender ;;
  mret (set_config s (minBondAmount s) _period (slashPercentage s)).

Definition setSlashPercentage (sender _percentage : N) (s : state) : result state :=
  onlyRole (roles s) DEFAULT_ADMIN_ROLE sender ;;
  require (_percentage <=? 10000) "Invalid percentage" ;;
  mret (set_config s (minBondAmount s) (challengePeriod s) _percentage).

(** The external functions, as one transaction type. *)
Inductive tx : Type :=
| SubmitAttestation (_contentHash _bondAmount : N)
| Challenge (attestationId reason : N)
| Arbitrate (attestationId : N) (challengeSucceeded : bool)
| Validate (attestationId : N)
| WithdrawBond (attestationId : N)
| SetMinBondAmount (_amount : N)
| SetChallengePeriod (_period : N)
| SetSlashPercentage (_percentage : N)
| GrantRole (role account : N)
| RevokeRole (role account : N)
| RenounceRole (role callerConfirmation : N).

(** The block a transaction runs in, who sent it, and the address of the
    registry itself ([address(this)]). *)
Record env : Type := mkEnv { this : N; now : N; blockNumber : N; sender : N }.

Definition step (e : env) (t : tx) (s : state) : result (state * list call) :=
  match t with
  | SubmitAttestation h b =>
      (fun r : N * state * list call => (r.1.2, r.2))
        <$> submitAttestation (this e) (now e) (blockNumber e) (sender e) h b s
  | Challenge i r => (fun s' => (s', [])) <$> challenge (now e) (sender e) i r s
  | Arbitrate i ok => arbitrate (sender e) i ok s
  | Validate i => (fun s' => (s', [])) <$> validate (now e) i s
  | WithdrawBond i => withdrawBond (sender e) i s
  | SetMinBondAmount a => (fun s' => (s', [])) <$> setMinBondAmount (sender e) a s
  | SetChallengePeriod p => (fun s' => (s', [])) <$> setChallengePeriod (sender e) p s
  | SetSlashPercentage p => (fun s' => (s', [])) <$> setSlashPercentage (sender e) p s
  | GrantRole role account =>
      (fun rs => (set_roles s rs, [])) <$> grantRole (sender e) role account (roles s)
  | RevokeRole role account =>
      (fun rs => (set_roles s rs, [])) <$> revokeRole (sender e) role account (roles s)
  | RenounceRole role c =>
      (fun rs => (set_roles s rs, [])) <$> renounceRole (sender e) role c (roles s)
  end.

(** A sequence of transactions; a reverted one leaves the state as it
    was. The states passed through are collected, the first one first. *)
Fixpoint run (txs : list (env * tx)) (s : state) : list state :=
  match txs with
  | [] => [s]
  | (e, t) :: rest =>
      match step e t s with
      | Ok (s', _) => s :: run rest s'
      | Err _ => s :: run rest s
      end
  end.

(** The edges of the status graph of attestation [i], each with the
    transaction that takes it and the condition the contract puts on it;
    [a] is the attestation before the transaction. *)
Inductive transition (i : N) (a : Attestation) (e : env)
  : tx → AttestationStatus → AttestationStatus → Prop :=
| t_challenge r :
    now e <= challengeDeadline a → sender e ≠ attester a →
    transition i a e (Challenge i r) Pending Challenged
| t_validate :
    challengeDeadline a < now e →
    transition i a e (Validate i) Pending Validated
| t_slash :
    transition i a e (Arbitrate i true) Challenged Slashed
| t_uphold :
    transition i a e (Arbitrate i false) Challenged Validated
| t_withdraw :
    sender e = attester a →
    transition i a e (WithdrawBond i) Validated Withdrawn.

(** The same graph without the conditions. *)
Inductive edge : AttestationStatus → AttestationStatus → Prop :=
| e_challenge : edge Pending Challenged
| e_timeout : edge Pending Validated
| e_slash : edge Challenged Slashed
| e_uphold : edge Challenged Validated
| e_withdraw : edge Validated Withdrawn.

(** The status a transaction on an attestation starts from. *)
Definition source_status (t : tx) : option (N * AttestationStatus) :=
  match t with
  | Challenge i _ => Some (i, Pending)
  | Validate i => Some (i, Pending)
  | Arbitrate i _ => Some (i, Challenged)
  | WithdrawBond i => Some (i, Validated)
  | _ => None
  end.

(** Every state of a history has the status of attestation [i] equal to
    that of the state before it, or one edge further. *)
Fixpoint along_edges (i : N) (history : list state) : Prop :=
  match history with
  | s1 :: (s2 :: _) as rest =>
      (status_of s2 i = status_of s1 i ∨ edge (status_of s1 i) (status_of s2 i))
      ∧ along_edges i rest
  | _ => True
  end.

(** The states the deployed registry can be in, each with the calls
    issued on the way to it; a transaction runs at a positive block
    timestamp. *)
Inductive history : state → list call → Prop :=
| history_deploy admin tok minBond period pct s :
    constructor admin tok minBond period pct = Ok s → history s []
| history_step e t s s' calls past :
    history s past → 0 < now e → step e t s = Ok (s', calls) →
    history s' (past ++ calls).

(** The bond the registry still holds for an attestation: all of it
    until the attestation is slashed or withdrawn. *)
Definition owed (a : Attestation) : N :=
  match status a with
  | Pending | Challenged | Validated => bondAmount a
  | Slashed | Withdrawn => 0
  end.

Definition liability (s : state) : N :=
  map_fold (fun _ a acc => owed a + acc) 0 (attestations s).

(** What a list of calls draws into the registry, and what it pays out. *)
Definition escrowed (calls : list call) : N :=
  sum_list (map (fun c => match c with TransferFrom _ _ _ a => a | _ => 0 end) calls).

Definition released (calls : list call) : N :=
  sum_list (map (fun c => match c with Transfer _ _ a => a | _ => 0 end) calls).

(** A registry for examples: admin and arbiter 7, bond token 0x70,
    minimum bond 10, challenge period 3600, slash 50%; account 0xA1
    submits at time 1000 in block 5 with a bond of 101. *)
Definition deployed : state :=
  mkState 0x70 10 3600 5000 ∅ [] ∅ ∅ ∅
          (_grantRole (_grantRole ∅ DEFAULT_ADMIN_ROLE 7) ARBITER_ROLE 7).

Definition demo_id : N := attestation_id 0xA1 0xC0FFEE 1000 5.

Definition submitted : state :=
  default deployed
    (last (run [ (mkEnv 0x5E1F 1000 5 0xA1, SubmitAttestation 0xC0FFEE 101) ] deployed)).

Definition challenged : state :=
  default submitted
    (last (run [ (mkEnv 0x5E1F 2000 6 0xB2, Challenge demo_id 0xBAD) ] submitted)).


(** The arbiter then upholds the challenge. *)
Definition slashed : state :=
  default challenged
    (last (run [ (mkEnv 0x5E1F 3000 7 7, Arbitrate demo_id true) ] challenged)).

End AttestationRegistry.

(** ** [StandardMerkleTree] of @openzeppelin/merkle-tree, as
    [MerkleGenerator.generate] calls it with the leaf encoding
    [['address', 'uint256']] *)

Module StandardMerkleTree.

(** [defaultAbiCoder.encode(['address','uint256'], [address, amount])]:
    two 32-byte words; the coder throws on a value outside its type. *)
Definition abi_encode (address : N) (amount : Z) : option (list N) :=
  if (address <? 2 ^ 160) && (0 <=? amount)%Z && (amount <? 2 ^ 256)%Z
  then Some (be_bytes 32 address ++ be_bytes 32 (Z.to_N amount))
  else None.

(** [standardLeafHash]: the encoding hashed twice. *)
Definition standardLeafHash (value : N * Z) : option N :=
  enc ← abi_encode value.1 value.2 ;
  Some (keccak256 (be_bytes 32 (keccak256 enc))).

(** [hashPair]: the two nodes sorted by [compareBytes], concatenated,
    hashed. *)
Definition hashPair (a b : N) : N :=
  if b <? a then keccak256 (be_bytes 32 b ++ be_bytes 32 a)
  else keccak256 (be_bytes 32 a ++ be_bytes 32 b).

Definition leftChildIndex (i : nat) : nat := 2 * i + 1.
Definition rightChildIndex (i : nat) : nat := 2 * i + 2.
Definition parentIndex (i : nat) : nat := (i - 1) / 2.
Definition siblingIndex (i : nat) : nat := if Nat.even i then i - 1 else i + 1.

Definition node (tree : list N) (i : nat) : N := nth i tree 0.

(** [makeMerkleTree]: the leaves fill the array from its end backwards,
    then every inner node is the pair hash of its two children. *)
Definition makeMerkleTree (leaves : list N) : option (list N) :=
  match leaves with
  | [] => None
  | _ =>
      let n := length leaves in
      let init := repeat 0 (n - 1) ++ rev leaves in
      Some (fold_left
              (fun tree i =>
                 <[i := hashPair (node tree (leftChildIndex i)) (node tree (rightChildIndex i))]> tree)
              (rev (seq 0 (n - 1))) init)
  end.

Definition isLeafNode (tree : list N) (i : nat) : bool :=
  (i <? length tree)%nat && (length tree <=? leftChildIndex i)%nat.

Fixpoint proof_from (fuel : nat) (tree : list N) (index : nat) : list N :=
  match fuel with
  | O => []
  | S k =>
      if (0 <? index)%nat
      then node tree (siblingIndex index) :: proof_from k tree (parentIndex index)
      else []
  end.

(** core [getProof]; [index] bounds the number of turns of its loop. *)
Definition core_getProof (tree : list N) (index : nat) : option (list N) :=
  if isLeafNode tree index then Some (proof_from index tree index) else None.

Definition processProof (leaf : N) (proof : list N) : N := fold_left hashPair proof leaf.

(** Stable insertion, for [hashedValues.sort] by [compareBytes] on the
    hash. *)
Fixpoint insert_by_hash (x : N * nat) (l : list (N * nat)) : list (N * nat) :=
  match l with
  | [] => [x]
  | y :: rest => if x.1 <? y.1 then x :: l else y :: insert_by_hash x rest
  end.

Definition sort_by_hash (l : list (N * nat)) : list (N * nat) :=
  fold_left (fun acc x => insert_by_hash x acc) l [].

Record t : Type := mkTree {
  tree : list N;
  values : list (N * Z * nat)      (* the value and its treeIndex *)
}.

Definition root (m : t) : N := node (tree m) 0.

(** [StandardMerkleTree.of(values, ['address', 'uint256'])]. *)
Definition of_ (vals : list (N * Z)) : option t :=
  hashes ← mapM standardLeafHash vals ;
  let hashedValues := sort_by_hash (zip hashes (seq 0 (length vals))) in
  tr ← makeMerkleTree (hashedValues.*1) ;
  let indexed :=
    fold_left
      (fun acc (p : nat * (N * nat)) =>
         let '(leafIndex, (_, valueIndex)) := p in
         match acc !! valueIndex with
         | Some (v, _) => <[valueIndex := (v, (length tr - leafIndex - 1)%nat)]> acc
         | None => acc
         end)
      (zip (seq 0 (length hashedValues)) hashedValues)
      (map (fun v => (v, O)) vals) in
  Some (mkTree tr indexed).

(** [tree.getProof(valueIndex)], with its checks: the value exists, its
    leaf is in the tree, and the proof it is about to return rebuilds
    the root. *)
Definition getProof (m : t) (valueIndex : nat) : option (list N) :=
  '(v, treeIndex) ← values m !! valueIndex ;
  leaf ← standardLeafHash v ;
  if negb (leaf =? node (tree m) treeIndex) then None else
  proof ← core_getProof (tree m) treeIndex ;
  if negb (processProof (node (tree m) treeIndex) proof =? root m) then None else
  Some proof.

End StandardMerkleTree.

(** ** [MerkleGenerator] (src/services/merkle-generator.ts)

    Addresses are the 160-bit numbers their strings denote, which is also
    what [toLowerCase] makes of them as keys; hashes are the 256-bit numbers
    of their hex strings, so that the string comparison [<] of two hashes is
    [<] on numbers. [None] is a thrown exception. *)

Module MerkleGenerator.

Record RewardEntry : Type := mkRewardEntry {
  address : N;
  amount : Z;          (* bigint *)
  epochId : N
}.

Record MerkleTreeResult : Type := mkResult {
  root : N;
  proofs : gmap N (list N);
  entries : list RewardEntry
}.

Definition generate (rewards : list RewardEntry) : option MerkleTreeResult :=
  match rewards with
  | [] => Some (mkResult ZERO_HASH ∅ [])
  | _ =>
      let values := map (fun r => (address r, amount r)) rewards in
      tree ← StandardMerkleTree.of_ values ;
      proofs ←
        foldl (fun (acc : option (gmap N (list N))) (p : nat * RewardEntry) =>
                 m ← acc ;
                 proof ← StandardMerkleTree.getProof tree p.1 ;
                 Some (<[address p.2 := proof]> m))
              (Some ∅) (zip (seq 0 (length rewards)) rewards) ;
      Some (mkResult (StandardMerkleTree.root tree) proofs rewards)
  end.

Definition getProof (result : MerkleTreeResult) (addr : N) : option (list N) :=
  proofs result !! addr.

Definition verify (root addr : N) (amt : Z) (proof : list N) : option bool :=
  enc ← StandardMerkleTree.abi_encode addr amt ;
  let leaf := keccak256 enc in
  let computedHash :=
    fold_left
      (fun computedHash proofElement =>
         if computedHash <? proofElement
         then keccak256 (be_bytes 32 computedHash ++ be_bytes 32 proofElement)
         else keccak256 (be_bytes 32 proofElement ++ be_bytes 32 computedHash))
      proof leaf in
  Some (computedHash =? root).

(** The rewards of test/merkle-generator.test.ts. *)
Definition ether : Z := 10 ^ 18.

Definition mockRewards : list RewardEntry :=
  [ mkRewardEntry 0x1111111111111111111111111111111111111111 (100 * ether) 1;
    mkRewardEntry 0x2222222222222222222222222222222222222222 (200 * ether) 1;
    mkRewardEntry 0x3333333333333333333333333333333333333333 (50 * ether) 1 ].



End MerkleGenerator.

(** ** [XsrnFeeSplitter] (contracts/XsrnFeeSplitter.sol, first contract) *)

Module XsrnFeeSplitter.

Record state : Type := mkState {
  owner : N;                 (* OpenZeppelin Ownable *)
  protocolFeeBps : N;
  commissionContract : N;
  treasury : N
}.

(** The [PaymentSplit] event. *)
Record PaymentSplit : Type := mkPaymentSplit {
  ps_token : N;
  ps_merchant : N;
  ps_totalAmount : N;
  ps_commissionAmount : N;
  ps_protocolFeeAmount : N;
  ps_routeRefHash : N
}.

(** What [quickPaySplit] does to the outside: token calls, allowances
    given to the commission contract, and the call into it. *)
Inductive effect : Type :=
| Token (c : call)
| ForceApprove (token spender amount : N)
| CommissionQuickPaySplit (commission orderId amount : N).

(** [protocolFeeBps = 30] is the initialiser of the state variable; the
    deployer becomes the owner ([Ownable(msg.sender)], which rejects the
    zero address). *)
Definition constructor (sender _treasury _commissionContract : N) : result state :=
  require (negb (sender =? 0)) "OwnableInvalidOwner" ;;
  require (negb (_treasury =? 0)) "Invalid treasury" ;;
  require (negb (_commissionContract =? 0)) "Invalid commission contract" ;;
  mret (mkState sender 30 _commissionContract _treasury).

(** [onlyOwner] of Ownable. *)
Definition onlyOwner (s : state) (sender : N) : result unit :=
  require (sender =? owner s) "OwnableUnauthorizedAccount".

Definition setCommissionContract (sender _commissionContract : N) (s : state) : result state :=
  onlyOwner s sender ;;
  require (negb (_commissionContract =? 0)) "Invalid address" ;;
  mret (mkState (owner s) (protocolFeeBps s) _commissionContract (treasury s)).

Definition quickPaySplit (this sender token merchant amount orderId : N) (s : state)
  : result (list effect * PaymentSplit) :=
  require (0 <? amount) "Amount must be > 0" ;;
  let pull := [Token (TransferFrom token sender this amount)] in
  product ← checked_mul amount (protocolFeeBps s) ;
  let protocolFeeAmount := product / 10000 in
  remainingAmount ← checked_sub amount protocolFeeAmount ;
  let fee :=
    if 0 <? protocolFeeAmount
    then [Token (Transfer token (treasury s) protocolFeeAmount)] else [] in
  let forward :=
    if 0 <? remainingAmount
    then [ForceApprove token (commissionContract s) remainingAmount;
          CommissionQuickPaySplit (commissionContract s) orderId remainingAmount;
          ForceApprove token (commissionContract s) 0]
    else [] in
  mret (pull ++ fee ++ forward,
        mkPaymentSplit token merchant amount remainingAmount protocolFeeAmount orderId).

Definition splitPaymentERC20 (sender token merchant amount : N) (routeRef : list N) (s : state)
  : result (list call * PaymentSplit) :=
  require (0 <? amount) "Amount must be > 0" ;;
  product ← checked_mul amount (protocolFeeBps s) ;
  let feeAmount := product / 10000 in
  merchantAmount ← checked_sub amount feeAmount ;
  mret ((if 0 <? feeAmount then [TransferFrom token sender (treasury s) feeAmount] else [])
        ++ (if 0 <? merchantAmount then [TransferFrom token sender merchant merchantAmount] else []),
        mkPaymentSplit token merchant amount merchantAmount feeAmount (keccak256 routeRef)).

(** [value] is [msg.value]. *)
Definition splitPaymentNative (value merchant : N) (routeRef : list N) (s : state)
  : result (list call * PaymentSplit) :=
  let amount := value in
  require (0 <? amount) "Amount must be > 0" ;;
  product ← checked_mul amount (protocolFeeBps s) ;
  let feeAmount := product / 10000 in
  merchantAmount ← checked_sub amount feeAmount ;
  mret ((if 0 <? feeAmount then [SendValue (treasury s) feeAmount] else [])
        ++ (if 0 <? merchantAmount then [SendValue merchant merchantAmount] else []),
        mkPaymentSplit 0 merchant amount merchantAmount feeAmount (keccak256 routeRef)).

Definition setProtocolFee (sender _bps : N) (s : state) : result state :=
  onlyOwner s sender ;;
  require (_bps <=? 1000) "Fee too high (max 10%)" ;;
  mret (mkState (owner s) _bps (commissionContract s) (treasury s)).

Definition setTreasury (sender _treasury : N) (s : state) : result state :=
  onlyOwner s sender ;;
  require (negb (_treasury =? 0)) "Invalid address" ;;
  mret (mkState (owner s) (protocolFeeBps s) (commissionContract s) _treasury).

(** [transferOwnership] and [renounceOwnership] of Ownable. *)
Definition transferOwnership (sender newOwner : N) (s : state) : result state :=
  onlyOwner s sender ;;
  require (negb (newOwner =? 0)) "OwnableInvalidOwner" ;;
  mret (mkState newOwner (protocolFeeBps s) (commissionContract s) (treasury s)).

Definition renounceOwnership (sender : N) (s : state) : result state :=
  onlyOwner s sender ;;
  mret (mkState 0 (protocolFeeBps s) (commissionContract s) (treasury s)).

(** The transactions that change the state (the three payment functions
    write no storage). *)
Inductive tx : Type :=
| SetCommissionContract (_commissionContract : N)
| SetProtocolFee (_bps : N)
| SetTreasury (_treasury : N)
| TransferOwnership (newOwner : N)
| RenounceOwnership.

Definition step (sender : N) (t : tx) (s : state) : result state :=
  match t with
  | SetCommissionContract c => setCommissionContract sender c s
  | SetProtocolFee b => setProtocolFee sender b s
  | SetTreasury t' => setTreasury sender t' s
  | TransferOwnership o => transferOwnership sender o s
  | RenounceOwnership => renounceOwnership sender s
  end.

Inductive reachable : state → Prop :=
| reachable_deploy sender tr c s :
    constructor sender tr c = Ok s → reachable s
| reachable_step sender t s s' :
    reachable s → step sender t s = Ok s' → reachable s'.

(** A splitter for examples: deployed by account 7 with the default fee
    of 30 basis points. *)
Definition deployed : state := mkState 7 30 0xC0 0x7EA.

End XsrnFeeSplitter.

(** ** [ReceiptRegistry] (contracts/ReceiptRegistry.sol, first contract) *)

Module ReceiptRegistry.
Import AccessControl.

Definition EMITTER_ROLE : N := keccak256 (ascii_bytes "EMITTER_ROLE").

Record Receipt : Type := mkReceipt {
  paymentId : N;
  payer : N;
  merchant : N;
  agent : N;
  token : N;
  amount : N;
  protocolFee : N;
  timestamp : N;
  epochId : N;
  routeRefHash : N
}.

Record state : Type := mkState {
  receipts : gmap N Receipt;
  receiptIds : list N;
  epochReceipts : gmap N (list N);
  epochTotalVolume : gmap N N;
  epochTotalFees : gmap N N;
  roles : gset (N * N)
}.

Definition zero_receipt : Receipt := mkReceipt 0 0 0 0 0 0 0 0 0 0.

Definition receipt_at (s : state) (id : N) : Receipt :=
  default zero_receipt (receipts s !! id).

Definition ids_at (s : state) (epoch : N) : list N :=
  default [] (epochReceipts s !! epoch).

Definition volume_at (s : state) (epoch : N) : N :=
  default 0 (epochTotalVolume s !! epoch).

Definition fees_at (s : state) (epoch : N) : N :=
  default 0 (epochTotalFees s !! epoch).

Definition constructor (_admin : N) : state :=
  mkState ∅ [] ∅ ∅ ∅
          (_grantRole (_grantRole ∅ DEFAULT_ADMIN_ROLE _admin) EMITTER_ROLE _admin).

Definition recordReceipt
    (now sender _paymentId _payer _merchant _agent _token _amount _protocolFee _epochId
       _routeRefHash : N) (s : state) : result state :=
  onlyRole (roles s) EMITTER_ROLE sender ;;
  require (timestamp (receipt_at s _paymentId) =? 0) "Receipt already exists" ;;
  let stored :=
    mkReceipt _paymentId _payer _merchant _agent _token _amount _protocolFee now _epochId
              _routeRefHash in
  volume ← checked_add (volume_at s _epochId) _amount ;
  fees ← checked_add (fees_at s _epochId) _protocolFee ;
  mret (mkState (<[_paymentId := stored]> (receipts s))
                (receiptIds s ++ [_paymentId])
                (<[_epochId := ids_at s _epochId ++ [_paymentId]]> (epochReceipts s))
                (<[_epochId := volume]> (epochTotalVolume s))
                (<[_epochId := fees]> (epochTotalFees s))
                (roles s)).

Definition getReceipt (s : state) (id : N) : Receipt := receipt_at s id.

Definition getEpochReceiptIds (s : state) (epoch : N) : list N := ids_at s epoch.

Definition getEpochStats (s : state) (epoch : N) : N * N * N :=
  (N.of_nat (length (ids_at s epoch)), volume_at s epoch, fees_at s epoch).

Definition getTotalReceipts (s : state) : N := N.of_nat (length (receiptIds s)).

Definition set_roles (s : state) (rs : gset (N * N)) : state :=
  mkState (receipts s) (receiptIds s) (epochReceipts s) (epochTotalVolume s)
          (epochTotalFees s) rs.

Inductive tx : Type :=
| RecordReceipt (_paymentId _payer _merchant _agent _token _amount _protocolFee _epochId
                   _routeRefHash : N)
| GrantRole (role account : N)
| RevokeRole (role account : N)
| RenounceRole (role callerConfirmation : N).

Definition step (now sender : N) (t : tx) (s : state) : result state :=
  match t with
  | RecordReceipt i p m a t v f e h => recordReceipt now sender i p m a t v f e h s
  | GrantRole role account => set_roles s <$> grantRole sender role account (roles s)
  | RevokeRole role account => set_roles s <$> revokeRole sender role account (roles s)
  | RenounceRole role c => set_roles s <$> renounceRole sender role c (roles s)
  end.

(** Block timestamps are positive: a transaction runs at [now > 0]. *)
Inductive reachable : state → Prop :=
| reachable_deploy admin : reachable (constructor admin)
| reachable_step now sender t s s' :
    reachable s → 0 < now → step now sender t s = Ok s' → reachable s'.

Fixpoint run (txs : list (N * N * tx)) (s : state) : state :=
  match txs with
  | [] => s
  | (now, sender, t) :: rest =>
      match step now sender t s with
      | Ok s' => run rest s'
      | Err _ => run rest s
      end
  end.

Definition amounts_of (s : state) (ids : list N) : list N :=
  map (fun id => amount (receipt_at s id)) ids.

Definition fees_of (s : state) (ids : list N) : list N :=
  map (fun id => protocolFee (receipt_at s id)) ids.

(** What every reachable state satisfies: the receipts listed for an
    epoch are recorded, belong to it and are listed once, and the two
    running totals of the epoch are the sums over them. *)
Definition inv (s : state) : Prop :=
  ∀ epoch,
    (∀ id, id ∈ ids_at s epoch →
           timestamp (receipt_at s id) ≠ 0 ∧ epochId (receipt_at s id) = epoch)
    ∧ NoDup (ids_at s epoch)
    ∧ volume_at s epoch = sum_list (amounts_of s (ids_at s epoch))
    ∧ fees_at s epoch = sum_list (fees_of s (ids_at s epoch)).

(** A registry for examples: deployed by account 7, which recorded one
    receipt of 1000 with a fee of 3 for epoch 1 at time 50. *)
Definition one_receipt : state :=
  run [ (50, 7, RecordReceipt 0xAB 0x1 0x2 0x3 0x70 1000 3 1 0xEF) ] (constructor 7).

End ReceiptRegistry.

(** ** [XsrnSessionManager]: session keys with a single and a daily limit

    The signature check calls OpenZeppelin's [ECDSA.recover], which is
    elliptic-curve arithmetic outside this development: it is a parameter
    of the model, and every statement holds for whatever it returns.
    [nonReentrant] guards against a call back from the token, which is
    external here, so it never fires and is left out. *)

Module XsrnSessionManager.

Record Session : Type := mkSession {
  signer : N;
  owner : N;
  singleLimit : N;
  dailyLimit : N;
  usedToday : N;
  expiry : N;
  lastResetDate : N;
  isActive : bool
}.

(** [_owner] is the owner of OpenZeppelin's Ownable. *)
Record state : Type := mkState {
  _owner : N;
  sessions : gmap N Session;
  userSessions : gmap N (list N);
  usdcToken : N;
  relayer : N
}.

Definition zero_session : Session := mkSession 0 0 0 0 0 0 0 false.

Definition session_at (s : state) (sessionId : N) : Session :=
  default zero_session (sessions s !! sessionId).

Definition sessions_of (s : state) (user : N) : list N :=
  default [] (userSessions s !! user).

Definition set_session (s : state) (sessionId : N) (x : Session) : state :=
  mkState (_owner s) (<[sessionId := x]> (sessions s)) (userSessions s)
          (usdcToken s) (relayer s).

Definition set_owner (s : state) (o : N) : state :=
  mkState o (sessions s) (userSessions s) (usdcToken s) (relayer s).

Definition ONE_DAY : N := 86400.

Definition constructor (sender _usdcToken : N) : result state :=
  require (negb (sender =? 0)) "OwnableInvalidOwner" ;;
  mret (mkState sender ∅ ∅ _usdcToken 0).

Definition onlyOwner (s : state) (sender : N) : result unit :=
  require (sender =? _owner s) "OwnableUnauthorizedAccount".

Definition setRelayer (sender _relayer : N) (s : state) : result state :=
  onlyOwner s sender ;;
  mret (mkState (_owner s) (sessions s) (userSessions s) (usdcToken s) _relayer).

Definition transferOwnership (sender newOwner : N) (s : state) : result state :=
  onlyOwner s sender ;;
  require (negb (newOwner =? 0)) "OwnableInvalidOwner" ;;
  mret (set_owner s newOwner).

Definition renounceOwnership (sender : N) (s : state) : result state :=
  onlyOwner s sender ;;
  mret (set_owner s 0).

(** [keccak256(abi.encodePacked(msg.sender, signer, block.timestamp,
    block.number))]. *)
Definition session_id (sender _signer now blockNumber : N) : N :=
  keccak256 (be_bytes 20 sender ++ be_bytes 20 _signer
             ++ be_bytes 32 now ++ be_bytes 32 blockNumber).

Definition createSession
    (now blockNumber sender _signer _singleLimit _dailyLimit _expiry : N) (s : state)
  : result (N * state) :=
  require (negb (_signer =? 0)) "Invalid signer" ;;
  require (now <? _expiry) "Invalid expiry" ;;
  require (_singleLimit <=? _dailyLimit) "Daily limit must be >= single limit" ;;
  let sessionId := session_id sender _signer now blockNumber in
  let x := mkSession _signer sender _singleLimit _dailyLimit 0 _expiry (now / ONE_DAY) true in
  mret (sessionId,
        mkState (_owner s) (<[sessionId := x]> (sessions s))
                (<[sender := sessions_of s sender ++ [sessionId]]> (userSessions s))
                (usdcToken s) (relayer s)).

Definition revokeSession (sender sessionId : N) (s : state) : result state :=
  let x := session_at s sessionId in
  require (owner x =? sender) "Not session owner" ;;
  require (isActive x) "Session not active" ;;
  mret (set_session s sessionId
          (mkSession (signer x) (owner x) (singleLimit x) (dailyLimit x) (usedToday x)
                     (expiry x) (lastResetDate x) false)).

(** The session as [executeWithSession] sees it after its first step:
    on a later day than the last reset the usage starts again at zero. *)
Definition reset_daily (x : Session) (currentDate : N) : Session :=
  if lastResetDate x <? currentDate
  then mkSession (signer x) (owner x) (singleLimit x) (dailyLimit x) 0
                 (expiry x) currentDate (isActive x)
  else x.

(** The hash the session key signs: the EIP-191 prefix followed by
    [keccak256(abi.encodePacked(sessionId, to, amount, paymentId,
    block.chainid))]. *)
Definition message_hash (chainid sessionId to amount paymentId : N) : N :=
  keccak256 ([25] ++ ascii_bytes "Ethereum Signed Message:" ++ [10] ++ ascii_bytes "32"
             ++ be_bytes 32 (keccak256 (be_bytes 32 sessionId ++ be_bytes 20 to
                                        ++ be_bytes 32 amount ++ be_bytes 32 paymentId
                                        ++ be_bytes 32 chainid))).

Section WithRecover.

(** [ECDSA.recover]: the signer's address, or a revert on a malformed
    signature. *)
Variable recover : N → list N → result N.

Definition executeWithSession
    (now chainid sender sessionId to amount paymentId : N) (signature : list N) (s : state)
  : result (state * list call) :=
  require (sender =? relayer s) "Only relayer" ;;
  require (isActive (session_at s sessionId)) "Session not active" ;;
  require (now <? expiry (session_at s sessionId)) "Session expired" ;;
  let currentDate := now / ONE_DAY in
  let session := reset_daily (session_at s sessionId) currentDate in
  require (amount <=? singleLimit session) "Exceeds single limit" ;;
  total ← checked_add (usedToday session) amount ;
  require (total <=? dailyLimit session) "Exceeds daily limit" ;;
  recoveredSigner ← recover (message_hash chainid sessionId to amount paymentId) signature ;
  require (recoveredSigner =? signer session) "Invalid signature" ;;
  used ← checked_add (usedToday session) amount ;
  mret (set_session s sessionId
          (mkSession (signer session) (owner session) (singleLimit session)
                     (dailyLimit session) used (expiry session) (lastResetDate session)
                     (isActive session)),
        [TransferFrom (usdcToken s) (owner session) to amount]).

Definition getUserSessions (s : state) (user : N) : list N := sessions_of s user.

Definition getSession (s : state) (sessionId : N) : Session := session_at s sessionId.

Inductive tx : Type :=
| SetRelayer (_relayer : N)
| CreateSession (_signer _singleLimit _dailyLimit _expiry : N)
| RevokeSession (sessionId : N)
| ExecuteWithSession (sessionId to amount paymentId : N) (signature : list N)
| TransferOwnership (newOwner : N)
| RenounceOwnership.

(** The block a transaction runs in and who sent it. *)
Record env : Type := mkEnv { now : N; blockNumber : N; chainid : N; sender : N }.

Definition step (e : env) (t : tx) (s : state) : result (state * list call) :=
  match t with
  | SetRelayer r => (fun s' => (s', [])) <$> setRelayer (sender e) r s
  | CreateSession sg sl dl ex =>
      (fun r : N * state => (r.2, []))
        <$> createSession (now e) (blockNumber e) (sender e) sg sl dl ex s
  | RevokeSession i => (fun s' => (s', [])) <$> revokeSession (sender e) i s
  | ExecuteWithSession i to a p sig =>
      executeWithSession (now e) (chainid e) (sender e) i to a p sig s
  | TransferOwnership o => (fun s' => (s', [])) <$> transferOwnership (sender e) o s
  | RenounceOwnership => (fun s' => (s', [])) <$> renounceOwnership (sender e) s
  end.

Inductive reachable : state → Prop :=
| reachable_deploy deployer tok s :
    constructor deployer tok = Ok s → reachable s
| reachable_step e t s s' calls :
    reachable s → step e t s = Ok (s', calls) → reachable s'.

(** A sequence of transactions; a reverted one leaves the state as it
    was and issues no call. *)
Fixpoint run (txs : list (env * tx)) (s : state) : state * list call :=
  match txs with
  | [] => (s, [])
  | (e, t) :: rest =>
      match step e t s with
      | Ok (s', calls) => let r := run rest s' in (r.1, calls ++ r.2)
      | Err _ => run rest s
      end
  end.

(** A payment through session [sessionId] sent on day [day]. *)
Definition pays_on (sessionId day : N) (et : env * tx) : Prop :=
  now et.1 / ONE_DAY = day
  ∧ ∃ to amount paymentId signature,
      et.2 = ExecuteWithSession sessionId to amount paymentId signature.

End WithRecover.

(** A stand-in for [ECDSA.recover] in examples: every signature is taken
    to be one of key 0xE1. *)
Definition recover_E1 (hash : N) (signature : list N) : result N := Ok 0xE1.

(** A manager for examples: deployed by account 7 for token 0x70, which
    names relayer 0x9E; account 0xA1 then opens a session for key 0xE1
    at time 1000 in block 5, with 100 per payment and 250 per day, valid
    until time 200000. *)
Definition fresh : state := mkState 7 ∅ ∅ 0x70 0.

Definition demo_session : N := session_id 0xA1 0xE1 1000 5.

Definition deployed : state :=
  (run recover_E1
       [ (mkEnv 500 4 56 7, SetRelayer 0x9E);
         (mkEnv 1000 5 56 0xA1, CreateSession 0xE1 100 250 200000) ] fresh).1.

(** Three payments of 100 sent by the relayer on day 1. *)
Definition three_payments : list (env * tx) :=
  [ (mkEnv 90000 6 56 0x9E, ExecuteWithSession demo_session 0xB0B 100 1 []);
    (mkEnv 90001 6 56 0x9E, ExecuteWithSession demo_session 0xB0B 100 2 []);
    (mkEnv 90002 6 56 0x9E, ExecuteWithSession demo_session 0xB0B 100 3 []) ].

End XsrnSessionManager.

(** ** The event indexer of the settlement service ([EventIndexer])

    [indexEpoch] reads two lists of logs from the chain and aggregates
    them; the lists are its inputs here. A JavaScript [bigint] is an
    integer in [Z], a [Map] with string keys a finite map. The test
    [Number(args.epochId) !== epochId] goes through a floating-point
    number; it is a parameter of the model. The [receipts] field of the
    result, which holds dates, is left out. *)

Module EventIndexer.

Local Open Scope Z_scope.

(** What [queryFilter] returns: a decoded [EventLog] or a plain [Log]. *)
Inductive event (A : Type) : Type :=
| Log
| EventLog (args : A) (transactionHash : string) (blockNumber : Z).
Arguments Log {A}.
Arguments EventLog {A} args transactionHash blockNumber.

(** The arguments of the [PaymentSplit] event of the fee splitter. *)
Record PaymentSplitArgs : Type := mkPaymentSplitArgs {
  a_token : string;
  a_merchant : string;
  a_totalAmount : Z;
  a_commissionAmount : Z;
  a_protocolFeeAmount : Z;
  a_routeRefHash : string
}.

Record PaymentSplitEvent : Type := mkPaymentSplitEvent {
  token : string;
  merchant : string;
  totalAmount : Z;
  commissionAmount : Z;
  protocolFeeAmount : Z;
  routeRefHash : string;
  txHash : string;
  blockNumber : Z
}.

(** The arguments of the [ReceiptCreated] event of the receipt registry. *)
Record ReceiptCreatedArgs : Type := mkReceiptCreatedArgs {
  r_paymentId : string;
  r_payer : string;
  r_merchant : string;
  r_agent : string;
  r_token : string;
  r_amount : Z;
  r_protocolFee : Z;
  r_timestamp : Z;
  r_epochId : Z;
  r_routeRefHash : string
}.

Record IndexedData : Type := mkIndexedData {
  paymentEvents : list PaymentSplitEvent;
  agentVolumes : gmap string Z;
  merchantVolumes : gmap string Z;
  totalVolume : Z;
  totalFees : Z
}.

Definition ZeroAddress : string := "0x0000000000000000000000000000000000000000".

(** [m.get(k) || BigInt(0)]. *)
Definition get_or_zero (m : gmap string Z) (k : string) : Z := default 0 (m !! k).

(** One round of the loop over the [PaymentSplit] events. *)
Definition payment_step (acc : list PaymentSplitEvent * gmap string Z * Z * Z)
    (ev : event PaymentSplitArgs) : list PaymentSplitEvent * gmap string Z * Z * Z :=
  match ev with
  | Log => acc
  | EventLog args transactionHash blockNumber =>
      let '(paymentEvents, merchantVolumes, totalVolume, totalFees) := acc in
      let paymentEvent :=
        mkPaymentSplitEvent (a_token args) (a_merchant args) (a_totalAmount args)
                            (a_commissionAmount args) (a_protocolFeeAmount args)
                            (a_routeRefHash args) transactionHash blockNumber in
      let currentMerchantVolume := get_or_zero merchantVolumes (a_merchant args) in
      (paymentEvents ++ [paymentEvent],
       <[a_merchant args := currentMerchantVolume + a_totalAmount args]> merchantVolumes,
       totalVolume + totalAmount paymentEvent,
       totalFees + protocolFeeAmount paymentEvent)
  end.

Section WithNumber.

(** [Number(args.epochId) === epochId] for the epoch being indexed. *)
Variable same_epoch : Z → bool.

(** One round of the loop over the [ReceiptCreated] events. *)
Definition receipt_step (agentVolumes : gmap string Z) (ev : event ReceiptCreatedArgs)
  : gmap string Z :=
  match ev with
  | Log => agentVolumes
  | EventLog args _ _ =>
      if negb (same_epoch (r_epochId args)) then agentVolumes
      else if bool_decide (r_agent args ≠ ZeroAddress) then
        let currentAgentVolume := get_or_zero agentVolumes (r_agent args) in
        <[r_agent args := currentAgentVolume + r_amount args]> agentVolumes
      else agentVolumes
  end.

Definition indexEpoch (events : list (event PaymentSplitArgs))
    (receiptEvents : list (event ReceiptCreatedArgs)) : IndexedData :=
  let '(paymentEvents, merchantVolumes, totalVolume, totalFees) :=
    fold_left payment_step events ([], ∅, 0, 0) in
  let agentVolumes := fold_left receipt_step receiptEvents ∅ in
  mkIndexedData paymentEvents agentVolumes merchantVolumes totalVolume totalFees.

End WithNumber.

(** [bigint] division rounds towards zero. *)
Definition calculateRewardDistribution (data : IndexedData) : gmap string Z :=
  map_fold (fun agent volume distribution =>
              let reward := (volume * 10) ÷ 100 in
              <[agent := reward]> distribution)
           ∅ (agentVolumes data).

(** The sum of the values of a map. *)
Definition map_sum (m : gmap string Z) : Z := map_fold (fun _ v acc => v + acc) 0 m.

(** The amount a receipt adds to the volume of its agent: its own when
    it passes the epoch test and names an agent, nothing otherwise. *)
Definition counted (same_epoch : Z → bool) (ev : event ReceiptCreatedArgs) : Z :=
  match ev with
  | Log => 0
  | EventLog args _ _ =>
      if same_epoch (r_epochId args) && bool_decide (r_agent args ≠ ZeroAddress)
      then r_amount args else 0
  end.

(** Logs for examples: two payments to one merchant and a plain log;
    receipts for two agents in epoch 1, one receipt of another epoch and
    one without agent. *)
Definition demo_payments : list (event PaymentSplitArgs) :=
  [ EventLog (mkPaymentSplitArgs "0x70" "0xM1" 1000 997 3 "0xEF") "0xT1" 10;
    Log;
    EventLog (mkPaymentSplitArgs "0x70" "0xM1" 500 499 1 "0xEF") "0xT2" 11 ].

Definition demo_receipts : list (event ReceiptCreatedArgs) :=
  [ EventLog (mkReceiptCreatedArgs "0x01" "0xP" "0xM1" "0xA1" "0x70" 1005 3 50 1 "0xEF") "0xT1" 10;
    EventLog (mkReceiptCreatedArgs "0x02" "0xP" "0xM1" "0xA2" "0x70" 99 0 51 1 "0xEF") "0xT2" 11;
    EventLog (mkReceiptCreatedArgs "0x03" "0xP" "0xM1" "0xA1" "0x70" 7 0 52 2 "0xEF") "0xT3" 12;
    EventLog (mkReceiptCreatedArgs "0x04" "0xP" "0xM1" ZeroAddress "0x70" 8 0 53 1 "0xEF")
             "0xT4" 13;
    EventLog (mkReceiptCreatedArgs "0x05" "0xP" "0xM1" "0xA1" "0x70" 1000 3 54 1 "0xEF") "0xT5" 14 ].

End EventIndexer.

(** * Properties *)

(** ** The hash against published vectors *)

Example keccak256_empty :
  keccak256 [] = 0xc5d2460186f7233c927e7db2dcc703c0e500b653ca82273b7bfad8045d85a470.
Proof. vm_compute. reflexivity. Qed.

Example keccak256_abc :
  keccak256 (ascii_bytes "abc")
  = 0x4e03657aea45a94fc7d47ba826c8d667c0d1e6e33a64a036ec44f58fa12d6c45.
Proof. vm_compute. reflexivity. Qed.

Example keccak256_zero_word :
  keccak256 (be_bytes 32 0)
  = 0x290decd9548b62a8d60345a988386fc84ba6bc95484008f6362f93160ef3e563.
Proof. vm_compute. reflexivity. Qed.

Example keccak256_two_zero_words :
  keccak256 (be_bytes 32 0 ++ be_bytes 32 0)
  = 0xad3228b676f7d3cd4284a5443f17f1962b36e491b30a40b2405849e597ba5fb5.
Proof. vm_compute. reflexivity. Qed.

Example keccak256_operator_role :
  EpochManager.OPERATOR_ROLE
  = 0x97667070c54ef182b0f5858b034beac1b6f3089aa2d3188bb1e8929f4fa9b929.
Proof. vm_compute. reflexivity. Qed.

(** ** Reverts and checked arithmetic *)

Lemma bind_Ok {A B} (m : result A) (f : A → result B) (b : B) :
  m ≫= f = Ok b ↔ ∃ a, m = Ok a ∧ f a = Ok b.
Proof.
  destruct m as [a|e]; simpl; split.
  - intros H. exists a. auto.
  - intros (a' & Ha & Hf). congruence.
  - discriminate.
  - intros (a' & Ha & _). discriminate.
Qed.

Lemma require_Ok (c : bool) (reason : string) (u : unit) :
  require c reason = Ok u ↔ c = true.
Proof. destruct c, u; simpl; split; congruence. Qed.


Lemma require_false (reason : string) : require false reason = Err (Revert reason).
Proof. reflexivity. Qed.

Lemma checked_add_Ok (a b c : N) :
  checked_add a b = Ok c ↔ a + b <= MAX_UINT256 ∧ c = a + b.
Proof.
  unfold checked_add. destruct (N.leb_spec (a + b) MAX_UINT256); split.
  - intros [= <-]. auto.
  - intros [_ ->]. reflexivity.
  - discriminate.
  - intros [? _]. lia.
Qed.

Lemma checked_add_fits (a b : N) :
  a + b <= MAX_UINT256 → checked_add a b = Ok (a + b).
Proof. intros H. apply checked_add_Ok. auto. Qed.

Lemma checked_mul_fits (a b : N) :
  a * b <= MAX_UINT256 → checked_mul a b = Ok (a * b).
Proof. unfold checked_mul. intros H. apply N.leb_le in H. rewrite H. reflexivity. Qed.

Lemma checked_sub_fits (a b : N) :
  b <= a → checked_sub a b = Ok (a - b).
Proof. unfold checked_sub. intros H. apply N.leb_le in H. rewrite H. reflexivity. Qed.

Lemma is_ok_false {A} (r : result A) : is_ok r = false ↔ ∃ e, r = Err e.
Proof.
  destruct r; simpl; split; try discriminate; eauto.
  intros [e' H]. discriminate.
Qed.

Lemma fmap_Ok {A B} (f : A → B) (m : result A) (b : B) :
  f <$> m = Ok b ↔ ∃ a, m = Ok a ∧ b = f a.
Proof.
  destruct m as [a|e]; simpl; split.
  - intros [= <-]. eauto.
  - intros (a' & [= <-] & ->). reflexivity.
  - discriminate.
  - intros (a' & Ha & _). discriminate.
Qed.

Lemma mret_Ok {A} (a b : A) : (mret a : result A) = Ok b → a = b.
Proof. intros [= ->]. reflexivity. Qed.

(** Break a successful transaction into the checks it passed. *)
Ltac ok_inv H :=
  repeat match type of H with
         | _ ≫= _ = Ok _ =>
             let x := fresh "x" in
             let Hx := fresh "Hx" in
             apply bind_Ok in H; destruct H as (x & Hx & H);
             try (apply require_Ok in Hx);
             try (apply checked_add_Ok in Hx; destruct Hx as [? ->])
         | _ <$> _ = Ok _ =>
             let x := fresh "x" in
             let Hx := fresh "Hx" in
             apply fmap_Ok in H; destruct H as (x & Hx & H)
         | mret _ = Ok _ => apply mret_Ok in H
         | Ok _ = Ok _ => apply mret_Ok in H
         end.

(** ** The epoch state machine *)

Module EpochManagerFacts.
Import AccessControl EpochManager.

Lemma epoch_at_set_epoch (s : state) (i j : N) (e : Epoch) :
  epoch_at (set_epoch s i e) j = if decide (i = j) then e else epoch_at s j.
Proof.
  unfold epoch_at, set_epoch; simpl. rewrite lookup_insert.
  destruct (decide (i = j)); reflexivity.
Qed.

Lemma epoch_constructor_inv (now admin : N) (s : state) :
  constructor now admin = Ok s → inv s.
Proof.
  unfold constructor. intros H. ok_inv H. subst s.
  unfold inv, epoch_at; simpl. repeat split.
  - lia.
  - intros i Hi. apply lookup_singleton_ne. lia.
  - intros i. destruct (decide (i = 1)) as [->|Hne].
    + rewrite lookup_singleton_eq. discriminate.
    + rewrite lookup_singleton_ne by congruence. discriminate.
  - intros i Hi. lia.
Qed.

Lemma advanceEpoch_inv (now : N) (s s' : state) :
  inv s → advanceEpoch now s = Ok s' → inv s'.
Proof.
  intros (Hpos & Hfresh & Hroot & Hpast) H. unfold advanceEpoch in H. ok_inv H.
  subst s'. unfold inv, epoch_at in *; simpl in *.
  set (c := currentEpochId s) in *.
  repeat split.
  - lia.
  - intros i Hi. rewrite lookup_insert_ne by lia. apply Hfresh. lia.
  - intros i. destruct (decide (c + 1 = i)) as [<-|Hne].
    + rewrite lookup_insert_eq. discriminate.
    + rewrite lookup_insert_ne by done. apply Hroot.
  - intros i Hi. rewrite lookup_insert_ne by lia.
    destruct (decide (i = c)) as [->|Hne]; [done|]. apply Hpast. lia.
Qed.

Lemma finalizeEpoch_inv (sender epochId root rewards : N) (s s' : state) :
  inv s → finalizeEpoch sender epochId root rewards s = Ok s' → inv s'.
Proof.
  intros (Hpos & Hfresh & Hroot & Hpast) H. unfold finalizeEpoch in H. ok_inv H.
  subst s'. apply N.leb_le in Hx0. apply negb_true_iff, N.eqb_neq in Hx2.
  unfold inv. repeat split; simpl.
  - done.
  - intros i Hi. rewrite lookup_insert_ne by lia. apply Hfresh, Hi.
  - intros i. rewrite epoch_at_set_epoch.
    destruct (decide (epochId = i)); simpl; [intros _; done | apply Hroot].
  - intros i Hi. rewrite epoch_at_set_epoch.
    destruct (decide (epochId = i)); simpl; [done | apply Hpast, Hi].
Qed.

Lemma epoch_step_inv (now sender : N) (t : tx) (s s' : state) :
  inv s → step now sender t s = Ok s' → inv s'.
Proof.
  intros Hinv H. destruct t; simpl in H.
  - eapply advanceEpoch_inv; eauto.
  - eapply finalizeEpoch_inv; eauto.
  - unfold setEpochDuration in H. ok_inv H. subst s'. exact Hinv.
  - ok_inv H. subst s'. exact Hinv.
  - ok_inv H. subst s'. exact Hinv.
  - ok_inv H. subst s'. exact Hinv.
Qed.

Lemma epoch_reachable_inv (s : state) : reachable s → inv s.
Proof.
  induction 1 as [now admin s H | now sender t s s' _ IH H].
  - eapply epoch_constructor_inv; eauto.
  - eapply epoch_step_inv; eauto.
Qed.

(** Once finalized, always finalized, and with the same root. *)
Lemma step_keeps_finalized (now sender : N) (t : tx) (s s' : state) (i : N) :
  inv s → step now sender t s = Ok s' →
  finalized (epoch_at s i) = true →
  epoch_at s' i = epoch_at s i.
Proof.
  intros (Hpos & Hfresh & Hroot & Hpast) H Hfin. destruct t; simpl in H.
  - unfold advanceEpoch in H. ok_inv H. subst s'.
    unfold epoch_at in *; simpl.
    destruct (decide (currentEpochId s + 1 = i)) as [<-|Hne].
    + rewrite Hfresh in Hfin by lia. discriminate.
    + rewrite lookup_insert_ne by done. reflexivity.
  - unfold finalizeEpoch in H. ok_inv H. subst s'.
    rewrite epoch_at_set_epoch. destruct (decide (epochId = i)) as [->|]; [|done].
    rewrite Hfin in Hx1. discriminate.
  - unfold setEpochDuration in H. ok_inv H. subst s'. reflexivity.
  - ok_inv H. subst s'. reflexivity.
  - ok_inv H. subst s'. reflexivity.
  - ok_inv H. subst s'. reflexivity.
Qed.

Lemma run_keeps_finalized (txs : list (N * N * tx)) (s : state) (i : N) :
  inv s → finalized (epoch_at s i) = true →
  inv (run txs s) ∧ epoch_at (run txs s) i = epoch_at s i.
Proof.
  revert s. induction txs as [|[[now sender] t] rest IH]; intros s Hinv Hfin; simpl.
  - auto.
  - destruct (step now sender t s) as [s'|e] eqn:Hstep.
    + assert (Hs' : epoch_at s' i = epoch_at s i) by (eapply step_keeps_finalized; eauto).
      destruct (IH s') as [Hi He].
      * eapply epoch_step_inv; eauto.
      * rewrite Hs'. exact Hfin.
      * split; [exact Hi | congruence].
    + apply IH; auto.
Qed.

Lemma finalizeEpoch_finalizes (sender epochId root rewards : N) (s s' : state) :
  finalizeEpoch sender epochId root rewards s = Ok s' →
  finalized (epoch_at s' epochId) = true ∧ merkleRoot (epoch_at s' epochId) = root.
Proof.
  intros H. unfold finalizeEpoch in H. ok_inv H. subst s'.
  rewrite epoch_at_set_epoch. destruct (decide (epochId = epochId)); [|done]. auto.
Qed.

Lemma finalizeEpoch_finalized_fails (sender epochId root rewards : N) (s : state) :
  finalized (epoch_at s epochId) = true →
  is_ok (finalizeEpoch sender epochId root rewards s) = false.
Proof.
  intros Hfin. unfold finalizeEpoch, onlyRole.
  destruct (hasRole _ _ _); [|reflexivity]. simpl.
  destruct (epochId <=? currentEpochId s); [|reflexivity]. simpl.
  rewrite Hfin. reflexivity.
Qed.

End EpochManagerFacts.

Module EpochManagerSpec.
Import AccessControl EpochManager EpochManagerFacts.

Lemma epoch_run_reachable (txs : list (N * N * tx)) (s : state) :
  reachable s → reachable (run txs s).
Proof.
  revert s. induction txs as [|[[now sender] t] rest IH]; intros s Hs; simpl.
  - exact Hs.
  - destruct (step now sender t s) as [s'|e] eqn:Hstep.
    + apply IH. eapply reachable_step; eauto.
    + apply IH, Hs.
Qed.

(** C3. In every reachable state of the epoch manager: [advanceEpoch]
    reverts whenever the current epoch is not finalized, whatever the
    time (with "Current epoch not ended" before the end time and with
    "Current epoch not finalized yet" from the end time on); [finalizeEpoch]
    on a finalized epoch reverts for every caller, root and reward total
    (with "Already finalized" for an operator), and keeps reverting after
    any further transactions; [finalizeEpoch] reverts on the zero root
    and on an epoch id above the current one (with "Invalid merkle root"
    and "Invalid epoch" for an operator). *)
Theorem epoch_ordering (s : state) :
  reachable s →
  (finalized (getCurrentEpoch s) = false →
   ∀ now,
     advanceEpoch now s
     = Err (Revert (if canAdvanceEpoch now s
                    then "Current epoch not finalized yet"
                    else "Current epoch not ended")))
  ∧ (∀ epochId, finalized (epoch_at s epochId) = true →
     ∀ sender root rewards,
       is_ok (finalizeEpoch sender epochId root rewards s) = false
       ∧ (hasRole (roles s) OPERATOR_ROLE sender = true →
          finalizeEpoch sender epochId root rewards s = Err (Revert "Already finalized")))
  ∧ (∀ sender epochId root rewards s1,
       finalizeEpoch sender epochId root rewards s = Ok s1 →
       ∀ txs sender' root' rewards',
         is_ok (finalizeEpoch sender' epochId root' rewards' (run txs s1)) = false)
  ∧ (∀ sender epochId rewards,
       is_ok (finalizeEpoch sender epochId ZERO_HASH rewards s) = false
       ∧ (hasRole (roles s) OPERATOR_ROLE sender = true →
          epochId <= currentEpochId s → finalized (epoch_at s epochId) = false →
          finalizeEpoch sender epochId ZERO_HASH rewards s = Err (Revert "Invalid merkle root")))
  ∧ (∀ sender epochId root rewards, currentEpochId s < epochId →
       is_ok (finalizeEpoch sender epochId root rewards s) = false
       ∧ (hasRole (roles s) OPERATOR_ROLE sender = true →
          finalizeEpoch sender epochId root rewards s = Err (Revert "Invalid epoch"))).
Proof.
  intros Hreach. pose proof (epoch_reachable_inv s Hreach) as Hinv.
  split; [|split; [|split; [|split]]].
  - unfold getCurrentEpoch. intros Hfin now. unfold advanceEpoch.
    destruct (canAdvanceEpoch now s); simpl; [rewrite Hfin|]; reflexivity.
  - intros epochId Hfin sender root rewards.
    split; [apply finalizeEpoch_finalized_fails, Hfin|].
    intros Hop. unfold finalizeEpoch, onlyRole. rewrite Hop. simpl.
    destruct Hinv as (_ & Hfresh & _ & _).
    destruct (N.leb_spec epochId (currentEpochId s)) as [Hle|Hgt]; simpl.
    + rewrite Hfin. reflexivity.
    + unfold epoch_at in Hfin. rewrite (Hfresh _ Hgt) in Hfin. discriminate.
  - intros sender epochId root rewards s1 Hfin txs sender' root' rewards'.
    apply finalizeEpoch_finalized_fails.
    pose proof (finalizeEpoch_finalizes _ _ _ _ _ _ Hfin) as [Hf _].
    assert (Hinv1 : inv s1) by (eapply finalizeEpoch_inv; eauto).
    destruct (run_keeps_finalized txs s1 epochId Hinv1 Hf) as [_ ->]. exact Hf.
  - intros sender epochId rewards. split.
    + unfold finalizeEpoch, onlyRole.
      destruct (hasRole _ _ _); [|reflexivity]. simpl.
      destruct (epochId <=? currentEpochId s); [|reflexivity]. simpl.
      destruct (finalized (epoch_at s epochId)); reflexivity.
    + intros Hop Hle Hfin. unfold finalizeEpoch, onlyRole. rewrite Hop. simpl.
      apply N.leb_le in Hle. rewrite Hle. simpl. rewrite Hfin. reflexivity.
  - intros sender epochId root rewards Hgt.
    assert (Hleb : (epochId <=? currentEpochId s) = false) by (apply N.leb_gt, Hgt).
    split.
    + unfold finalizeEpoch, onlyRole.
      destruct (hasRole _ _ _); [|reflexivity]. simpl. rewrite Hleb. reflexivity.
    + intros Hop. unfold finalizeEpoch, onlyRole. rewrite Hop. simpl.
      rewrite Hleb. reflexivity.
Qed.

Lemma genesis_deployed : constructor 1000 7 = Ok genesis.
Proof. vm_compute. reflexivity. Qed.

Lemma epoch_ordering_witness :
  reachable genesis
  ∧ finalized (getCurrentEpoch genesis) = false
  ∧ ∀ now,
      advanceEpoch now genesis
      = Err (Revert (if canAdvanceEpoch now genesis
                     then "Current epoch not finalized yet"
                     else "Current epoch not ended")).
Proof.
  assert (Hr : reachable genesis) by (eapply reachable_deploy, genesis_deployed).
  split; [exact Hr|]. split; [reflexivity|].
  apply (proj1 (epoch_ordering genesis Hr)). reflexivity.
Defined.

(** C9. In every state reachable from deployment (epoch 1 active) by
    any sequence of transactions, every epoch with an id from 1 up to,
    not including, the current epoch id is finalized and has a non-zero
    merkle root. *)
Theorem past_epochs_have_roots (s : state) (i : N) :
  reachable s →
  1 <= i < currentEpochId s →
  isEpochFinalized s i = true ∧ getMerkleRoot s i ≠ ZERO_HASH.
Proof.
  intros Hreach Hi. destruct (epoch_reachable_inv s Hreach) as (_ & _ & Hroot & Hpast).
  unfold isEpochFinalized, getMerkleRoot. split.
  - apply Hpast, Hi.
  - apply Hroot, Hpast, Hi.
Qed.

Lemma past_epochs_have_roots_witness :
  reachable second_epoch
  ∧ 1 <= 1 < currentEpochId second_epoch
  ∧ isEpochFinalized second_epoch 1 = true ∧ getMerkleRoot second_epoch 1 ≠ ZERO_HASH.
Proof.
  assert (Hr : reachable second_epoch).
  { apply epoch_run_reachable. eapply reachable_deploy, genesis_deployed. }
  assert (Hi : 1 <= 1 < currentEpochId second_epoch) by (vm_compute; split; congruence).
  split; [exact Hr|]. split; [exact Hi|].
  apply (past_epochs_have_roots second_epoch 1 Hr Hi).
Defined.

End EpochManagerSpec.

(** ** The claim ledger *)

Module MerkleDistributorFacts.
Import AccessControl MerkleDistributor.

Lemma claimed_at_mark_claimed (s : state) (e t a e' t' a' : N) :
  claimed_at (mark_claimed s e t a) e' t' a'
  = if decide ((e, t, a) = (e', t', a')) then true else claimed_at s e' t' a'.
Proof.
  unfold claimed_at, mark_claimed; simpl. rewrite lookup_insert.
  destruct (decide ((e, t, a) = (e', t', a'))); reflexivity.
Qed.


Lemma claimed_at_mark_claimed_mono (s : state) (e t a e' t' a' : N) :
  claimed_at s e' t' a' = true → claimed_at (mark_claimed s e t a) e' t' a' = true.
Proof. intros H. rewrite claimed_at_mark_claimed. destruct (decide _); auto. Qed.

Lemma total_at_set_total (s : state) (a t v a' t' : N) :
  total_at (set_total s a t v) a' t'
  = if decide ((a, t) = (a', t')) then v else total_at s a' t'.
Proof.
  unfold total_at, set_total; simpl. rewrite lookup_insert.
  destruct (decide ((a, t) = (a', t'))); reflexivity.
Qed.

Lemma root_at_set_root (s : state) (e t r e' t' : N) :
  root_at (set_root s e t r) e' t'
  = if decide ((e, t) = (e', t')) then r else root_at s e' t'.
Proof.
  unfold root_at, set_root; simpl. rewrite lookup_insert.
  destruct (decide ((e, t) = (e', t'))); reflexivity.
Qed.


Lemma total_at_mark_claimed (s : state) (e t a a' t' : N) :
  total_at (mark_claimed s e t a) a' t' = total_at s a' t'.
Proof. reflexivity. Qed.



(** One turn of the loop either skips the entry or pays it. *)
Lemma claim_entry_eq (sender token : N) (entry : N * N * list N) (s : state) (acc : N) :
  claim_entry sender token entry (s, acc)
  = if eligible s sender token entry
    then (if acc + entry.1.2 <=? MAX_UINT256
          then Ok (mark_claimed s entry.1.1 token sender, acc + entry.1.2)
          else Err Panic)
    else Ok (s, acc).
Proof.
  destruct entry as [[e amount] proof]. unfold claim_entry, eligible; simpl.
  destruct (claimed_at s e token sender); simpl; [reflexivity|].
  destruct (root_at s e token =? 0); simpl; [reflexivity|].
  destruct (MerkleProof.verify _ _ _); simpl; [|reflexivity].
  unfold checked_add. destruct (acc + amount <=? MAX_UINT256); reflexivity.
Qed.

Lemma mark_all_cons (s : state) (sender token : N) (entry : N * N * list N) paid :
  mark_all s sender token (entry :: paid)
  = mark_all (mark_claimed s entry.1.1 token sender) sender token paid.
Proof. reflexivity. Qed.

(** The loop pays the entries of [paid_entries], and reverts exactly when
    their amounts no longer add up within uint256. *)
Lemma claim_loop_eq (sender token : N) (entries : list (N * N * list N)) (s : state) (acc : N) :
  acc <= MAX_UINT256 →
  claim_loop sender token entries (s, acc)
  = let paid := paid_entries s sender token entries in
    if acc + sum_list (amounts_of paid) <=? MAX_UINT256
    then Ok (mark_all s sender token paid, acc + sum_list (amounts_of paid))
    else Err Panic.
Proof.
  revert s acc. induction entries as [|entry rest IH]; intros s acc Hacc; simpl.
  - rewrite N.add_0_r. apply N.leb_le in Hacc. rewrite Hacc. reflexivity.
  - rewrite claim_entry_eq. destruct (eligible s sender token entry) eqn:Hel; simpl.
    + destruct (N.leb_spec (acc + entry.1.2) MAX_UINT256) as [Hle|Hgt]; simpl.
      * rewrite IH by exact Hle. simpl. rewrite N.add_assoc. reflexivity.
      * destruct (N.leb_spec (acc + (entry.1.2 + sum_list (amounts_of
            (paid_entries (mark_claimed s entry.1.1 token sender) sender token rest))))
            MAX_UINT256); [lia | reflexivity].
    + apply IH, Hacc.
Qed.

Lemma mark_all_extends (sender token : N) (paid : list (N * N * list N)) (s : state) :
  extends s (mark_all s sender token paid)
  ∧ totalClaimed (mark_all s sender token paid) = totalClaimed s.
Proof.
  revert s. induction paid as [|entry rest IH]; intros s.
  - unfold extends; simpl. auto.
  - rewrite mark_all_cons.
    destruct (IH (mark_claimed s entry.1.1 token sender)) as [(Ht & Hr & Hro & Hc) Htot].
    unfold extends. repeat split; try assumption.
    intros e t a H. apply Hc, claimed_at_mark_claimed_mono, H.
Qed.





Lemma entries_of_unzip (entries : list (N * N * list N)) :
  entries_of entries.*1.*1 entries.*1.*2 entries.*2 = entries.
Proof.
  unfold entries_of. induction entries as [|[[e a] p] rest IH]; simpl; [reflexivity|].
  f_equal. exact IH.
Qed.

(** [claimMultiple] in closed form. *)
Lemma claimMultiple_eq (sender token : N) (entries : list (N * N * list N)) (s : state) :
  claimMultiple sender entries.*1.*1 token entries.*1.*2 entries.*2 s
  = let paid := paid_entries s sender token entries in
    let total := sum_list (amounts_of paid) in
    let s1 := mark_all s sender token paid in
    if total =? 0 then Ok (s1, [])
    else if (total <=? MAX_UINT256) && (total_at s sender token + total <=? MAX_UINT256)
         then Ok (set_total s1 sender token (total_at s sender token + total),
                  [TransferFrom token (treasury s) sender total])
         else Err Panic.
Proof.
  unfold claimMultiple. rewrite !length_fmap, Nat.eqb_refl. simpl.
  rewrite entries_of_unzip, claim_loop_eq by (unfold MAX_UINT256; lia).
  cbv zeta. rewrite !N.add_0_l.
  set (paid := paid_entries s sender token entries).
  set (total := sum_list (amounts_of paid)).
  destruct (mark_all_extends sender token paid s) as [(Ht & _ & _ & _) Htot].
  destruct (N.leb_spec total MAX_UINT256) as [Hle|Hgt]; simpl.
  - destruct (N.eqb_spec total 0) as [H0|Hpos].
    + rewrite H0. reflexivity.
    + assert (Hlt : (0 <? total) = true) by (apply N.ltb_lt; lia).
      rewrite Hlt.
      unfold total_at at 1. rewrite Htot. fold (total_at s sender token).
      unfold checked_add. rewrite Ht.
      destruct (total_at s sender token + total <=? MAX_UINT256); reflexivity.
  - destruct (N.eqb_spec total 0) as [H0|Hpos]; [unfold MAX_UINT256 in Hgt; lia | reflexivity].
Qed.



Lemma claim_loop_Ok (sender token : N) (entries : list (N * N * list N)) (s s1 : state)
    (total : N) :
  claim_loop sender token entries (s, 0) = Ok (s1, total) →
  s1 = mark_all s sender token (paid_entries s sender token entries).
Proof.
  rewrite claim_loop_eq by (unfold MAX_UINT256; lia). cbv zeta.
  destruct (_ <=? _); [|discriminate]. intros [= <- _]. reflexivity.
Qed.

Lemma extends_refl (s : state) : extends s s.
Proof. unfold extends. auto. Qed.


Lemma root_at_set_total (s : state) (a t v e t' : N) :
  root_at (set_total s a t v) e t' = root_at s e t'.
Proof. reflexivity. Qed.





Lemma distributor_run_reachable (txs : list (N * tx)) (s : state) :
  reachable s → reachable (run txs s).
Proof.
  revert s. induction txs as [|[sender t] rest IH]; intros s Hs; simpl; [exact Hs|].
  destruct (step sender t s) as [[s' calls]|err] eqn:Hstep.
  - apply IH. eapply reachable_step; eauto.
  - apply IH, Hs.
Qed.


End MerkleDistributorFacts.

Module MerkleDistributorSpec.
Import AccessControl MerkleDistributor MerkleDistributorFacts.


Lemma funded_reachable : reachable funded.
Proof. apply distributor_run_reachable. eapply (reachable_deploy 7 0x7EA). reflexivity. Qed.




(** C10. [setMerkleRoot], called by an operator, reverts exactly when
    the root is the zero hash; with any non-zero root it succeeds whatever
    root was recorded before and whatever claims were made against it,
    records the new root in place of the old one and leaves every claimed
    flag as it was; from then on the new root alone decides [canClaim]
    and [claim] for the accounts not yet marked claimed, so that a proof
    that does not verify against the new root is rejected with "Invalid
    proof". *)
Theorem setMerkleRoot_replaces (s : state) (sender epochId token root : N) :
  hasRole (roles s) OPERATOR_ROLE sender = true →
  (root = 0 → setMerkleRoot sender epochId token root s = Err (Revert "Invalid merkle root"))
  ∧ (root ≠ 0 →
     ∃ s',
       setMerkleRoot sender epochId token root s = Ok s'
       ∧ root_at s' epochId token = root
       ∧ (∀ e t a, claimed_at s' e t a = claimed_at s e t a)
       ∧ ∀ account amount proof,
           claimed_at s epochId token account = false →
           canClaim s' epochId token account amount proof
           = MerkleProof.verify proof root (leaf_of account amount)
           ∧ (MerkleProof.verify proof root (leaf_of account amount) = false →
              claim account epochId token amount proof s' = Err (Revert "Invalid proof"))
           ∧ (MerkleProof.verify proof root (leaf_of account amount) = true →
              total_at s account token + amount <= MAX_UINT256 →
              is_ok (claim account epochId token amount proof s') = true)).
Proof.
  intros Hop. unfold setMerkleRoot, onlyRole. rewrite Hop. simpl. split.
  - intros ->. reflexivity.
  - intros Hroot. pose proof Hroot as Hneq. apply N.eqb_neq in Hneq. rewrite Hneq. simpl.
    eexists. split; [reflexivity|].
    assert (Hr : root_at (set_root s epochId token root) epochId token = root).
    { rewrite root_at_set_root, decide_True by reflexivity. reflexivity. }
    split; [exact Hr|]. split; [reflexivity|].
    intros account amount proof Hc.
    assert (Hc' : claimed_at (set_root s epochId token root) epochId token account = false)
      by exact Hc.
    split; [|split].
    + unfold canClaim. rewrite Hc', Hr, Hneq. reflexivity.
    + intros Hver. unfold claim. rewrite Hc', Hr, Hneq. simpl. rewrite Hver. reflexivity.
    + intros Hver Hfit. unfold claim. rewrite Hc', Hr, Hneq. simpl. rewrite Hver. simpl.
      assert (Ht : total_at (mark_claimed (set_root s epochId token root) epochId token account)
                     account token = total_at s account token) by reflexivity.
      rewrite Ht, checked_add_fits by exact Hfit. reflexivity.
Qed.

(** Epoch 2 of [funded] has been claimed against its first root; the
    operator replaces that root by the leaf of another account. *)
Lemma setMerkleRoot_replaces_witness :
  hasRole (roles funded) OPERATOR_ROLE 7 = true
  ∧ leaf_of 0xB2 5 ≠ 0
  ∧ root_at funded 2 0x70 = leaf_of 0xA1 200
  ∧ claimed_at funded 2 0x70 0xA1 = true
  ∧ ∃ s',
      setMerkleRoot 7 2 0x70 (leaf_of 0xB2 5) funded = Ok s'
      ∧ root_at s' 2 0x70 = leaf_of 0xB2 5
      ∧ claimed_at s' 2 0x70 0xA1 = true.
Proof.
  assert (Hop : hasRole (roles funded) OPERATOR_ROLE 7 = true) by (vm_compute; reflexivity).
  assert (Hroot : leaf_of 0xB2 5 ≠ 0) by (vm_compute; discriminate).
  split; [exact Hop|]. split; [exact Hroot|].
  split; [vm_compute; reflexivity|].
  assert (Hc : claimed_at funded 2 0x70 0xA1 = true) by (vm_compute; reflexivity).
  split; [exact Hc|].
  destruct (proj2 (setMerkleRoot_replaces funded 7 2 0x70 (leaf_of 0xB2 5) Hop) Hroot)
    as (s' & Hok & Hr & Hcl & _).
  exists s'. split; [exact Hok|]. split; [exact Hr|]. rewrite Hcl. exact Hc.
Defined.




End MerkleDistributorSpec.

(** ** The splitter and the treasury *)

Module SplitFacts.

Lemma floor_bps (total r : N) : total * r / 10000 * 10000 <= total * r.
Proof. rewrite N.mul_comm. apply N.Div0.mul_div_le. Qed.

(** With [paid] no more than the exact share of the ratios already
    handled, the remaining shares add up to what is left. *)
Lemma spec_split_shares_sum (total : N) (ratios : list N) (paid handled : N) :
  ratios ≠ [] →
  paid * 10000 <= total * handled →
  handled + sum_list ratios <= 10000 →
  paid + sum_list (spec_split_shares total ratios paid) = total.
Proof.
  revert paid handled. induction ratios as [|r rest IH]; intros paid handled Hne Hpaid Hsum.
  - congruence.
  - destruct rest as [|r' rest'].
    + simpl. assert (paid <= total) by nia. lia.
    + change (spec_split_shares total (r :: r' :: rest') paid)
        with (total * r / 10000 :: spec_split_shares total (r' :: rest') (paid + total * r / 10000)).
      cbn [sum_list fold_right]. rewrite N.add_assoc.
      apply (IH _ (handled + r)); [discriminate| |].
      * pose proof (floor_bps total r). nia.
      * cbn [sum_list fold_right] in Hsum |- *. lia.
Qed.

Lemma spec_split_shares_length (total : N) (ratios : list N) (paid : N) :
  length (spec_split_shares total ratios paid) = length ratios.
Proof.
  revert paid. induction ratios as [|r rest IH]; intros paid; [reflexivity|].
  destruct rest as [|r' rest']; [reflexivity|].
  change (spec_split_shares total (r :: r' :: rest') paid)
    with (total * r / 10000 :: spec_split_shares total (r' :: rest') (paid + total * r / 10000)).
  cbn [length]. f_equal. apply IH.
Qed.

(** Every share but the last is the floor of its ratio. *)
Lemma spec_split_shares_lookup (total : N) (ratios : list N) (paid : N) (i : nat) (r : N) :
  ratios !! i = Some r → (S i < length ratios)%nat →
  spec_split_shares total ratios paid !! i = Some (total * r / 10000).
Proof.
  revert paid i. induction ratios as [|r0 rest IH]; intros paid i Hi Hlt; [discriminate|].
  destruct rest as [|r' rest']; [simpl in Hlt; lia|].
  change (spec_split_shares total (r0 :: r' :: rest') paid)
    with (total * r0 / 10000 :: spec_split_shares total (r' :: rest') (paid + total * r0 / 10000)).
  destruct i as [|i].
  - injection Hi as ->. reflexivity.
  - simpl in Hi. cbn [length] in Hlt. rewrite lookup_cons.
    apply IH; [exact Hi | cbn [length]; lia].
Qed.

(** The last share is the total less all the shares before it. *)
Lemma spec_split_shares_last (total : N) (ratios : list N) (paid : N) :
  ratios ≠ [] →
  ∃ prior, spec_split_shares total ratios paid = prior ++ [total - (paid + sum_list prior)].
Proof.
  revert paid. induction ratios as [|r rest IH]; intros paid Hne; [congruence|].
  destruct rest as [|r' rest'].
  - exists []. simpl. rewrite N.add_0_r. reflexivity.
  - change (spec_split_shares total (r :: r' :: rest') paid)
      with (total * r / 10000 :: spec_split_shares total (r' :: rest') (paid + total * r / 10000)).
    destruct (IH (paid + total * r / 10000)) as [prior Hprior]; [discriminate|].
    exists (total * r / 10000 :: prior). rewrite Hprior. simpl.
    rewrite N.add_assoc. reflexivity.
Qed.

(** The splitter of the specification is exact for every total. *)
Lemma spec_split_exact (total : N) (ratios : list N) :
  sum_list ratios = 10000 →
  ∃ shares,
    spec_split total ratios = Some shares
    ∧ length shares = length ratios
    ∧ (∀ i r, ratios !! i = Some r → (S i < length ratios)%nat →
              shares !! i = Some (total * r / 10000))
    ∧ (∃ prior, shares = prior ++ [total - sum_list prior])
    ∧ sum_list shares = total.
Proof.
  intros Hsum. unfold spec_split. rewrite Hsum. simpl.
  assert (Hne : ratios ≠ []) by (intros ->; discriminate).
  eexists. split; [reflexivity|].
  split; [apply spec_split_shares_length|].
  split; [intros i r; apply spec_split_shares_lookup|].
  split.
  - destruct (spec_split_shares_last total ratios 0 Hne) as [prior ->].
    exists prior. rewrite N.add_0_l. reflexivity.
  - pose proof (spec_split_shares_sum total ratios 0 0 Hne) as H.
    rewrite N.add_0_l in H. apply H; lia.
Qed.

End SplitFacts.

Module XsrnTreasurySpec.
Import AccessControl XsrnTreasury SplitFacts.

Lemma _transfer_amount (token to amount : N) :
  sum_list (map call_amount (_transfer token to amount)) = amount.
Proof.
  unfold _transfer. destruct (N.eqb_spec amount 0) as [->|_]; [reflexivity|].
  destruct (token =? 0); simpl; lia.
Qed.

Lemma sum_list_app (l1 l2 : list N) : sum_list (l1 ++ l2) = sum_list l1 + sum_list l2.
Proof. induction l1 as [|x l1 IH]; simpl; [reflexivity|]. rewrite IH. lia. Qed.

(** C5, as the code has it. For every balance [total > 0] whose product
    with 4000 fits uint256, [distributeRewards], called by a distributor,
    computes the shares of the specification's splitter for the ratios
    4000, 3000, 2000, 1000 (each of the first three the floor of
    [total * ratio / 10000], the last one [total] less the first three),
    issues them as transfers to the watcher, operator, public-goods and
    security-reserve addresses in that order, leaving out a transfer whose
    amount is zero, and the transferred amounts add up to exactly
    [total]. A zero balance is rejected with "No funds to distribute". *)
Theorem distributeRewards_exact (s : state) (sender token total : N) :
  hasRole (roles s) DISTRIBUTOR_ROLE sender = true →
  (0 < total → total * WATCHER_BPS <= MAX_UINT256 →
   ∃ calls,
     distributeRewards sender token total s = Ok calls
     ∧ spec_split total [WATCHER_BPS; OPERATOR_BPS; PUBLIC_GOODS_BPS; SECURITY_RESERVE_BPS]
       = Some (distribution total)
     ∧ calls = _transfer token (watcher s) (total * 4000 / 10000)
               ++ _transfer token (operator s) (total * 3000 / 10000)
               ++ _transfer token (publicGoods s) (total * 2000 / 10000)
               ++ _transfer token (securityReserve s)
                    (total - total * 4000 / 10000 - total * 3000 / 10000 - total * 2000 / 10000)
     ∧ sum_list (distribution total) = total
     ∧ sum_list (map call_amount calls) = total)
  ∧ (total = 0 →
     distributeRewards sender token total s = Err (Revert "No funds to distribute")).
Proof.
  intros Hrole. split.
  - intros Hpos Hfit. unfold WATCHER_BPS in Hfit.
    pose proof (floor_bps total 4000) as Hw.
    pose proof (floor_bps total 3000) as Ho.
    pose proof (floor_bps total 2000) as Hp.
    set (w := total * 4000 / 10000) in *.
    set (o := total * 3000 / 10000) in *.
    set (p := total * 2000 / 10000) in *.
    assert (Hsum : w + o + p <= total) by lia.
    eexists. split; [|split; [|split; [reflexivity|split]]].
    + unfold distributeRewards, onlyRole. rewrite Hrole. simpl.
      apply N.ltb_lt in Hpos. rewrite Hpos. simpl.
      unfold WATCHER_BPS, OPERATOR_BPS, PUBLIC_GOODS_BPS.
      rewrite (checked_mul_fits total 4000) by lia. simpl.
      rewrite (checked_mul_fits total 3000) by lia. simpl.
      rewrite (checked_mul_fits total 2000) by lia. simpl.
      fold w o p.
      rewrite (checked_sub_fits total w) by lia. simpl.
      rewrite (checked_sub_fits (total - w) o) by lia. simpl.
      rewrite (checked_sub_fits (total - w - o) p) by lia. simpl.
      reflexivity.
    + unfold spec_split, distribution, WATCHER_BPS, OPERATOR_BPS, PUBLIC_GOODS_BPS,
        SECURITY_RESERVE_BPS.
      cbn [sum_list fold_right spec_split_shares]. fold w o p.
      replace (total - (0 + w + o + p)) with (total - w - o - p) by lia. reflexivity.
    + unfold distribution, WATCHER_BPS, OPERATOR_BPS, PUBLIC_GOODS_BPS. fold w o p.
      simpl. lia.
    + rewrite !map_app, !sum_list_app, !_transfer_amount. lia.
  - intros ->. unfold distributeRewards, onlyRole. rewrite Hrole. reflexivity.
Qed.

Lemma distributeRewards_exact_witness :
  hasRole (roles funded) DISTRIBUTOR_ROLE 9 = true
  ∧ 0 < 101
  ∧ 101 * WATCHER_BPS <= MAX_UINT256
  ∧ distributeRewards 9 0x70 101 funded
    = Ok [Transfer 0x70 0x11 40; Transfer 0x70 0x22 30; Transfer 0x70 0x33 20;
          Transfer 0x70 0x44 11].
Proof.
  assert (Hrole : hasRole (roles funded) DISTRIBUTOR_ROLE 9 = true) by (vm_compute; reflexivity).
  assert (Hpos : 0 < 101) by lia.
  assert (Hfit : 101 * WATCHER_BPS <= MAX_UINT256) by (vm_compute; discriminate).
  repeat (split; [assumption|]).
  destruct (proj1 (distributeRewards_exact funded 9 0x70 101 Hrole) Hpos Hfit)
    as (calls & Hok & _ & Hcalls & _).
  rewrite Hok, Hcalls. reflexivity.
Defined.

(** At a zero balance the splitter of the specification returns four
    zero shares, while the treasury reverts. *)
Lemma distributeRewards_zero_balance :
  spec_split 0 [WATCHER_BPS; OPERATOR_BPS; PUBLIC_GOODS_BPS; SECURITY_RESERVE_BPS]
  = Some [0; 0; 0; 0]
  ∧ distributeRewards 9 0x70 0 funded = Err (Revert "No funds to distribute").
Proof. split; vm_compute; reflexivity. Qed.

End XsrnTreasurySpec.

(** ** The attestation state machine *)

Module AttestationRegistryFacts.
Import AccessControl AttestationRegistry.

Lemma attestation_at_set_attestation (s : state) (i j : N) (a : Attestation) :
  attestation_at (set_attestation s i a) j
  = if decide (i = j) then a else attestation_at s j.
Proof.
  unfold attestation_at, set_attestation; simpl. rewrite lookup_insert.
  destruct (decide (i = j)); reflexivity.
Qed.

Lemma attestation_at_set_same (s : state) (i : N) (a : Attestation) :
  attestation_at (set_attestation s i a) i = a.
Proof. rewrite attestation_at_set_attestation, decide_True by reflexivity. reflexivity. Qed.

Lemma count_at_insert (m : gmap N N) (a b n : N) :
  count_at (<[a := n]> m) b = if decide (a = b) then n else count_at m b.
Proof.
  unfold count_at. rewrite lookup_insert. destruct (decide (a = b)); reflexivity.
Qed.



(** A successful [challenge], read backwards. *)
Lemma challenge_Ok (now sender i reason : N) (s s' : state) :
  challenge now sender i reason s = Ok s' →
  let att := attestation_at s i in
  timestamp att ≠ 0 ∧ status att = Pending ∧ now <= challengeDeadline att
  ∧ sender ≠ attester att
  ∧ s' = set_attestation s i
           (mkAttestation (attester att) (contentHash att) (bondAmount att) (timestamp att)
                          (challengeDeadline att) Challenged sender reason).
Proof.
  unfold challenge. intros H. ok_inv H.
  apply negb_true_iff, N.eqb_neq in Hx. apply bool_decide_eq_true in Hx0.
  apply N.leb_le in Hx1. apply negb_true_iff, N.eqb_neq in Hx2.
  cbv zeta. auto.
Qed.

Lemma validate_Ok (now i : N) (s s' : state) :
  validate now i s = Ok s' →
  let att := attestation_at s i in
  status att = Pending ∧ challengeDeadline att < now
  ∧ s' = set_valid_count (set_attestation s i (set_status att Validated)) (attester att)
           (count_at (attesterValidCount s) (attester att) + 1).
Proof.
  unfold validate. intros H. ok_inv H.
  apply bool_decide_eq_true in Hx. apply N.ltb_lt in Hx0.
  cbv zeta. auto.
Qed.

Lemma withdrawBond_Ok (sender i : N) (s s' : state) (calls : list call) :
  withdrawBond sender i s = Ok (s', calls) →
  let att := attestation_at s i in
  sender = attester att ∧ status att = Validated ∧ 0 < bondAmount att
  ∧ s' = set_attestation s i
           (mkAttestation (attester att) (contentHash att) 0 (timestamp att)
                          (challengeDeadline att) Withdrawn (challenger att)
                          (challengeReason att))
  ∧ calls = [Transfer (bondToken s) sender (bondAmount att)].
Proof.
  unfold withdrawBond. intros H. ok_inv H.
  apply N.eqb_eq in Hx. apply bool_decide_eq_true in Hx0. apply N.ltb_lt in Hx1.
  injection H as <- <-. cbv zeta. auto.
Qed.

Lemma arbitrate_Ok (sender i : N) (ok : bool) (s s' : state) (calls : list call) :
  arbitrate sender i ok s = Ok (s', calls) →
  let att := attestation_at s i in
  hasRole (roles s) ARBITER_ROLE sender = true
  ∧ status att = Challenged
  ∧ attestation_at s' i = set_status att (if ok then Slashed else Validated)
  ∧ ∀ j, j ≠ i → attestation_at s' j = attestation_at s j.
Proof.
  unfold arbitrate, onlyRole. intros H.
  destruct (hasRole (roles s) ARBITER_ROLE sender) eqn:Hrole; [|discriminate].
  simpl in H. ok_inv H. apply bool_decide_eq_true in Hx.
  cbv zeta. split; [reflexivity|]. split; [exact Hx|].
  destruct ok.
  - ok_inv H. injection H as <- _. split; [apply attestation_at_set_same|].
    intros j Hj.
    change (attestation_at (set_attestation s i
          (set_status (attestation_at s i) Slashed)) j = attestation_at s j).
    rewrite attestation_at_set_attestation, decide_False by congruence. reflexivity.
  - ok_inv H. injection H as <- <-. split; [apply attestation_at_set_same|].
    intros j Hj.
    change (attestation_at (set_attestation s i
          (set_status (attestation_at s i) Validated)) j = attestation_at s j).
    rewrite attestation_at_set_attestation, decide_False by congruence. reflexivity.
Qed.

Lemma submitAttestation_Ok (this now bn sender h b i : N) (s s' : state) (calls : list call) :
  submitAttestation this now bn sender h b s = Ok (i, s', calls) →
  i = attestation_id sender h now bn
  ∧ h ≠ 0
  ∧ timestamp (attestation_at s i) = 0
  ∧ now + challengePeriod s <= MAX_UINT256
  ∧ (0 < b → minBondAmount s <= b)
  ∧ attestation_at s' i = mkAttestation sender h b now (now + challengePeriod s) Pending 0 0
  ∧ (∀ j, j ≠ i → attestation_at s' j = attestation_at s j)
  ∧ calls = (if 0 <? b then [TransferFrom (bondToken s) sender this b] else []).
Proof.
  unfold submitAttestation. intros H. ok_inv H.
  apply negb_true_iff, N.eqb_neq in Hx. apply N.eqb_eq in Hx0.
  injection H as <- <- <-.
  split; [reflexivity|]. split; [exact Hx|]. split; [exact Hx0|]. split; [assumption|].
  assert (Hcalls : (0 < b → minBondAmount s <= b)
                   ∧ x1 = (if 0 <? b then [TransferFrom (bondToken s) sender this b] else [])).
  { destruct (N.ltb_spec 0 b) as [Hpos|Hz].
    - ok_inv Hx1. apply N.leb_le in Hx2. subst x1. auto.
    - ok_inv Hx1. subst x1. split; [lia | reflexivity]. }
  destruct Hcalls as [Hmin Hcalls].
  split; [exact Hmin|]. split; [|split; [|exact Hcalls]].
  - change (attestation_at (set_attestation s (attestation_id sender h now bn)
             (mkAttestation sender h b now (now + challengePeriod s) Pending 0 0))
             (attestation_id sender h now bn) = mkAttestation sender h b now (now + challengePeriod s) Pending 0 0).
    apply attestation_at_set_same.
  - intros j Hj.
    change (attestation_at (set_attestation s (attestation_id sender h now bn)
             (mkAttestation sender h b now (now + challengePeriod s) Pending 0 0)) j
            = attestation_at s j).
    rewrite attestation_at_set_attestation, decide_False by congruence. reflexivity.
Qed.

Lemma transition_edge (i : N) (a : Attestation) (e : env) (t : tx)
    (st st' : AttestationStatus) :
  transition i a e t st st' → edge st st'.
Proof. destruct 1; constructor. Qed.

Lemma run_head (txs : list (env * tx)) (s : state) :
  ∃ tl, run txs s = s :: tl.
Proof.
  destruct txs as [|[e t] rest]; simpl; [eauto|].
  destruct (step e t s) as [[s' calls]|err]; eauto.
Qed.

(** What one successful transaction does to an attestation that exists:
    it stays in existence, and its status stays or takes one edge. *)
Lemma step_transition (e : env) (t : tx) (s s' : state) (calls : list call) (i : N) :
  timestamp (attestation_at s i) ≠ 0 →
  step e t s = Ok (s', calls) →
  timestamp (attestation_at s' i) ≠ 0
  ∧ (status_of s' i = status_of s i
     ∨ transition i (attestation_at s i) e t (status_of s i) (status_of s' i)).
Proof.
  intros Hex H. unfold status_of. destruct t; simpl in H.
  - ok_inv H. destruct x as [[j s0] c0]. simpl in H. injection H as -> ->.
    apply submitAttestation_Ok in Hx as (_ & _ & Hfresh & _ & _ & _ & Hother & _).
    assert (Hne : i ≠ j) by (intros ->; contradiction).
    rewrite (Hother i Hne). auto.
  - ok_inv H. injection H as -> ->.
    apply challenge_Ok in Hx as (_ & Hst & Hdl & Hsender & ->).
    rewrite attestation_at_set_attestation.
    destruct (decide (attestationId = i)) as [->|Hne]; [|auto].
    simpl. split; [exact Hex|]. right. rewrite Hst. constructor; assumption.
  - apply arbitrate_Ok in H as (_ & Hst & Hsame & Hother).
    destruct (decide (i = attestationId)) as [->|Hne].
    + rewrite Hsame. simpl. split; [exact Hex|]. right. rewrite Hst.
      destruct challengeSucceeded; constructor.
    + rewrite (Hother i Hne). auto.
  - ok_inv H. injection H as -> ->.
    apply validate_Ok in Hx as (Hst & Hdl & ->).
    change (attestation_at (set_valid_count ?s0 ?a ?n) i) with (attestation_at s0 i).
    rewrite attestation_at_set_attestation.
    destruct (decide (attestationId = i)) as [->|Hne]; [|auto].
    simpl. split; [exact Hex|]. right. rewrite Hst. constructor. exact Hdl.
  - apply withdrawBond_Ok in H as (Hsender & Hst & _ & -> & _).
    rewrite attestation_at_set_attestation.
    destruct (decide (attestationId = i)) as [->|Hne]; [|auto].
    simpl. split; [exact Hex|]. right. rewrite Hst. constructor. exact Hsender.
  - ok_inv H. injection H as -> ->. unfold setMinBondAmount in Hx. ok_inv Hx. subst x. auto.
  - ok_inv H. injection H as -> ->. unfold setChallengePeriod in Hx. ok_inv Hx. subst x. auto.
  - ok_inv H. injection H as -> ->. unfold setSlashPercentage in Hx. ok_inv Hx. subst x. auto.
  - ok_inv H. injection H as -> ->. auto.
  - ok_inv H. injection H as -> ->. auto.
  - ok_inv H. injection H as -> ->. auto.
Qed.

Lemma run_along_edges (txs : list (env * tx)) (s : state) (i : N) :
  timestamp (attestation_at s i) ≠ 0 → along_edges i (run txs s).
Proof.
  revert s. induction txs as [|[e t] rest IH]; intros s Hex; simpl; [exact I|].
  destruct (step e t s) as [[s' calls]|err] eqn:Hstep.
  - destruct (step_transition e t s s' calls i Hex Hstep) as [Hex' Hmove].
    specialize (IH s' Hex'). destruct (run_head rest s') as [tl Hrun].
    rewrite Hrun in IH |- *. split; [|exact IH].
    destruct Hmove as [Heq|Htr]; [auto | right; eapply transition_edge; eauto].
  - specialize (IH s Hex). destruct (run_head rest s) as [tl Hrun].
    rewrite Hrun in IH |- *. split; [auto | exact IH].
Qed.

(** A transaction on an attestation whose status is not the one it
    starts from reverts. *)
Lemma step_wrong_status (e : env) (t : tx) (s : state) (i : N) (st : AttestationStatus) :
  source_status t = Some (i, st) → status_of s i ≠ st → is_ok (step e t s) = false.
Proof.
  unfold status_of. intros Hsrc Hst.
  destruct t; simpl in Hsrc; try discriminate; injection Hsrc as -> <-; simpl.
  - unfold challenge. destruct (timestamp (attestation_at s i) =? 0); [reflexivity|].
    simpl. rewrite bool_decide_eq_false_2 by exact Hst. reflexivity.
  - unfold arbitrate, onlyRole. destruct (hasRole _ _ _); [|reflexivity]. simpl.
    rewrite bool_decide_eq_false_2 by exact Hst. reflexivity.
  - unfold validate. rewrite bool_decide_eq_false_2 by exact Hst. reflexivity.
  - unfold withdrawBond. destruct (_ =? _); [|reflexivity]. simpl.
    rewrite bool_decide_eq_false_2 by exact Hst. reflexivity.
Qed.

End AttestationRegistryFacts.

Module AttestationRegistrySpec.
Import AccessControl AttestationRegistry AttestationRegistryFacts.



(** C7. An attestation submitted with a bond [B > 0] is stored as
    [Pending] with that bond, the bond being drawn from the submitter.
    For every attestation that is [Pending] with bond [B > 0] once its
    challenge deadline has passed: [validate] (by anyone, the valid count
    of the attester staying within uint256) sets it to [Validated];
    [withdrawBond] by the attester then transfers exactly [B] to the
    attester, sets the status to [Withdrawn] and the stored bond to zero,
    and [withdrawBond] after that reverts for every caller. In every
    state, [withdrawBond] by anyone but the attester reverts with "Not
    attester", and from any status but [Validated] it reverts (with "Not
    validated" for the attester). *)
Theorem bond_withdrawn_once (s : state) (attestationId : N) :
  let att := attestation_at s attestationId in
  (∀ this now bn sender h b s0 calls,
     submitAttestation this now bn sender h b s = Ok (attestationId, s0, calls) →
     0 < b →
     attestation_at s0 attestationId
     = mkAttestation sender h b now (now + challengePeriod s) Pending 0 0
     ∧ calls = [TransferFrom (bondToken s) sender this b])
  ∧ (∀ now,
       status att = Pending → 0 < bondAmount att → challengeDeadline att < now →
       count_at (attesterValidCount s) (attester att) < MAX_UINT256 →
       ∃ s1 s2,
         validate now attestationId s = Ok s1
         ∧ status_of s1 attestationId = Validated
         ∧ withdrawBond (attester att) attestationId s1
           = Ok (s2, [Transfer (bondToken s) (attester att) (bondAmount att)])
         ∧ status_of s2 attestationId = Withdrawn
         ∧ bondAmount (attestation_at s2 attestationId) = 0
         ∧ ∀ sender, is_ok (withdrawBond sender attestationId s2) = false)
  ∧ (∀ sender, sender ≠ attester att →
       withdrawBond sender attestationId s = Err (Revert "Not attester"))
  ∧ (∀ sender, status att ≠ Validated →
       is_ok (withdrawBond sender attestationId s) = false
       ∧ (sender = attester att →
          withdrawBond sender attestationId s = Err (Revert "Not validated"))).
Proof.
  intros att. split; [|split; [|split]].
  - intros this now bn sender h b s0 calls Hsub Hb.
    apply submitAttestation_Ok in Hsub as (_ & _ & _ & _ & _ & Hatt & _ & Hcalls).
    apply N.ltb_lt in Hb. rewrite Hb in Hcalls. auto.
  - intros now Hst Hbond Hdl Hcount.
    set (s1 := set_valid_count (set_attestation s attestationId (set_status att Validated))
                 (attester att) (count_at (attesterValidCount s) (attester att) + 1)).
    assert (Hatt1 : attestation_at s1 attestationId = set_status att Validated).
    { change (attestation_at (set_attestation s attestationId (set_status att Validated))
                attestationId = set_status att Validated).
      apply attestation_at_set_same. }
    set (a2 := mkAttestation (attester att) (contentHash att) 0 (timestamp att)
                 (challengeDeadline att) Withdrawn (challenger att) (challengeReason att)).
    exists s1, (set_attestation s1 attestationId a2).
    split; [|split; [|split; [|split; [|split]]]].
    + unfold validate. fold att. rewrite Hst. simpl.
      apply N.ltb_lt in Hdl. rewrite Hdl. simpl.
      rewrite checked_add_fits by lia. reflexivity.
    + unfold status_of. rewrite Hatt1. reflexivity.
    + unfold withdrawBond. rewrite Hatt1. simpl.
      rewrite N.eqb_refl. simpl.
      apply N.ltb_lt in Hbond. rewrite Hbond. reflexivity.
    + unfold status_of. rewrite attestation_at_set_same. reflexivity.
    + rewrite attestation_at_set_same. reflexivity.
    + intros sender. unfold withdrawBond. rewrite attestation_at_set_same. simpl.
      destruct (sender =? attester att); reflexivity.
  - intros sender Hne. unfold withdrawBond. fold att.
    apply N.eqb_neq in Hne. rewrite Hne. reflexivity.
  - intros sender Hst.
    assert (Hdec : bool_decide (status att = Validated) = false)
      by (apply bool_decide_eq_false, Hst).
    split.
    + unfold withdrawBond. fold att. destruct (sender =? attester att); [|reflexivity].
      simpl. rewrite Hdec. reflexivity.
    + intros ->. unfold withdrawBond. fold att. rewrite N.eqb_refl. simpl.
      rewrite Hdec. reflexivity.
Qed.

Lemma bond_withdrawn_once_witness :
  status (attestation_at submitted demo_id) = Pending
  ∧ 0 < bondAmount (attestation_at submitted demo_id)
  ∧ challengeDeadline (attestation_at submitted demo_id) < 5000
  ∧ ∃ s1 s2,
      validate 5000 demo_id submitted = Ok s1
      ∧ withdrawBond 0xA1 demo_id s1 = Ok (s2, [Transfer 0x70 0xA1 101])
      ∧ bondAmount (attestation_at s2 demo_id) = 0
      ∧ ∀ sender, is_ok (withdrawBond sender demo_id s2) = false.
Proof.
  assert (H1 : status (attestation_at submitted demo_id) = Pending)
    by (vm_compute; reflexivity).
  assert (H2 : 0 < bondAmount (attestation_at submitted demo_id))
    by (vm_compute; reflexivity).
  assert (H3 : challengeDeadline (attestation_at submitted demo_id) < 5000)
    by (vm_compute; reflexivity).
  assert (H4 : count_at (attesterValidCount submitted)
                 (attester (attestation_at submitted demo_id)) < MAX_UINT256)
    by (vm_compute; reflexivity).
  repeat (split; [assumption|]).
  destruct (proj1 (proj2 (bond_withdrawn_once submitted demo_id)) 5000 H1 H2 H3 H4)
    as (s1 & s2 & Hv & _ & Hw & _ & Hb & Hagain).
  exists s1, s2. split; [exact Hv|]. split; [|split; [exact Hb | exact Hagain]].
  vm_compute in Hw. vm_compute. exact Hw.
Defined.

(** C8. For every attestation that exists and every sequence of
    transactions: a successful transaction leaves its status as it was or
    moves it along one of the edges Pending→Challenged (by [challenge],
    up to the deadline, from somebody other than the attester),
    Pending→Validated (by [validate], after the deadline),
    Challenged→Slashed and Challenged→Validated (by [arbitrate]),
    Validated→Withdrawn (by [withdrawBond], from the attester); a
    [challenge], [validate], [arbitrate] or [withdrawBond] on an
    attestation in any other status than the one the edge starts from
    reverts, so that the state stays as it was (challenging an attestation
    that is not [Pending] reverts with "Not challengeable"); and along
    every sequence of transactions the status history is a path of these
    edges. *)
Theorem status_follows_edges (s : state) (i : N) :
  timestamp (attestation_at s i) ≠ 0 →
  (∀ e t s' calls,
     step e t s = Ok (s', calls) →
     timestamp (attestation_at s' i) ≠ 0
     ∧ (status_of s' i = status_of s i
        ∨ transition i (attestation_at s i) e t (status_of s i) (status_of s' i)))
  ∧ (∀ e t st,
       source_status t = Some (i, st) → status_of s i ≠ st →
       is_ok (step e t s) = false ∧ run [(e, t)] s = [s; s])
  ∧ (∀ now sender reason,
       status_of s i ≠ Pending →
       challenge now sender i reason s = Err (Revert "Not challengeable"))
  ∧ (∀ txs, along_edges i (run txs s)).
Proof.
  intros Hex. split; [|split; [|split]].
  - intros e t s' calls. apply step_transition, Hex.
  - intros e t st Hsrc Hst.
    pose proof (step_wrong_status e t s i st Hsrc Hst) as Hfail.
    split; [exact Hfail|]. simpl. destruct (step e t s); [discriminate | reflexivity].
  - intros now sender reason Hst. unfold challenge.
    apply N.eqb_neq in Hex. rewrite Hex. simpl.
    rewrite bool_decide_eq_false_2 by exact Hst. reflexivity.
  - intros txs. apply run_along_edges, Hex.
Qed.

Lemma status_follows_edges_witness :
  timestamp (attestation_at submitted demo_id) ≠ 0
  ∧ (∀ txs, along_edges demo_id (run txs submitted))
  ∧ status_of challenged demo_id = Challenged
  ∧ timestamp (attestation_at challenged demo_id) ≠ 0
  ∧ ∀ now sender reason,
      challenge now sender demo_id reason challenged = Err (Revert "Not challengeable").
Proof.
  assert (H1 : timestamp (attestation_at submitted demo_id) ≠ 0) by (vm_compute; discriminate).
  assert (H2 : timestamp (attestation_at challenged demo_id) ≠ 0) by (vm_compute; discriminate).
  assert (H3 : status_of challenged demo_id = Challenged) by (vm_compute; reflexivity).
  split; [exact H1|].
  split; [exact (proj2 (proj2 (proj2 (status_follows_edges submitted demo_id H1))))|].
  split; [exact H3|]. split; [exact H2|].
  intros now sender reason.
  apply (proj1 (proj2 (proj2 (status_follows_edges challenged demo_id H2)))).
  rewrite H3. discriminate.
Defined.


End AttestationRegistrySpec.

(** ** The Merkle generator *)

Module MerkleGeneratorSpec.
Import MerkleGenerator.

(** C1, on the rewards of the repository's own test. [generate] builds
    the tree and a proof for each of the three entries, and each proof
    rebuilds the root from the leaf [StandardMerkleTree] hashes twice;
    [verify], which starts from the once-hashed leaf, returns false for
    every one of the three entries with the amount unchanged (where the
    test expects true), just as it does with the amount changed by one. *)
Theorem verify_rejects_generated_proofs :
  ∃ result,
    generate mockRewards = Some result
    ∧ root result ≠ ZERO_HASH
    ∧ Forall
        (fun r =>
           ∃ proof,
             getProof result (address r) = Some proof
             ∧ (leaf ← StandardMerkleTree.standardLeafHash (address r, amount r) ;
                Some (StandardMerkleTree.processProof leaf proof =? root result)) = Some true
             ∧ verify (root result) (address r) (amount r) proof = Some false
             ∧ verify (root result) (address r) (amount r + 1) proof = Some false
             ∧ verify (root result) (address r) (amount r - 1) proof = Some false)
        mockRewards.
Proof.
  eexists. split; [vm_compute; reflexivity|].
  split; [vm_compute; discriminate|].
  repeat constructor;
    (eexists; split; [vm_compute; reflexivity|];
     repeat split; vm_compute; reflexivity).
Qed.

End MerkleGeneratorSpec.

(** ** More on the epoch manager *)

Module EpochManagerMore.
Import AccessControl EpochManager EpochManagerFacts.

(** The configured epoch duration stays within one to thirty days in
    every reachable state. *)
Theorem epoch_duration_bounded (s : state) :
  reachable s → MIN_EPOCH_DURATION <= epochDuration s <= MAX_EPOCH_DURATION.
Proof.
  induction 1 as [now admin s H | now sender t s s' _ IH H].
  - unfold constructor in H. ok_inv H. subst s. simpl.
    unfold MIN_EPOCH_DURATION, MAX_EPOCH_DURATION, days. lia.
  - destruct t; simpl in H.
    + unfold advanceEpoch in H. ok_inv H. subst s'. exact IH.
    + unfold finalizeEpoch in H. ok_inv H. subst s'. exact IH.
    + unfold setEpochDuration in H. ok_inv H. subst s'. simpl.
      apply N.leb_le in Hx0, Hx1. lia.
    + ok_inv H. subst s'. exact IH.
    + ok_inv H. subst s'. exact IH.
    + ok_inv H. subst s'. exact IH.
Qed.

Lemma epoch_duration_bounded_witness :
  reachable second_epoch
  ∧ MIN_EPOCH_DURATION <= epochDuration second_epoch <= MAX_EPOCH_DURATION.
Proof.
  assert (Hr : reachable second_epoch).
  { apply EpochManagerSpec.epoch_run_reachable.
    eapply reachable_deploy, EpochManagerSpec.genesis_deployed. }
  split; [exact Hr | exact (epoch_duration_bounded second_epoch Hr)].
Defined.

(** In a reachable state an operator can finalize, with a non-zero root,
    exactly the epochs not yet finalized among the current one and epoch
    0, an id no epoch was ever opened under. *)
Theorem finalizable_epochs (s : state) (sender epochId root rewards : N) :
  reachable s →
  hasRole (roles s) OPERATOR_ROLE sender = true →
  root ≠ ZERO_HASH →
  is_ok (finalizeEpoch sender epochId root rewards s) = true
  ↔ (epochId = currentEpochId s ∨ epochId = 0) ∧ isEpochFinalized s epochId = false.
Proof.
  intros Hreach Hop Hroot.
  destruct (epoch_reachable_inv s Hreach) as (Hpos & _ & _ & Hpast).
  unfold finalizeEpoch, onlyRole, isEpochFinalized. rewrite Hop. simpl.
  apply N.eqb_neq in Hroot. rewrite Hroot. simpl.
  destruct (N.leb_spec epochId (currentEpochId s)) as [Hle|Hgt]; simpl.
  - destruct (finalized (epoch_at s epochId)) eqn:Hfin; simpl.
    + split; [discriminate | intros [_ H]; discriminate].
    + split; [|reflexivity]. intros _. split; [|reflexivity].
      destruct (decide (epochId = 0)) as [->|Hnz]; [auto|].
      destruct (decide (epochId = currentEpochId s)) as [->|Hnc]; [auto|].
      rewrite Hpast in Hfin by lia. discriminate.
  - split; [discriminate|]. intros [[->| ->] _]; lia.
Qed.

Lemma finalizable_epochs_witness :
  reachable genesis
  ∧ hasRole (roles genesis) OPERATOR_ROLE 7 = true
  ∧ 5 ≠ ZERO_HASH
  ∧ is_ok (finalizeEpoch 7 0 5 0 genesis) = true
  ∧ is_ok (finalizeEpoch 7 1 5 0 genesis) = true.
Proof.
  assert (Hr : reachable genesis)
    by (eapply reachable_deploy, EpochManagerSpec.genesis_deployed).
  assert (Hop : hasRole (roles genesis) OPERATOR_ROLE 7 = true) by (vm_compute; reflexivity).
  assert (Hroot : 5 ≠ ZERO_HASH) by discriminate.
  split; [exact Hr|]. split; [exact Hop|]. split; [exact Hroot|]. split.
  - apply (finalizable_epochs genesis 7 0 5 0 Hr Hop Hroot). split; [auto | reflexivity].
  - apply (finalizable_epochs genesis 7 1 5 0 Hr Hop Hroot). split; [auto | reflexivity].
Defined.

(** Settlement in order. When the current epoch has ended and is not
    finalized, [advanceEpoch] reverts; once an operator finalizes it with
    a non-zero root, [advanceEpoch] at the same time succeeds and opens
    the next id with a fresh record running from [now] for the configured
    duration, the finalized root staying readable. *)
Theorem settle_then_advance (s : state) (now sender root rewards : N) :
  canAdvanceEpoch now s = true →
  isEpochFinalized s (currentEpochId s) = false →
  hasRole (roles s) OPERATOR_ROLE sender = true →
  root ≠ ZERO_HASH →
  currentEpochId s + 1 <= MAX_UINT256 →
  now + epochDuration s <= MAX_UINT256 →
  advanceEpoch now s = Err (Revert "Current epoch not finalized yet")
  ∧ ∃ s1 s2,
      finalizeEpoch sender (currentEpochId s) root rewards s = Ok s1
      ∧ canAdvanceEpoch now s1 = true
      ∧ isEpochFinalized s1 (currentEpochId s) = true
      ∧ advanceEpoch now s1 = Ok s2
      ∧ currentEpochId s2 = currentEpochId s + 1
      ∧ getCurrentEpoch s2
        = mkEpoch (currentEpochId s + 1) now (now + epochDuration s) 0 false 0
      ∧ getMerkleRoot s2 (currentEpochId s) = root
      ∧ isEpochFinalized s2 (currentEpochId s) = true.
Proof.
  unfold isEpochFinalized.
  intros Hcan Hfin Hop Hroot Hid Hend.
  pose proof Hcan as Hend0. unfold canAdvanceEpoch in Hend0.
  split.
  - unfold advanceEpoch. rewrite Hcan. simpl. rewrite Hfin. reflexivity.
  - remember (epoch_at s (currentEpochId s)) as e eqn:He.
    remember (mkEpoch (id e) (startTime e) (endTime e) root true rewards) as e1 eqn:He1.
    remember (set_epoch s (currentEpochId s) e1) as s1 eqn:Hs1.
    assert (Hcur : currentEpochId s1 = currentEpochId s) by (subst s1; reflexivity).
    assert (Hdur : epochDuration s1 = epochDuration s) by (subst s1; reflexivity).
    assert (Hat : epoch_at s1 (currentEpochId s) = e1).
    { subst s1. rewrite epoch_at_set_epoch, decide_True by reflexivity. reflexivity. }
    assert (Hcan1 : canAdvanceEpoch now s1 = true).
    { unfold canAdvanceEpoch. rewrite Hcur, Hat. subst e1. exact Hend0. }
    exists s1.
    exists (mkState (epochDuration s1) (currentEpochId s + 1)
              (<[currentEpochId s + 1
                 := mkEpoch (currentEpochId s + 1) now (now + epochDuration s) 0 false 0]>
                 (epochs s1)) (roles s1)).
    split; [|split; [|split; [|split; [|split; [|split; [|split]]]]]].
    + unfold finalizeEpoch, onlyRole. rewrite Hop. simpl.
      rewrite N.leb_refl. simpl. rewrite <- He, Hfin. simpl.
      apply N.eqb_neq in Hroot. rewrite Hroot. simpl. subst s1 e1. reflexivity.
    + exact Hcan1.
    + rewrite Hat. subst e1. reflexivity.
    + unfold advanceEpoch. rewrite Hcan1. simpl. rewrite Hcur, Hat.
      replace (finalized e1) with true by (subst e1; reflexivity). simpl.
      rewrite Hdur.
      rewrite (checked_add_fits (currentEpochId s) 1) by exact Hid. simpl.
      rewrite (checked_add_fits now (epochDuration s)) by exact Hend. reflexivity.
    + reflexivity.
    + unfold getCurrentEpoch, epoch_at. simpl. rewrite lookup_insert_eq. reflexivity.
    + unfold getMerkleRoot, epoch_at. simpl. rewrite lookup_insert_ne by lia.
      fold (epoch_at s1 (currentEpochId s)). rewrite Hat. subst e1. reflexivity.
    + unfold epoch_at. simpl. rewrite lookup_insert_ne by lia.
      fold (epoch_at s1 (currentEpochId s)). rewrite Hat. subst e1. reflexivity.
Qed.

Lemma settle_then_advance_witness :
  canAdvanceEpoch 700000 genesis = true
  ∧ isEpochFinalized genesis (currentEpochId genesis) = false
  ∧ hasRole (roles genesis) OPERATOR_ROLE 7 = true
  ∧ ∃ s1 s2,
      finalizeEpoch 7 (currentEpochId genesis) 0xabc 500 genesis = Ok s1
      ∧ advanceEpoch 700000 s1 = Ok s2
      ∧ currentEpochId s2 = 2.
Proof.
  assert (H1 : canAdvanceEpoch 700000 genesis = true) by (vm_compute; reflexivity).
  assert (H0 : isEpochFinalized genesis (currentEpochId genesis) = false)
    by (vm_compute; reflexivity).
  assert (H2 : hasRole (roles genesis) OPERATOR_ROLE 7 = true) by (vm_compute; reflexivity).
  assert (H3 : 0xabc ≠ ZERO_HASH) by discriminate.
  assert (H4 : currentEpochId genesis + 1 <= MAX_UINT256) by (vm_compute; discriminate).
  assert (H5 : 700000 + epochDuration genesis <= MAX_UINT256) by (vm_compute; discriminate).
  repeat (split; [assumption|]).
  destruct (proj2 (settle_then_advance genesis 700000 7 0xabc 500 H1 H0 H2 H3 H4 H5))
    as (s1 & s2 & Hf & _ & _ & Ha & Hid & _).
  exists s1, s2. repeat split; assumption.
Defined.

(** The epoch id never goes down: a transaction leaves it as it is, or,
    if it is a successful [advanceEpoch], raises it by exactly one. *)
Theorem epoch_id_steps_by_one (s : state) :
  (∀ now sender t s',
     step now sender t s = Ok s' →
     currentEpochId s' = currentEpochId s
     ∨ (t = AdvanceEpoch ∧ currentEpochId s' = currentEpochId s + 1))
  ∧ ∀ txs, currentEpochId s <= currentEpochId (run txs s).
Proof.
  assert (Hstep : ∀ now sender t s0 s', step now sender t s0 = Ok s' →
     currentEpochId s' = currentEpochId s0
     ∨ (t = AdvanceEpoch ∧ currentEpochId s' = currentEpochId s0 + 1)).
  { intros now sender t s0 s' H. destruct t; simpl in H.
    - unfold advanceEpoch in H. ok_inv H. subst s'. right. auto.
    - unfold finalizeEpoch in H. ok_inv H. subst s'. left. reflexivity.
    - unfold setEpochDuration in H. ok_inv H. subst s'. left. reflexivity.
    - ok_inv H. subst s'. left. reflexivity.
    - ok_inv H. subst s'. left. reflexivity.
    - ok_inv H. subst s'. left. reflexivity. }
  split; [intros now sender t s'; apply Hstep|].
  intros txs. revert s. induction txs as [|[[now sender] t] rest IH]; intros s; simpl.
  - lia.
  - destruct (step now sender t s) as [s'|e] eqn:H; [|apply IH].
    specialize (IH s'). destruct (Hstep _ _ _ _ _ H) as [Heq|[_ Heq]]; lia.
Qed.

Lemma epoch_id_steps_by_one_witness :
  step 700000 9 AdvanceEpoch genesis = Err (Revert "Current epoch not finalized yet")
  ∧ currentEpochId genesis
    <= currentEpochId (run [ (2000, 7, FinalizeEpoch 1 0xabc 500); (700000, 9, AdvanceEpoch);
                             (700001, 9, AdvanceEpoch) ] genesis).
Proof.
  split; [vm_compute; reflexivity|].
  apply (proj2 (epoch_id_steps_by_one genesis)).
Defined.

(** Once finalized, the record of an epoch (times, root, reward total)
    is the same after any further transactions. *)
Theorem finalized_epoch_immutable (s : state) (i : N) (txs : list (N * N * tx)) :
  reachable s →
  isEpochFinalized s i = true →
  epoch_at (run txs s) i = epoch_at s i
  ∧ getMerkleRoot (run txs s) i = getMerkleRoot s i.
Proof.
  intros Hreach Hfin.
  destruct (run_keeps_finalized txs s i (epoch_reachable_inv s Hreach) Hfin) as [_ He].
  unfold getMerkleRoot. rewrite He. auto.
Qed.

Lemma finalized_epoch_immutable_witness :
  reachable second_epoch
  ∧ isEpochFinalized second_epoch 1 = true
  ∧ getMerkleRoot
      (run [ (900000, 7, FinalizeEpoch 1 0xdef 1); (900000, 7, FinalizeEpoch 2 0x123 9);
             (2000000, 8, AdvanceEpoch) ] second_epoch) 1
    = 0xabc.
Proof.
  assert (Hr : reachable second_epoch).
  { apply EpochManagerSpec.epoch_run_reachable.
    eapply reachable_deploy, EpochManagerSpec.genesis_deployed. }
  assert (Hf : isEpochFinalized second_epoch 1 = true) by (vm_compute; reflexivity).
  split; [exact Hr|]. split; [exact Hf|].
  rewrite (proj2 (finalized_epoch_immutable second_epoch 1 _ Hr Hf)).
  vm_compute. reflexivity.
Defined.

(** [setEpochDuration], called by an admin, succeeds exactly for a
    duration from one to thirty days; it leaves every epoch record,
    the current epoch and its end time as they are, and the next epoch
    opened by [advanceEpoch] runs for the new duration. *)
Theorem setEpochDuration_next_epoch (s : state) (sender d : N) :
  hasRole (roles s) DEFAULT_ADMIN_ROLE sender = true →
  (is_ok (setEpochDuration sender d s) = true
   ↔ MIN_EPOCH_DURATION <= d <= MAX_EPOCH_DURATION)
  ∧ ∀ s',
      setEpochDuration sender d s = Ok s' →
      epochs s' = epochs s
      ∧ currentEpochId s' = currentEpochId s
      ∧ (∀ now, canAdvanceEpoch now s' = canAdvanceEpoch now s)
      ∧ ∀ now s'',
          advanceEpoch now s' = Ok s'' →
          startTime (getCurrentEpoch s'') = now
          ∧ endTime (getCurrentEpoch s'') = now + d.
Proof.
  intros Hadmin. unfold setEpochDuration, onlyRole. rewrite Hadmin. simpl. split.
  - destruct (N.leb_spec MIN_EPOCH_DURATION d); simpl.
    + destruct (N.leb_spec d MAX_EPOCH_DURATION); simpl.
      * split; [intros _; lia | reflexivity].
      * split; [discriminate | lia].
    + split; [discriminate | lia].
  - intros s' H. ok_inv H. subst s'. simpl.
    split; [reflexivity|]. split; [reflexivity|]. split; [reflexivity|].
    intros now s'' Hadv. unfold advanceEpoch in Hadv. ok_inv Hadv. subst s''.
    unfold getCurrentEpoch, epoch_at. simpl. rewrite lookup_insert_eq. simpl. auto.
Qed.

Lemma setEpochDuration_next_epoch_witness :
  hasRole (roles genesis) DEFAULT_ADMIN_ROLE 7 = true
  ∧ is_ok (setEpochDuration 7 (days 2) genesis) = true
  ∧ is_ok (setEpochDuration 7 3600 genesis) = false.
Proof.
  assert (H : hasRole (roles genesis) DEFAULT_ADMIN_ROLE 7 = true) by (vm_compute; reflexivity).
  split; [exact H|]. split.
  - apply (proj1 (setEpochDuration_next_epoch genesis 7 (days 2) H)).
    vm_compute. split; discriminate.
  - destruct (is_ok (setEpochDuration 7 3600 genesis)) eqn:E; [|reflexivity].
    apply (proj1 (setEpochDuration_next_epoch genesis 7 3600 H)) in E.
    vm_compute in E. destruct E as [E _]. exfalso. apply E. reflexivity.
Defined.

End EpochManagerMore.

(** ** More on the claim ledger *)

Module MerkleDistributorMore.
Import AccessControl MerkleDistributor MerkleDistributorFacts.

(** [canClaim] and [claim] agree: where [canClaim] is false the claim
    reverts, and where it is true the claim succeeds unless the
    cumulative total would leave uint256. *)
Theorem canClaim_matches_claim (s : state) (epochId token account amount : N)
    (proof : list N) :
  (canClaim s epochId token account amount proof = false →
   is_ok (claim account epochId token amount proof s) = false)
  ∧ (canClaim s epochId token account amount proof = true →
     is_ok (claim account epochId token amount proof s)
     = (total_at s account token + amount <=? MAX_UINT256)).
Proof.
  unfold canClaim, claim.
  destruct (claimed_at s epochId token account); simpl; [split; [reflexivity|discriminate]|].
  destruct (root_at s epochId token =? 0); simpl; [split; [reflexivity|discriminate]|].
  destruct (MerkleProof.verify proof (root_at s epochId token) (leaf_of account amount));
    simpl; [|split; [reflexivity|discriminate]].
  split; [discriminate|]. intros _. rewrite total_at_mark_claimed. unfold checked_add.
  destruct (total_at s account token + amount <=? MAX_UINT256); reflexivity.
Qed.

Lemma canClaim_matches_claim_witness :
  canClaim funded 1 0x70 0xA1 100 [] = true
  ∧ is_ok (claim 0xA1 1 0x70 100 [] funded) = true
  ∧ canClaim funded 2 0x70 0xA1 200 [] = false
  ∧ is_ok (claim 0xA1 2 0x70 200 [] funded) = false.
Proof.
  assert (H1 : canClaim funded 1 0x70 0xA1 100 [] = true) by (vm_compute; reflexivity).
  assert (H2 : canClaim funded 2 0x70 0xA1 200 [] = false) by (vm_compute; reflexivity).
  split; [exact H1|]. split.
  - rewrite (proj2 (canClaim_matches_claim funded 1 0x70 0xA1 100 []) H1).
    vm_compute. reflexivity.
  - split; [exact H2|].
    exact (proj1 (canClaim_matches_claim funded 2 0x70 0xA1 200 []) H2).
Defined.

(** A batch of one entry with a positive amount does what [claim] does
    when [claim] succeeds; when [claim] reverts on one of its three
    checks, the batch succeeds and changes nothing. *)
Theorem single_entry_batch (s : state) (sender epochId token amount : N) (proof : list N) :
  (0 < amount →
   ∀ r, claim sender epochId token amount proof s = Ok r →
        claimMultiple sender [epochId] token [amount] [proof] s = Ok r)
  ∧ (canClaim s epochId token sender amount proof = false →
     claimMultiple sender [epochId] token [amount] [proof] s = Ok (s, [])).
Proof.
  split.
  - intros Hpos r Hclaim.
    change (claimMultiple sender [(epochId, amount, proof)].*1.*1 token
              [(epochId, amount, proof)].*1.*2 [(epochId, amount, proof)].*2 s = Ok r).
    rewrite claimMultiple_eq. cbv zeta. cbn [paid_entries].
    unfold claim in Hclaim. unfold eligible.
    destruct (claimed_at s epochId token sender); simpl in *; [discriminate|].
    destruct (root_at s epochId token =? 0); simpl in *; [discriminate|].
    destruct (MerkleProof.verify proof (root_at s epochId token) (leaf_of sender amount));
      simpl in *; [|discriminate].
    rewrite total_at_mark_claimed in Hclaim. unfold checked_add in Hclaim.
    rewrite N.add_0_r.
    destruct (N.eqb_spec amount 0) as [->|_]; [lia|].
    destruct (N.leb_spec (total_at s sender token + amount) MAX_UINT256) as [Hle|Hgt];
      [|discriminate].
    assert (Ha : (amount <=? MAX_UINT256) = true) by (apply N.leb_le; lia).
    rewrite Ha. simpl. simpl in Hclaim. rewrite <- Hclaim. reflexivity.
  - intros Hcan.
    change (claimMultiple sender [(epochId, amount, proof)].*1.*1 token
              [(epochId, amount, proof)].*1.*2 [(epochId, amount, proof)].*2 s = Ok (s, [])).
    rewrite claimMultiple_eq. cbv zeta. cbn [paid_entries].
    unfold canClaim in Hcan. unfold eligible.
    destruct (claimed_at s epochId token sender); simpl in *; [reflexivity|].
    destruct (root_at s epochId token =? 0); simpl in *; [reflexivity|].
    rewrite Hcan. reflexivity.
Qed.

Lemma single_entry_batch_witness :
  0 < 100
  ∧ claimMultiple 0xA1 [1] 0x70 [100] [[]] funded = claim 0xA1 1 0x70 100 [] funded
  ∧ canClaim funded 2 0x70 0xA1 200 [] = false
  ∧ claimMultiple 0xA1 [2] 0x70 [200] [[]] funded = Ok (funded, []).
Proof.
  assert (Hpos : 0 < 100) by lia.
  assert (Hcan : canClaim funded 2 0x70 0xA1 200 [] = false) by (vm_compute; reflexivity).
  split; [exact Hpos|]. split; [|split; [exact Hcan|]].
  - destruct (claim 0xA1 1 0x70 100 [] funded) as [r|e] eqn:Hc.
    + exact (proj1 (single_entry_batch funded 0xA1 1 0x70 100 []) Hpos r Hc).
    + vm_compute in Hc. discriminate.
  - exact (proj2 (single_entry_batch funded 0xA1 2 0x70 200 []) Hcan).
Defined.

Lemma paid_to_app (account token : N) (l1 l2 : list call) :
  paid_to account token (l1 ++ l2) = paid_to account token l1 + paid_to account token l2.
Proof.
  unfold paid_to. rewrite map_app. induction (map _ l1) as [|x l IH]; simpl; [reflexivity|].
  rewrite IH. lia.
Qed.

Lemma paid_to_one (account token t from to a : N) :
  paid_to account token [TransferFrom t from to a]
  = if decide ((to, t) = (account, token)) then a else 0.
Proof.
  unfold paid_to. simpl. rewrite N.add_0_r.
  destruct (N.eqb_spec t token) as [->|Ht]; destruct (N.eqb_spec to account) as [->|Ha];
    simpl; destruct (decide _) as [Heq|Hne]; try reflexivity; congruence.
Qed.

(** What one transaction does to the ledger: the cumulative total of an
    account grows by what the transaction asks to be paid to it, and a
    recorded root stays recorded. *)
Lemma step_ledger (sender : N) (t : tx) (s s' : state) (calls : list call) :
  step sender t s = Ok (s', calls) →
  (∀ account token,
     total_at s' account token = total_at s account token + paid_to account token calls)
  ∧ (∀ epochId token, root_at s epochId token ≠ 0 → root_at s' epochId token ≠ 0).
Proof.
  intros H. destruct t; simpl in H.
  - ok_inv H. injection H as -> ->. unfold setMerkleRoot in Hx. ok_inv Hx. subst x.
    split; [intros; unfold paid_to; simpl; rewrite N.add_0_r; reflexivity|].
    intros e tk Hr. rewrite root_at_set_root.
    apply negb_true_iff, N.eqb_neq in Hx1. destruct (decide _); assumption.
  - unfold claim in H. ok_inv H. injection H as <- <-. split; [|auto].
    intros account tk. rewrite total_at_set_total, paid_to_one, total_at_mark_claimed.
    destruct (decide _) as [Heq|Hne].
    + injection Heq as -> ->. reflexivity.
    + rewrite N.add_0_r. reflexivity.
  - unfold claimMultiple in H. ok_inv H. destruct x1 as [s1 total].
    apply claim_loop_Ok in Hx1.
    destruct (mark_all_extends sender token
                (paid_entries s sender token (entries_of epochIds amounts merkleProofs)) s)
      as [(_ & Hroots & _ & _) Htot].
    rewrite <- Hx1 in Hroots, Htot.
    assert (Hr : ∀ e tk, root_at s1 e tk = root_at s e tk)
      by (intros; unfold root_at; rewrite Hroots; reflexivity).
    assert (Ht : ∀ a tk, total_at s1 a tk = total_at s a tk)
      by (intros; unfold total_at; rewrite Htot; reflexivity).
    destruct (0 <? total).
    + ok_inv H. injection H as <- <-. split.
      * intros account tk. rewrite total_at_set_total, paid_to_one, !Ht.
        destruct (decide _) as [Heq|Hne].
        -- injection Heq as -> ->. reflexivity.
        -- rewrite N.add_0_r. reflexivity.
      * intros e tk. rewrite root_at_set_total, Hr. auto.
    + ok_inv H. injection H as <- <-. split.
      * intros account tk. rewrite Ht. unfold paid_to. simpl. rewrite N.add_0_r. reflexivity.
      * intros e tk. rewrite Hr. auto.
  - ok_inv H. injection H as -> ->. unfold setTreasury in Hx. ok_inv Hx. subst x.
    split; [intros; unfold paid_to; simpl; rewrite N.add_0_r; reflexivity | auto].
  - ok_inv H. injection H as -> ->.
    split; [intros; unfold paid_to; simpl; rewrite N.add_0_r; reflexivity | auto].
  - ok_inv H. injection H as -> ->.
    split; [intros; unfold paid_to; simpl; rewrite N.add_0_r; reflexivity | auto].
  - ok_inv H. injection H as -> ->.
    split; [intros; unfold paid_to; simpl; rewrite N.add_0_r; reflexivity | auto].
Qed.

(** The cumulative total is an exact account of the payments asked for:
    after any sequence of transactions, the total of an account in a token
    is what it was plus everything the sequence asked the treasury to pay
    to that account in that token; in particular it never goes down. *)
Theorem total_claimed_accounts_for_payments (txs : list (N * tx)) (s : state)
    (account token : N) :
  total_at (run txs s) account token
  = total_at s account token + paid_to account token (trace txs s).
Proof.
  revert s. induction txs as [|[sender t] rest IH]; intros s; simpl.
  - unfold paid_to. simpl. lia.
  - destruct (step sender t s) as [[s' calls]|e] eqn:Hstep; [|apply IH].
    rewrite IH, paid_to_app. rewrite (proj1 (step_ledger _ _ _ _ _ Hstep)). lia.
Qed.

(** A recorded root can be replaced but not removed: once the root of
    an (epoch, token) is non-zero it is non-zero after any sequence of
    transactions. *)
Theorem root_never_unset (txs : list (N * tx)) (s : state) (epochId token : N) :
  root_at s epochId token ≠ 0 → root_at (run txs s) epochId token ≠ 0.
Proof.
  revert s. induction txs as [|[sender t] rest IH]; intros s Hr; simpl; [exact Hr|].
  destruct (step sender t s) as [[s' calls]|e] eqn:Hstep; [|apply IH, Hr].
  apply IH. apply (proj2 (step_ledger _ _ _ _ _ Hstep)), Hr.
Qed.

Lemma root_never_unset_witness :
  root_at funded 2 0x70 ≠ 0
  ∧ root_at (run [ (7, SetMerkleRoot 2 0x70 0); (7, SetMerkleRoot 2 0x70 9);
                   (0xA1, Claim 1 0x70 100 []) ] funded) 2 0x70 ≠ 0.
Proof.
  assert (H : root_at funded 2 0x70 ≠ 0) by (vm_compute; discriminate).
  split; [exact H | exact (root_never_unset _ funded 2 0x70 H)].
Defined.

End MerkleDistributorMore.

(** ** More on the treasury and the fee splitter *)

Module XsrnTreasuryMore.
Import AccessControl XsrnTreasury.

Lemma roles_distinct :
  DISTRIBUTOR_ROLE ≠ DEFAULT_ADMIN_ROLE ∧ DISTRIBUTOR_ROLE ≠ TIMELOCK_ROLE.
Proof. split; vm_compute; discriminate. Qed.

Lemma not_granted (d t admin sender : N) :
  d ≠ DEFAULT_ADMIN_ROLE → d ≠ t →
  (d, sender) ∉ _grantRole (_grantRole ∅ DEFAULT_ADMIN_ROLE admin) t admin.
Proof.
  unfold _grantRole. intros H0 Ht.
  rewrite !elem_of_union, !elem_of_singleton, elem_of_empty.
  intros [Heq|[Heq|[]]]; congruence.
Qed.

(** The constructor grants the admin and timelock roles only: in a
    freshly deployed treasury nobody, the admin included, can call
    [distributeRewards] or [distributeReward]; both revert for every
    caller until the distributor role is granted. *)
Theorem fresh_treasury_has_no_distributor (admin sender token total to : N) :
  distributeRewards sender token total (constructor admin)
  = Err (Unauthorized DISTRIBUTOR_ROLE sender)
  ∧ distributeReward sender token to total (constructor admin)
    = Err (Unauthorized DISTRIBUTOR_ROLE sender).
Proof.
  assert (Hno : hasRole (roles (constructor admin)) DISTRIBUTOR_ROLE sender = false).
  { apply bool_decide_eq_false. unfold constructor. cbn [roles].
    apply not_granted; apply roles_distinct. }
  unfold distributeRewards, distributeReward, onlyRole. rewrite Hno. auto.
Qed.

Lemma distributeRewards_eq (s : state) (sender token total : N) :
  hasRole (roles s) DISTRIBUTOR_ROLE sender = true →
  0 < total → total * 4000 <= MAX_UINT256 →
  distributeRewards sender token total s
  = Ok (_transfer token (watcher s) (total * 4000 / 10000)
        ++ _transfer token (operator s) (total * 3000 / 10000)
        ++ _transfer token (publicGoods s) (total * 2000 / 10000)
        ++ _transfer token (securityReserve s)
             (total - total * 4000 / 10000 - total * 3000 / 10000 - total * 2000 / 10000)).
Proof.
  intros Hrole Hpos Hfit.
  pose proof (N.Div0.mul_div_le (total * 4000) 10000) as Hw.
  pose proof (N.Div0.mul_div_le (total * 3000) 10000) as Ho.
  pose proof (N.Div0.mul_div_le (total * 2000) 10000) as Hp.
  unfold distributeRewards, onlyRole. rewrite Hrole. simpl.
  apply N.ltb_lt in Hpos. rewrite Hpos. simpl.
  unfold WATCHER_BPS, OPERATOR_BPS, PUBLIC_GOODS_BPS.
  rewrite (checked_mul_fits total 4000) by lia. simpl.
  rewrite (checked_mul_fits total 3000) by lia. simpl.
  rewrite (checked_mul_fits total 2000) by lia. simpl.
  rewrite (checked_sub_fits total) by lia. simpl.
  rewrite (checked_sub_fits (total - _)) by lia. simpl.
  rewrite (checked_sub_fits (total - _ - _)) by lia. reflexivity.
Qed.

(** The last transfer takes up the rounding. [distributeRewards], called
    by a distributor on a positive balance (whose product with 4000 fits
    uint256), transfers four amounts (a zero one is left out) that sum to
    the balance, and the one for the security reserve is at least its
    exact tenth of the balance and less than three units more. *)
Theorem security_reserve_rounding (s : state) (sender token total : N) :
  hasRole (roles s) DISTRIBUTOR_ROLE sender = true →
  0 < total → total * 4000 <= MAX_UINT256 →
  ∃ w o p r,
    distributeRewards sender token total s
    = Ok (_transfer token (watcher s) w ++ _transfer token (operator s) o
          ++ _transfer token (publicGoods s) p ++ _transfer token (securityReserve s) r)
    ∧ w + o + p + r = total
    ∧ total * SECURITY_RESERVE_BPS <= r * 10000 < total * SECURITY_RESERVE_BPS + 30000.
Proof.
  intros Hrole Hpos Hfit. unfold SECURITY_RESERVE_BPS.
  set (w := total * 4000 / 10000). set (o := total * 3000 / 10000).
  set (p := total * 2000 / 10000).
  exists w, o, p, (total - w - o - p).
  split; [apply distributeRewards_eq; assumption|].
  pose proof (N.Div0.mul_div_le (total * 4000) 10000) as Hw1.
  pose proof (N.Div0.mul_div_le (total * 3000) 10000) as Ho1.
  pose proof (N.Div0.mul_div_le (total * 2000) 10000) as Hp1.
  pose proof (N.mul_succ_div_gt (total * 4000) 10000 ltac:(discriminate)) as Hw2.
  pose proof (N.mul_succ_div_gt (total * 3000) 10000 ltac:(discriminate)) as Ho2.
  pose proof (N.mul_succ_div_gt (total * 2000) 10000 ltac:(discriminate)) as Hp2.
  fold w in Hw1, Hw2. fold o in Ho1, Ho2. fold p in Hp1, Hp2.
  lia.
Qed.

Lemma security_reserve_rounding_witness :
  ∃ w o p r,
    distributeRewards 9 0x70 101 funded
    = Ok (_transfer 0x70 (watcher funded) w ++ _transfer 0x70 (operator funded) o
          ++ _transfer 0x70 (publicGoods funded) p
          ++ _transfer 0x70 (securityReserve funded) r)
    ∧ w + o + p + r = 101
    ∧ 101 * SECURITY_RESERVE_BPS <= r * 10000 < 101 * SECURITY_RESERVE_BPS + 30000.
Proof.
  apply security_reserve_rounding.
  - vm_compute. reflexivity.
  - reflexivity.
  - vm_compute. discriminate.
Defined.

(** [setDistributionAddresses], called by an admin, succeeds exactly when
    none of the four addresses is zero, and the next distribution pays
    the four new addresses. *)
Theorem setDistributionAddresses_redirects (s : state) (sender w o p r : N) :
  hasRole (roles s) DEFAULT_ADMIN_ROLE sender = true →
  (is_ok (setDistributionAddresses sender w o p r s) = true
   ↔ w ≠ 0 ∧ o ≠ 0 ∧ p ≠ 0 ∧ r ≠ 0)
  ∧ ∀ s' distributor token total,
      setDistributionAddresses sender w o p r s = Ok s' →
      hasRole (roles s) DISTRIBUTOR_ROLE distributor = true →
      0 < total → total * 4000 <= MAX_UINT256 →
      distributeRewards distributor token total s'
      = Ok (_transfer token w (total * 4000 / 10000)
            ++ _transfer token o (total * 3000 / 10000)
            ++ _transfer token p (total * 2000 / 10000)
            ++ _transfer token r
                 (total - total * 4000 / 10000 - total * 3000 / 10000
                  - total * 2000 / 10000)).
Proof.
  intros Hadmin. unfold setDistributionAddresses, onlyRole. rewrite Hadmin. simpl. split.
  - destruct (N.eqb_spec w 0); simpl; [split; [discriminate | tauto]|].
    destruct (N.eqb_spec o 0); simpl; [split; [discriminate | tauto]|].
    destruct (N.eqb_spec p 0); simpl; [split; [discriminate | tauto]|].
    destruct (N.eqb_spec r 0); simpl; [split; [discriminate | tauto]|].
    split; [auto | reflexivity].
  - intros s' distributor token total H Hrole Hpos Hfit. ok_inv H. subst s'.
    rewrite distributeRewards_eq by assumption. reflexivity.
Qed.

Lemma setDistributionAddresses_redirects_witness :
  hasRole (roles funded) DEFAULT_ADMIN_ROLE 7 = true
  ∧ is_ok (setDistributionAddresses 7 0x51 0x52 0x53 0x54 funded) = true
  ∧ is_ok (setDistributionAddresses 7 0x51 0 0x53 0x54 funded) = false.
Proof.
  assert (H : hasRole (roles funded) DEFAULT_ADMIN_ROLE 7 = true) by (vm_compute; reflexivity).
  split; [exact H|]. split.
  - apply (proj1 (setDistributionAddresses_redirects funded 7 0x51 0x52 0x53 0x54 H)).
    repeat split; discriminate.
  - destruct (is_ok (setDistributionAddresses 7 0x51 0 0x53 0x54 funded)) eqn:E;
      [|reflexivity].
    apply (proj1 (setDistributionAddresses_redirects funded 7 0x51 0 0x53 0x54 H)) in E.
    destruct E as (_ & E & _). congruence.
Defined.

End XsrnTreasuryMore.

Module XsrnFeeSplitterSpec.
Import XsrnFeeSplitter.

Lemma fee_bps_reachable (s : state) : reachable s → protocolFeeBps s <= 1000.
Proof.
  induction 1 as [sender tr c s H | sender t s s' _ IH H].
  - unfold constructor in H. ok_inv H. subst s. simpl. lia.
  - destruct t; simpl in H.
    + unfold setCommissionContract in H. ok_inv H. subst s'. exact IH.
    + unfold setProtocolFee in H. ok_inv H. subst s'. simpl. apply N.leb_le. assumption.
    + unfold setTreasury in H. ok_inv H. subst s'. exact IH.
    + unfold transferOwnership in H. ok_inv H. subst s'. exact IH.
    + unfold renounceOwnership in H. ok_inv H. subst s'. exact IH.
Qed.

(** The protocol fee of a deployed splitter never exceeds 1000 basis
    points (10%), whatever its owners set. *)
Theorem protocol_fee_bounded (s : state) : reachable s → protocolFeeBps s <= 1000.
Proof. apply fee_bps_reachable. Qed.

Lemma deployed_reachable : reachable deployed.
Proof. eapply (reachable_deploy 7 0x7EA 0xC0). reflexivity. Qed.

Lemma protocol_fee_bounded_witness :
  reachable deployed ∧ protocolFeeBps deployed <= 1000.
Proof.
  split; [exact deployed_reachable | exact (protocol_fee_bounded deployed deployed_reachable)].
Defined.

Lemma fee_le_amount (amount bps : N) : bps <= 1000 → amount * bps / 10000 * 10 <= amount.
Proof.
  intros Hb. pose proof (N.Div0.mul_div_le (amount * bps) 10000) as H. nia.
Qed.

(** [splitPaymentERC20] in a reachable state, for a positive amount whose
    product with the fee rate fits uint256: it succeeds, draws from the
    sender the fee [floor(amount * bps / 10000)] for the treasury and the
    rest for the merchant (a zero part is not transferred), the two
    adding up to the amount; the fee is at most a tenth of the amount;
    and the [PaymentSplit] event carries the same three numbers. *)
Theorem splitPaymentERC20_exact (s : state) (sender token merchant amount : N)
    (routeRef : list N) :
  reachable s → 0 < amount → amount * protocolFeeBps s <= MAX_UINT256 →
  let fee := amount * protocolFeeBps s / 10000 in
  splitPaymentERC20 sender token merchant amount routeRef s
  = Ok ((if 0 <? fee then [TransferFrom token sender (treasury s) fee] else [])
        ++ (if 0 <? amount - fee
            then [TransferFrom token sender merchant (amount - fee)] else []),
        mkPaymentSplit token merchant amount (amount - fee) fee (keccak256 routeRef))
  ∧ fee + (amount - fee) = amount
  ∧ fee * 10 <= amount
  ∧ 0 < amount - fee.
Proof.
  intros Hreach Hpos Hfit fee.
  pose proof (fee_le_amount amount (protocolFeeBps s) (fee_bps_reachable s Hreach)) as Hfee.
  fold fee in Hfee.
  split; [|lia].
  unfold splitPaymentERC20. apply N.ltb_lt in Hpos. rewrite Hpos. simpl.
  rewrite checked_mul_fits by exact Hfit. simpl. fold fee.
  rewrite checked_sub_fits by lia. reflexivity.
Qed.

Lemma splitPaymentERC20_exact_witness :
  reachable deployed
  ∧ 0 < 1000
  ∧ 1000 * protocolFeeBps deployed <= MAX_UINT256
  ∧ fst <$> splitPaymentERC20 9 0x70 0x33 1000 [] deployed
    = Ok [TransferFrom 0x70 9 0x7EA 3; TransferFrom 0x70 9 0x33 997].
Proof.
  assert (Hpos : 0 < 1000) by lia.
  assert (Hfit : 1000 * protocolFeeBps deployed <= MAX_UINT256) by (vm_compute; discriminate).
  split; [exact deployed_reachable|]. split; [exact Hpos|]. split; [exact Hfit|].
  rewrite (proj1 (splitPaymentERC20_exact deployed 9 0x70 0x33 1000 []
                    deployed_reachable Hpos Hfit)).
  reflexivity.
Defined.

(** A payment whose product with the fee rate is below 10000 pays no
    protocol fee at all: the merchant gets the whole amount and nothing
    goes to the treasury (at the default rate of 30 basis points, every
    payment of at most 333 units). *)
Theorem small_payment_pays_no_fee (s : state) (sender token merchant amount : N)
    (routeRef : list N) :
  0 < amount → amount * protocolFeeBps s < 10000 →
  fst <$> splitPaymentERC20 sender token merchant amount routeRef s
  = Ok [TransferFrom token sender merchant amount]
  ∧ fst <$> splitPaymentNative amount merchant routeRef s = Ok [SendValue merchant amount].
Proof.
  intros Hpos Hsmall.
  assert (Hfee : amount * protocolFeeBps s / 10000 = 0) by (apply N.div_small, Hsmall).
  assert (Hfit : amount * protocolFeeBps s <= MAX_UINT256) by (unfold MAX_UINT256; lia).
  apply N.ltb_lt in Hpos.
  unfold splitPaymentERC20, splitPaymentNative. rewrite Hpos. cbn [require mbind result_bind].
  rewrite checked_mul_fits by exact Hfit. cbn [mbind result_bind]. rewrite Hfee.
  rewrite (checked_sub_fits amount 0) by lia. cbn [mbind result_bind].
  rewrite N.sub_0_r, Hpos. auto.
Qed.

Lemma small_payment_pays_no_fee_witness :
  0 < 333
  ∧ 333 * protocolFeeBps deployed < 10000
  ∧ fst <$> splitPaymentERC20 9 0x70 0x33 333 [] deployed = Ok [TransferFrom 0x70 9 0x33 333].
Proof.
  assert (Hpos : 0 < 333) by lia.
  assert (Hs : 333 * protocolFeeBps deployed < 10000) by (vm_compute; reflexivity).
  split; [exact Hpos|]. split; [exact Hs|].
  exact (proj1 (small_payment_pays_no_fee deployed 9 0x70 0x33 333 [] Hpos Hs)).
Defined.

(** [quickPaySplit] in a reachable state, for a positive amount whose
    product with the fee rate fits uint256: it pulls the amount from the
    caller, sends the fee, if there is one, to the treasury, and forwards
    the rest by approving the commission contract for exactly the rest,
    calling it, and setting the allowance back to zero; fee and rest add
    up to the amount pulled. *)
Theorem quickPaySplit_exact (s : state) (this sender token merchant amount orderId : N) :
  reachable s → 0 < amount → amount * protocolFeeBps s <= MAX_UINT256 →
  let fee := amount * protocolFeeBps s / 10000 in
  quickPaySplit this sender token merchant amount orderId s
  = Ok ([Token (TransferFrom token sender this amount)]
        ++ (if 0 <? fee then [Token (Transfer token (treasury s) fee)] else [])
        ++ [ForceApprove token (commissionContract s) (amount - fee);
            CommissionQuickPaySplit (commissionContract s) orderId (amount - fee);
            ForceApprove token (commissionContract s) 0],
        mkPaymentSplit token merchant amount (amount - fee) fee orderId)
  ∧ fee + (amount - fee) = amount.
Proof.
  intros Hreach Hpos Hfit fee.
  pose proof (fee_le_amount amount (protocolFeeBps s) (fee_bps_reachable s Hreach)) as Hfee.
  fold fee in Hfee.
  split; [|lia].
  assert (Hrest : (0 <? amount - fee) = true) by (apply N.ltb_lt; lia).
  unfold quickPaySplit. apply N.ltb_lt in Hpos. rewrite Hpos. simpl.
  rewrite checked_mul_fits by exact Hfit. simpl. fold fee.
  rewrite checked_sub_fits by lia. simpl. rewrite Hrest. reflexivity.
Qed.

Lemma quickPaySplit_exact_witness :
  reachable deployed
  ∧ 0 < 1000
  ∧ 1000 * protocolFeeBps deployed <= MAX_UINT256
  ∧ fst <$> quickPaySplit 0x5E 9 0x70 0x33 1000 0xD1 deployed
    = Ok [Token (TransferFrom 0x70 9 0x5E 1000); Token (Transfer 0x70 0x7EA 3);
          ForceApprove 0x70 0xC0 997; CommissionQuickPaySplit 0xC0 0xD1 997;
          ForceApprove 0x70 0xC0 0].
Proof.
  assert (Hpos : 0 < 1000) by lia.
  assert (Hfit : 1000 * protocolFeeBps deployed <= MAX_UINT256) by (vm_compute; discriminate).
  split; [exact deployed_reachable|]. split; [exact Hpos|]. split; [exact Hfit|].
  rewrite (proj1 (quickPaySplit_exact deployed 0x5E 9 0x70 0x33 1000 0xD1
                    deployed_reachable Hpos Hfit)).
  reflexivity.
Defined.

End XsrnFeeSplitterSpec.

(** ** The receipt ledger *)

Module ReceiptRegistrySpec.
Import AccessControl ReceiptRegistry.

Lemma recordReceipt_Ok (now sender i p m a t v f e h : N) (s s' : state) :
  recordReceipt now sender i p m a t v f e h s = Ok s' →
  hasRole (roles s) EMITTER_ROLE sender = true
  ∧ timestamp (receipt_at s i) = 0
  ∧ s' = mkState (<[i := mkReceipt i p m a t v f now e h]> (receipts s))
                 (receiptIds s ++ [i])
                 (<[e := ids_at s e ++ [i]]> (epochReceipts s))
                 (<[e := volume_at s e + v]> (epochTotalVolume s))
                 (<[e := fees_at s e + f]> (epochTotalFees s))
                 (roles s).
Proof.
  unfold recordReceipt, onlyRole. intros H.
  destruct (hasRole (roles s) EMITTER_ROLE sender); [|discriminate]. simpl in H.
  ok_inv H. apply N.eqb_eq in Hx. auto.
Qed.

(** A transaction leaves every recorded receipt as it is. *)
Lemma step_keeps_receipt (now sender : N) (t : tx) (s s' : state) (id : N) :
  step now sender t s = Ok s' →
  timestamp (receipt_at s id) ≠ 0 →
  receipt_at s' id = receipt_at s id.
Proof.
  intros H Hrec. destruct t; simpl in H.
  - apply recordReceipt_Ok in H as (_ & Hfresh & ->).
    unfold receipt_at in *; simpl.
    rewrite lookup_insert_ne; [reflexivity|]. intros ->. contradiction.
  - ok_inv H. subst s'. reflexivity.
  - ok_inv H. subst s'. reflexivity.
  - ok_inv H. subst s'. reflexivity.
Qed.

Lemma run_keeps_receipt (txs : list (N * N * tx)) (s : state) (id : N) :
  timestamp (receipt_at s id) ≠ 0 → receipt_at (run txs s) id = receipt_at s id.
Proof.
  revert s. induction txs as [|[[now sender] t] rest IH]; intros s Hrec; simpl; [reflexivity|].
  destruct (step now sender t s) as [s'|e] eqn:Hstep; [|apply IH, Hrec].
  pose proof (step_keeps_receipt _ _ _ _ _ id Hstep Hrec) as Hsame.
  rewrite IH; [exact Hsame | rewrite Hsame; exact Hrec].
Qed.

(** The ledger is append-only. A receipt recorded in a block with a
    positive timestamp is stored with the arguments given and that
    timestamp; after any further transactions it reads the same, and
    every later [recordReceipt] for its payment id reverts (with "Receipt
    already exists" for an emitter). *)
Theorem receipt_recorded_once (now sender i p m a t v f e h : N) (s s' : state) :
  recordReceipt now sender i p m a t v f e h s = Ok s' →
  0 < now →
  getReceipt s' i = mkReceipt i p m a t v f now e h
  ∧ ∀ txs,
      getReceipt (run txs s') i = mkReceipt i p m a t v f now e h
      ∧ ∀ now' sender' p' m' a' t' v' f' e' h',
          is_ok (recordReceipt now' sender' i p' m' a' t' v' f' e' h' (run txs s')) = false
          ∧ (hasRole (roles (run txs s')) EMITTER_ROLE sender' = true →
             recordReceipt now' sender' i p' m' a' t' v' f' e' h' (run txs s')
             = Err (Revert "Receipt already exists")).
Proof.
  intros H Hnow. apply recordReceipt_Ok in H as (_ & _ & ->).
  set (s' := mkState _ _ _ _ _ _).
  assert (Hget : receipt_at s' i = mkReceipt i p m a t v f now e h).
  { unfold receipt_at, s'; simpl. rewrite lookup_insert_eq. reflexivity. }
  assert (Hrec : timestamp (receipt_at s' i) ≠ 0) by (rewrite Hget; simpl; lia).
  split; [exact Hget|]. intros txs.
  pose proof (run_keeps_receipt txs s' i Hrec) as Hsame.
  unfold getReceipt. rewrite Hsame. split; [exact Hget|].
  intros now' sender' p' m' a' t' v' f' e' h'.
  assert (Hts : (timestamp (receipt_at (run txs s') i) =? 0) = false).
  { rewrite Hsame. apply N.eqb_neq, Hrec. }
  unfold recordReceipt, onlyRole. split.
  - destruct (hasRole _ _ _); [|reflexivity]. simpl. rewrite Hts. reflexivity.
  - intros ->. simpl. rewrite Hts. reflexivity.
Qed.

Lemma receipt_recorded_once_witness :
  is_ok (recordReceipt 50 7 0xAB 0x1 0x2 0x3 0x70 1000 3 1 0xEF (constructor 7)) = true
  ∧ 0 < 50
  ∧ getReceipt one_receipt 0xAB = mkReceipt 0xAB 0x1 0x2 0x3 0x70 1000 3 50 1 0xEF
  ∧ recordReceipt 60 7 0xAB 0x9 0x9 0x9 0x70 5 1 2 0 one_receipt
    = Err (Revert "Receipt already exists").
Proof.
  destruct (recordReceipt 50 7 0xAB 0x1 0x2 0x3 0x70 1000 3 1 0xEF (constructor 7))
    as [s'|err] eqn:Hrec; [|vm_compute in Hrec; discriminate].
  assert (Hnow : 0 < 50) by lia.
  assert (Hs : one_receipt = s').
  { unfold one_receipt. simpl. rewrite Hrec. reflexivity. }
  split; [reflexivity|]. split; [exact Hnow|].
  destruct (receipt_recorded_once _ _ _ _ _ _ _ _ _ _ _ _ _ Hrec Hnow) as [Hget Hlater].
  rewrite Hs. split; [exact Hget|].
  apply (proj2 (Hlater [])). simpl.
  apply recordReceipt_Ok in Hrec as (Hrole & _ & ->). exact Hrole.
Defined.

Lemma amounts_of_frame (s s' : state) (ids : list N) :
  (∀ id, id ∈ ids → receipt_at s' id = receipt_at s id) →
  amounts_of s' ids = amounts_of s ids ∧ fees_of s' ids = fees_of s ids.
Proof.
  intros H. unfold amounts_of, fees_of. split; apply map_ext_in; intros id Hin;
    rewrite H by (apply list_elem_of_In, Hin); reflexivity.
Qed.

Lemma sum_list_snoc (l : list N) (x : N) : sum_list (l ++ [x]) = sum_list l + x.
Proof. induction l as [|y l IH]; simpl; [lia|]. rewrite IH. lia. Qed.

Lemma sum_list_snoc_map (g : N → N) (l : list N) (x : N) :
  sum_list (map g l ++ map g [x]) = sum_list (map g l) + g x.
Proof. apply sum_list_snoc. Qed.

Lemma recordReceipt_inv (now sender i p m a t v f e h : N) (s s' : state) :
  inv s → 0 < now → recordReceipt now sender i p m a t v f e h s = Ok s' → inv s'.
Proof.
  intros Hinv Hnow H. apply recordReceipt_Ok in H as (_ & Hfresh & Hs').
  assert (Hnew : receipt_at s' i = mkReceipt i p m a t v f now e h).
  { rewrite Hs'. unfold receipt_at; simpl. rewrite lookup_insert_eq. reflexivity. }
  assert (Hold : ∀ id, id ≠ i → receipt_at s' id = receipt_at s id).
  { intros id Hne. rewrite Hs'. unfold receipt_at; simpl.
    rewrite lookup_insert_ne by congruence. reflexivity. }
  assert (Hids : ∀ ep, ids_at s' ep = if decide (e = ep) then ids_at s e ++ [i] else ids_at s ep).
  { intros ep. rewrite Hs'. unfold ids_at; simpl. rewrite lookup_insert.
    destruct (decide (e = ep)); reflexivity. }
  assert (Hvols : ∀ ep, volume_at s' ep
                        = if decide (e = ep) then volume_at s e + v else volume_at s ep).
  { intros ep. rewrite Hs'. unfold volume_at; simpl. rewrite lookup_insert.
    destruct (decide (e = ep)); reflexivity. }
  assert (Hfees : ∀ ep, fees_at s' ep
                        = if decide (e = ep) then fees_at s e + f else fees_at s ep).
  { intros ep. rewrite Hs'. unfold fees_at; simpl. rewrite lookup_insert.
    destruct (decide (e = ep)); reflexivity. }
  clear Hs'.
  assert (Hlisted : ∀ ep id, id ∈ ids_at s ep → id ≠ i).
  { intros ep id Hin ->. destruct (Hinv ep) as (Hrec & _). destruct (Hrec i Hin). contradiction. }
  intros ep. destruct (Hinv ep) as (Hrec & Hnd & Hvol & Hfee).
  destruct (amounts_of_frame s s' (ids_at s ep)) as [Ha Hf].
  { intros id Hin. apply Hold. eapply Hlisted, Hin. }
  rewrite Hids, Hvols, Hfees.
  destruct (decide (e = ep)) as [<-|Hne].
  - split; [|split; [|split]].
    + intros id Hin. apply elem_of_app in Hin as [Hin|Hin].
      * rewrite Hold by (eapply Hlisted, Hin). apply Hrec, Hin.
      * apply list_elem_of_singleton in Hin as ->. rewrite Hnew. simpl. split; [lia|reflexivity].
    + apply NoDup_app. split; [exact Hnd|]. split; [|apply NoDup_singleton].
      intros id Hin Hin'. apply list_elem_of_singleton in Hin' as ->.
      eapply Hlisted; eauto.
    + unfold amounts_of in Ha, Hvol |- *.
      rewrite map_app, sum_list_snoc_map, Ha, <- Hvol, Hnew. reflexivity.
    + unfold fees_of in Hf, Hfee |- *.
      rewrite map_app, sum_list_snoc_map, Hf, <- Hfee, Hnew. reflexivity.
  - split; [|split; [|split]].
    + intros id Hin. rewrite Hold by (eapply Hlisted, Hin). apply Hrec, Hin.
    + exact Hnd.
    + rewrite Ha. exact Hvol.
    + rewrite Hf. exact Hfee.
Qed.

Lemma registry_reachable_inv (s : state) : reachable s → inv s.
Proof.
  induction 1 as [admin | now sender t s s' _ IH Hnow H].
  - intros ep. unfold ids_at, volume_at, fees_at, constructor; simpl.
    rewrite !lookup_empty. simpl. split; [|split; [|split]]; try reflexivity.
    + intros id Hin. inversion Hin.
    + apply NoDup_nil. exact I.
  - destruct t; simpl in H.
    + eapply recordReceipt_inv; eauto.
    + ok_inv H. subst s'. exact IH.
    + ok_inv H. subst s'. exact IH.
    + ok_inv H. subst s'. exact IH.
Qed.

(** The epoch statistics are consistent with the receipts. In every
    reachable state [getEpochStats] returns, for every epoch, the number
    of receipts listed for it, the sum of their amounts and the sum of
    their protocol fees; every listed receipt is recorded under that
    epoch; and an epoch without receipts reads as three zeros. *)
Theorem epoch_stats_consistent (s : state) (epoch : N) :
  reachable s →
  getEpochStats s epoch
  = (N.of_nat (length (getEpochReceiptIds s epoch)),
     sum_list (amounts_of s (getEpochReceiptIds s epoch)),
     sum_list (fees_of s (getEpochReceiptIds s epoch)))
  ∧ (∀ id, id ∈ getEpochReceiptIds s epoch →
           epochId (getReceipt s id) = epoch ∧ timestamp (getReceipt s id) ≠ 0)
  ∧ NoDup (getEpochReceiptIds s epoch)
  ∧ (getEpochReceiptIds s epoch = [] → getEpochStats s epoch = (0, 0, 0)).
Proof.
  intros Hreach. destruct (registry_reachable_inv s Hreach epoch) as (Hrec & Hnd & Hvol & Hfee).
  unfold getEpochStats, getEpochReceiptIds, getReceipt.
  split; [rewrite Hvol, Hfee; reflexivity|].
  split; [intros id Hin; destruct (Hrec id Hin); auto|].
  split; [exact Hnd|].
  intros Hempty. rewrite Hvol, Hfee, Hempty. reflexivity.
Qed.

Lemma one_receipt_reachable : reachable one_receipt.
Proof.
  unfold one_receipt. simpl.
  destruct (recordReceipt 50 7 0xAB 0x1 0x2 0x3 0x70 1000 3 1 0xEF (constructor 7))
    as [s'|err] eqn:Hrec; [|apply reachable_deploy].
  eapply (reachable_step 50 7 (RecordReceipt 0xAB 0x1 0x2 0x3 0x70 1000 3 1 0xEF));
    [apply reachable_deploy | lia | exact Hrec].
Qed.

Lemma epoch_stats_consistent_witness :
  reachable one_receipt
  ∧ getEpochStats one_receipt 1 = (1, 1000, 3)
  ∧ getEpochStats one_receipt 2 = (0, 0, 0).
Proof.
  split; [exact one_receipt_reachable|]. split.
  - rewrite (proj1 (epoch_stats_consistent one_receipt 1 one_receipt_reachable)).
    vm_compute. reflexivity.
  - apply (proj2 (proj2 (proj2 (epoch_stats_consistent one_receipt 2 one_receipt_reachable)))).
    vm_compute. reflexivity.
Defined.

End ReceiptRegistrySpec.

(** ** More on the attestation registry *)

Module AttestationRegistryMore.
Import AccessControl AttestationRegistry AttestationRegistryFacts.

Lemma owed_comm (z1 z2 : Attestation) (y : N) :
  owed z1 + (owed z2 + y) = owed z2 + (owed z1 + y).
Proof. lia. Qed.

(** Replacing one attestation changes the liability by the difference
    of what is owed on it. *)
Lemma liability_set_attestation (s : state) (i : N) (a' : Attestation) :
  liability (set_attestation s i a') + owed (attestation_at s i) = liability s + owed a'.
Proof.
  unfold liability, attestation_at, set_attestation; simpl.
  destruct (attestations s !! i) as [a|] eqn:Hi; simpl.
  - rewrite <- (insert_delete_eq (attestations s) i a').
    rewrite (map_fold_insert_L _ _ i a' (delete i (attestations s)));
      [|intros; apply owed_comm | apply lookup_delete_eq].
    rewrite (map_fold_delete_L _ _ i a (attestations s));
      [|intros; apply owed_comm | exact Hi].
    lia.
  - rewrite (map_fold_insert_L _ _ i a' (attestations s));
      [|intros; apply owed_comm | exact Hi].
    unfold owed at 3. simpl. lia.
Qed.

Lemma liability_set_same (s : state) (i : N) (a' : Attestation) :
  owed a' = owed (attestation_at s i) → liability (set_attestation s i a') = liability s.
Proof. intros H. pose proof (liability_set_attestation s i a'). lia. Qed.

Lemma released_app (l1 l2 : list call) : released (l1 ++ l2) = released l1 + released l2.
Proof. unfold released. rewrite map_app. apply XsrnTreasurySpec.sum_list_app. Qed.

Lemma escrowed_app (l1 l2 : list call) : escrowed (l1 ++ l2) = escrowed l1 + escrowed l2.
Proof. unfold escrowed. rewrite map_app. apply XsrnTreasurySpec.sum_list_app. Qed.

Lemma released_optional (tok to a : N) :
  released (if 0 <? a then [Transfer tok to a] else []) = a
  ∧ escrowed (if 0 <? a then [Transfer tok to a] else []) = 0.
Proof.
  destruct (N.ltb_spec 0 a); unfold released, escrowed; simpl; split; lia.
Qed.

Lemma checked_mul_Ok (a b c : N) : checked_mul a b = Ok c → c = a * b.
Proof. unfold checked_mul. destruct (_ <=? _); [|discriminate]. intros [= <-]. reflexivity. Qed.

Lemma checked_sub_Ok (a b c : N) : checked_sub a b = Ok c → b <= a ∧ c = a - b.
Proof.
  unfold checked_sub. destruct (N.leb_spec b a); [|discriminate]. intros [= <-]. auto.
Qed.

(** What a successful transaction does to the table of attestations: it
    leaves it alone and moves no token, or it writes one record, and the
    tokens it moves are the change in what is owed on that record. *)
Lemma step_shape (e : env) (t : tx) (s s' : state) (calls : list call) :
  step e t s = Ok (s', calls) →
  0 < now e →
  slashPercentage s <= 10000 →
  (∀ i, timestamp (attestation_at s i) = 0 → bondAmount (attestation_at s i) = 0) →
  slashPercentage s' <= 10000
  ∧ ((attestations s' = attestations s ∧ calls = [])
     ∨ ∃ i a', attestations s' = <[i := a']> (attestations s)
               ∧ (timestamp a' = 0 → bondAmount a' = 0)
               ∧ owed a' + released calls = owed (attestation_at s i) + escrowed calls).
Proof.
  intros H Hnow Hpct Hbond. destruct t; cbn [step] in H.
  - (* submitAttestation *)
    apply fmap_Ok in H as ([[j0 s0] c0] & Hx & H). cbn [fst snd] in H. injection H as <- <-.
    unfold submitAttestation in Hx.
    apply bind_Ok in Hx as (u1 & _ & Hx).
    apply bind_Ok in Hx as (u2 & Hts & Hx). apply require_Ok, N.eqb_eq in Hts.
    apply bind_Ok in Hx as (c & Hc & Hx).
    apply bind_Ok in Hx as (d & Hd & Hx). apply checked_add_Ok in Hd as [_ ->].
    apply mret_Ok in Hx. injection Hx as <- <- <-.
    split; [exact Hpct|]. right. eexists _, _. split; [reflexivity|]. split.
    + cbn [timestamp bondAmount]. lia.
    + unfold owed at 2. rewrite (Hbond _ Hts). unfold owed at 1. cbn [status bondAmount].
      destruct (N.ltb_spec 0 _bondAmount).
      * apply bind_Ok in Hc as (u3 & _ & Hc). injection Hc as <-.
        unfold released, escrowed. cbn [map sum_list fold_right]. destruct (status _); lia.
      * injection Hc as <-. unfold released, escrowed. cbn [map sum_list fold_right]. destruct (status _); lia.
  - (* challenge *)
    apply fmap_Ok in H as (s0 & Hx & H). injection H as -> ->.
    apply challenge_Ok in Hx as (Hts & Hst & _ & _ & ->).
    split; [exact Hpct|]. right. eexists _, _. split; [reflexivity|]. split.
    + cbn [timestamp bondAmount]. intros Hz. contradiction.
    + unfold owed. cbn [status bondAmount]. rewrite Hst. reflexivity.
  - (* arbitrate *)
    unfold arbitrate, onlyRole in H.
    destruct (hasRole (roles s) ARBITER_ROLE (sender e)); [|discriminate].
    apply bind_Ok in H as (u1 & _ & H).
    apply bind_Ok in H as (u2 & Hst & H). apply require_Ok, bool_decide_eq_true in Hst.
    destruct challengeSucceeded.
    + apply bind_Ok in H as (n1 & _ & H). apply bind_Ok in H as (n2 & _ & H).
      apply bind_Ok in H as (p & Hp & H). apply checked_mul_Ok in Hp. cbn [slashPercentage set_win_count set_slash_count set_attestation] in Hp.
      apply bind_Ok in H as (r & Hr & H). apply checked_sub_Ok in Hr as [Hle ->].
      injection H as <- <-.
      split; [exact Hpct|]. right. eexists _, _. split; [reflexivity|]. split.
      * cbn [timestamp bondAmount set_status]. apply Hbond.
      * rewrite released_app, escrowed_app.
        rewrite !(proj1 (released_optional _ _ _)), !(proj2 (released_optional _ _ _)).
        unfold owed. cbn [status set_status bondAmount]. rewrite Hst. lia.
    + apply bind_Ok in H as (n1 & _ & H). injection H as <- <-.
      split; [exact Hpct|]. right. eexists _, _. split; [reflexivity|]. split.
      * cbn [timestamp bondAmount set_status]. apply Hbond.
      * unfold owed. cbn [status set_status bondAmount]. rewrite Hst. reflexivity.
  - (* validate *)
    apply fmap_Ok in H as (s0 & Hx & H). injection H as -> ->.
    apply validate_Ok in Hx as (Hst & _ & ->).
    split; [exact Hpct|]. right. eexists _, _. split; [reflexivity|]. split.
    + cbn [timestamp bondAmount set_status]. apply Hbond.
    + unfold owed. cbn [status set_status bondAmount]. rewrite Hst. reflexivity.
  - (* withdrawBond *)
    apply withdrawBond_Ok in H as (_ & Hst & _ & -> & ->).
    split; [exact Hpct|]. right. eexists _, _. split; [reflexivity|]. split.
    + reflexivity.
    + unfold owed. cbn [status bondAmount]. rewrite Hst. unfold released, escrowed. cbn [map sum_list fold_right]. lia.
  - apply fmap_Ok in H as (s0 & Hx & H). injection H as -> ->.
    unfold setMinBondAmount in Hx. apply bind_Ok in Hx as (u & _ & Hx). injection Hx as <-.
    split; [exact Hpct|]. left. auto.
  - apply fmap_Ok in H as (s0 & Hx & H). injection H as -> ->.
    unfold setChallengePeriod in Hx. apply bind_Ok in Hx as (u & _ & Hx). injection Hx as <-.
    split; [exact Hpct|]. left. auto.
  - apply fmap_Ok in H as (s0 & Hx & H). injection H as -> ->.
    unfold setSlashPercentage in Hx. apply bind_Ok in Hx as (u & _ & Hx).
    apply bind_Ok in Hx as (u' & Hle & Hx). apply require_Ok, N.leb_le in Hle.
    injection Hx as <-.
    split; [exact Hle|]. left. auto.
  - apply fmap_Ok in H as (s0 & Hx & H). injection H as -> ->. split; [exact Hpct|]. left. auto.
  - apply fmap_Ok in H as (s0 & Hx & H). injection H as -> ->. split; [exact Hpct|]. left. auto.
  - apply fmap_Ok in H as (s0 & Hx & H). injection H as -> ->. split; [exact Hpct|]. left. auto.
Qed.

Lemma liability_insert (s s' : state) (i : N) (a' : Attestation) :
  attestations s' = <[i := a']> (attestations s) →
  liability s' + owed (attestation_at s i) = liability s + owed a'.
Proof.
  intros H. rewrite <- (liability_set_attestation s i a').
  unfold liability. rewrite H. reflexivity.
Qed.

Lemma attestation_at_insert (s s' : state) (i j : N) (a' : Attestation) :
  attestations s' = <[i := a']> (attestations s) →
  attestation_at s' j = if decide (i = j) then a' else attestation_at s j.
Proof.
  intros H. unfold attestation_at. rewrite H, lookup_insert.
  destruct (decide (i = j)); reflexivity.
Qed.

(** What holds in every state of a history: the slash percentage is at
    most 100%, a record without a timestamp holds no bond, and the bonds
    drawn in are the bonds paid out plus the bonds still owed. *)
Lemma history_inv (s : state) (past : list call) :
  history s past →
  slashPercentage s <= 10000
  ∧ (∀ i, timestamp (attestation_at s i) = 0 → bondAmount (attestation_at s i) = 0)
  ∧ escrowed past = released past + liability s.
Proof.
  induction 1 as [admin tok minBond period pct s Hc
                 | e t s s' calls past Hh (Hpct & Hbond & Hbal) Hnow Hstep].
  - unfold constructor in Hc.
    apply bind_Ok in Hc as (u1 & _ & Hc).
    apply bind_Ok in Hc as (u2 & Hle & Hc). apply require_Ok, N.leb_le in Hle.
    apply mret_Ok in Hc. subst s.
    split; [exact Hle|]. split; [reflexivity|]. reflexivity.
  - destruct (step_shape _ _ _ _ _ Hstep Hnow Hpct Hbond) as [Hpct' [[Heq ->] | (i & a' & Heq & Hz & Hmove)]].
    + split; [exact Hpct'|]. split.
      * intros i. unfold attestation_at. rewrite Heq. apply Hbond.
      * rewrite app_nil_r. unfold liability. rewrite Heq. exact Hbal.
    + split; [exact Hpct'|]. split.
      * intros j. rewrite (attestation_at_insert _ _ _ j _ Heq).
        destruct (decide (i = j)); [exact Hz | apply Hbond].
      * rewrite escrowed_app, released_app.
        pose proof (liability_insert _ _ _ _ Heq) as Hl. lia.
Qed.

Lemma submitted_history :
  history submitted ([] ++ [TransferFrom 0x70 0xA1 0x5E1F 101]).
Proof.
  apply (history_step (mkEnv 0x5E1F 1000 5 0xA1) (SubmitAttestation 0xC0FFEE 101) deployed).
  - apply (history_deploy 7 0x70 10 3600 5000). vm_compute. reflexivity.
  - reflexivity.
  - vm_compute. reflexivity.
Qed.

(** The registry's escrow is conserved: in every state the deployed
    registry can reach, the bond tokens it has drawn in with
    [safeTransferFrom] equal the tokens it has paid out with
    [safeTransfer] plus the bonds of the attestations that are still
    pending, challenged or validated. *)
Theorem bonds_conserved (s : state) (past : list call) :
  history s past → escrowed past = released past + liability s.
Proof. intros H. apply history_inv in H. tauto. Qed.

Lemma bonds_conserved_witness :
  escrowed ([] ++ [TransferFrom 0x70 0xA1 0x5E1F 101])
  = released ([] ++ [TransferFrom 0x70 0xA1 0x5E1F 101]) + liability submitted.
Proof. exact (bonds_conserved submitted _ submitted_history). Defined.

(** The slash percentage of a deployed registry never exceeds 10000
    basis points, whatever the administrators do. *)
Theorem slash_percentage_bounded (s : state) (past : list call) :
  history s past → slashPercentage s <= 10000.
Proof. intros H. apply history_inv in H. tauto. Qed.

Lemma slash_percentage_bounded_witness : slashPercentage submitted <= 10000.
Proof. exact (slash_percentage_bounded submitted _ submitted_history). Defined.

(** [validate] does not check that the attestation exists: on an
    identifier that was never submitted it succeeds at any positive
    timestamp, marks the empty record as validated and credits the zero
    address with a valid attestation; the record keeps timestamp 0. *)
Theorem validate_unknown_attestation (now i : N) (s : state) :
  attestations s !! i = None →
  0 < now →
  count_at (attesterValidCount s) 0 + 1 <= MAX_UINT256 →
  ∃ s', validate now i s = Ok s'
        ∧ status_of s' i = Validated
        ∧ timestamp (attestation_at s' i) = 0
        ∧ count_at (attesterValidCount s') 0 = count_at (attesterValidCount s) 0 + 1.
Proof.
  intros Hnone Hnow Hfit.
  assert (Hz : attestation_at s i = zero_attestation).
  { unfold attestation_at. rewrite Hnone. reflexivity. }
  eexists. unfold validate. cbv zeta. rewrite Hz.
  cbn [status challengeDeadline attester zero_attestation].
  rewrite bool_decide_eq_true_2 by reflexivity.
  apply N.ltb_lt in Hnow. rewrite Hnow.
  cbn [attesterValidCount set_attestation].
  rewrite (checked_add_fits _ _ Hfit).
  split; [reflexivity|]. unfold status_of.
  change (attestation_at (set_valid_count ?x _ _) i) with (attestation_at x i).
  rewrite attestation_at_set_same.
  split; [reflexivity|]. split; [reflexivity|].
  cbn [attesterValidCount set_valid_count]. rewrite count_at_insert, decide_True by reflexivity.
  reflexivity.
Qed.

Lemma validate_unknown_attestation_witness :
  ∃ s', validate 1 42 deployed = Ok s'
        ∧ status_of s' 42 = Validated
        ∧ timestamp (attestation_at s' 42) = 0
        ∧ count_at (attesterValidCount s') 0 = count_at (attesterValidCount deployed) 0 + 1.
Proof.
  apply validate_unknown_attestation.
  - reflexivity.
  - reflexivity.
  - vm_compute. discriminate.
Defined.

(** Slashed and withdrawn are final: no successful transaction changes
    the status of a submitted attestation that is slashed or withdrawn. *)
Theorem slashed_and_withdrawn_are_final
    (e : env) (t : tx) (s s' : state) (calls : list call) (i : N) :
  timestamp (attestation_at s i) ≠ 0 →
  status_of s i = Slashed ∨ status_of s i = Withdrawn →
  step e t s = Ok (s', calls) →
  status_of s' i = status_of s i.
Proof.
  intros Hex Hst Hstep.
  destruct (step_transition e t s s' calls i Hex Hstep) as [_ [Hsame | Htr]]; [exact Hsame|].
  destruct Hst as [Hst | Hst]; rewrite Hst in Htr; inversion Htr.
Qed.

Lemma slashed_and_withdrawn_are_final_witness :
  status_of (set_config slashed 20 3600 5000) demo_id = status_of slashed demo_id.
Proof.
  apply (slashed_and_withdrawn_are_final (mkEnv 0x5E1F 4000 8 7) (SetMinBondAmount 20)
           slashed (set_config slashed 20 3600 5000) [] demo_id).
  - vm_compute. discriminate.
  - left. vm_compute. reflexivity.
  - vm_compute. reflexivity.
Defined.

End AttestationRegistryMore.

(** ** The session manager *)

Module XsrnSessionManagerSpec.
Import XsrnSessionManager.

Lemma session_at_set_session (s : state) (i j : N) (x : Session) :
  session_at (set_session s i x) j = if decide (i = j) then x else session_at s j.
Proof.
  unfold session_at, set_session. cbn [sessions]. rewrite lookup_insert.
  destruct (decide (i = j)); reflexivity.
Qed.

Lemma reset_daily_fields (x : Session) (d : N) :
  signer (reset_daily x d) = signer x ∧ owner (reset_daily x d) = owner x
  ∧ singleLimit (reset_daily x d) = singleLimit x
  ∧ dailyLimit (reset_daily x d) = dailyLimit x
  ∧ d <= lastResetDate (reset_daily x d)
  ∧ (d <= lastResetDate x → reset_daily x d = x).
Proof.
  unfold reset_daily. destruct (N.ltb_spec (lastResetDate x) d); cbn.
  - repeat split; try reflexivity; lia.
  - repeat split; try reflexivity; lia.
Qed.

(** What a successful payment has checked and done. *)
Lemma executeWithSession_Ok (recover : N → list N → result N)
    (now chainid sender i to amount paymentId : N) (signature : list N)
    (s s' : state) (calls : list call) :
  executeWithSession recover now chainid sender i to amount paymentId signature s
    = Ok (s', calls) →
  let x := reset_daily (session_at s i) (now / ONE_DAY) in
  sender = relayer s
  ∧ isActive (session_at s i) = true
  ∧ now < expiry (session_at s i)
  ∧ amount <= singleLimit x
  ∧ usedToday x + amount <= dailyLimit x
  ∧ recover (message_hash chainid i to amount paymentId) signature = Ok (signer x)
  ∧ s' = set_session s i
           (mkSession (signer x) (owner x) (singleLimit x) (dailyLimit x)
                      (usedToday x + amount) (expiry x) (lastResetDate x) (isActive x))
  ∧ calls = [TransferFrom (usdcToken s) (owner x) to amount].
Proof.
  unfold executeWithSession. intros H.
  apply bind_Ok in H as (u1 & H1 & H). apply require_Ok, N.eqb_eq in H1.
  apply bind_Ok in H as (u2 & H2 & H). apply require_Ok in H2.
  apply bind_Ok in H as (u3 & H3 & H). apply require_Ok, N.ltb_lt in H3.
  cbv zeta in H.
  apply bind_Ok in H as (u4 & H4 & H). apply require_Ok, N.leb_le in H4.
  apply bind_Ok in H as (total & H5 & H). apply checked_add_Ok in H5 as [_ ->].
  apply bind_Ok in H as (u6 & H6 & H). apply require_Ok, N.leb_le in H6.
  apply bind_Ok in H as (r & H7 & H).
  apply bind_Ok in H as (u8 & H8 & H). apply require_Ok, N.eqb_eq in H8. subst r.
  apply bind_Ok in H as (used & H9 & H). apply checked_add_Ok in H9 as [_ ->].
  apply mret_Ok in H. injection H as <- <-.
  cbv zeta. repeat (split; [assumption || reflexivity|]). reflexivity.
Qed.

Lemma step_sessions (recover : N → list N → result N)
    (e : env) (t : tx) (s s' : state) (calls : list call) :
  step recover e t s = Ok (s', calls) →
  sessions s' = sessions s
  ∨ (∃ i x, sessions s' = <[i := x]> (sessions s)
            ∧ singleLimit x <= dailyLimit x ∧ usedToday x <= dailyLimit x)
  ∨ (∃ i x, sessions s' = <[i := x]> (sessions s)
            ∧ singleLimit x = singleLimit (session_at s i)
            ∧ dailyLimit x = dailyLimit (session_at s i)
            ∧ (usedToday x = usedToday (session_at s i) ∨ usedToday x <= dailyLimit x)).
Proof.
  intros H. destruct t; cbn [step] in H.
  - apply fmap_Ok in H as (s0 & Hx & H). injection H as -> ->.
    unfold setRelayer in Hx. apply bind_Ok in Hx as (u & _ & Hx).
    apply mret_Ok in Hx. subst s0. left. reflexivity.
  - apply fmap_Ok in H as ([j s0] & Hx & H). cbn [fst snd] in H. injection H as -> ->.
    unfold createSession in Hx.
    apply bind_Ok in Hx as (u1 & _ & Hx). apply bind_Ok in Hx as (u2 & _ & Hx).
    apply bind_Ok in Hx as (u3 & Hle & Hx). apply require_Ok, N.leb_le in Hle.
    cbv zeta in Hx. apply mret_Ok in Hx. apply pair_equal_spec in Hx as [<- <-].
    right. left. eexists _, _. split; [reflexivity|]. cbn [singleLimit dailyLimit usedToday].
    split; [exact Hle | lia].
  - apply fmap_Ok in H as (s0 & Hx & H). injection H as -> ->.
    unfold revokeSession in Hx.
    apply bind_Ok in Hx as (u1 & _ & Hx). apply bind_Ok in Hx as (u2 & _ & Hx).
    apply mret_Ok in Hx. subst s0.
    right. right. eexists _, _. split; [reflexivity|].
    cbn [singleLimit dailyLimit usedToday]. auto.
  - apply executeWithSession_Ok in H as (_ & _ & _ & _ & Hday & _ & -> & _).
    destruct (reset_daily_fields (session_at s sessionId) (now e / ONE_DAY))
      as (_ & _ & Hs & Hd & _ & _).
    right. right. eexists _, _. split; [reflexivity|].
    cbn [singleLimit dailyLimit usedToday]. auto.
  - apply fmap_Ok in H as (s0 & Hx & H). injection H as -> ->.
    unfold transferOwnership in Hx. apply bind_Ok in Hx as (u & _ & Hx).
    apply bind_Ok in Hx as (u' & _ & Hx). apply mret_Ok in Hx. subst s0. left. reflexivity.
  - apply fmap_Ok in H as (s0 & Hx & H). injection H as -> ->.
    unfold renounceOwnership in Hx. apply bind_Ok in Hx as (u & _ & Hx).
    apply mret_Ok in Hx. subst s0. left. reflexivity.
Qed.

Lemma session_at_sessions (s s' : state) (i j : N) (x : Session) :
  sessions s' = <[i := x]> (sessions s) →
  session_at s' j = if decide (i = j) then x else session_at s j.
Proof.
  intros H. unfold session_at. rewrite H, lookup_insert.
  destruct (decide (i = j)); reflexivity.
Qed.

Lemma manager_run_reachable (recover : N → list N → result N)
    (txs : list (env * tx)) (s : state) :
  reachable recover s → reachable recover (run recover txs s).1.
Proof.
  revert s. induction txs as [|[e t] rest IH]; intros s Hs; [exact Hs|].
  cbn [run]. destruct (step recover e t s) as [[s' calls]|err] eqn:Hstep.
  - cbn [fst]. apply IH. exact (reachable_step recover e t s s' calls Hs Hstep).
  - apply IH, Hs.
Qed.

Lemma manager_deployed_reachable : reachable recover_E1 deployed.
Proof.
  apply manager_run_reachable. apply (reachable_deploy recover_E1 7 0x70). reflexivity.
Qed.

(** In every state the manager can reach, every session has used at
    most its daily limit today, and its single limit is at most its
    daily limit. *)
Theorem usage_within_daily_limit (recover : N → list N → result N) (s : state) (i : N) :
  reachable recover s →
  singleLimit (session_at s i) <= dailyLimit (session_at s i)
  ∧ usedToday (session_at s i) <= dailyLimit (session_at s i).
Proof.
  intros H. revert i. induction H as [deployer tok s Hc | e t s s' calls Hs IH Hstep].
  - unfold constructor in Hc. apply bind_Ok in Hc as (u & _ & Hc).
    apply mret_Ok in Hc. subst s. intros i. split; reflexivity.
  - intros j.
    destruct (step_sessions recover e t s s' calls Hstep)
      as [Heq | [(i & x & Heq & H1 & H2) | (i & x & Heq & H1 & H2 & H3)]].
    + unfold session_at. rewrite Heq. apply IH.
    + rewrite (session_at_sessions s s' i j x Heq).
      destruct (decide (i = j)); [split; assumption | apply IH].
    + rewrite (session_at_sessions s s' i j x Heq).
      destruct (decide (i = j)); [|apply IH].
      destruct (IH i) as [Ha Hb]. destruct H3 as [H3 | H3]; split; lia.
Qed.

Lemma usage_within_daily_limit_witness :
  singleLimit (session_at deployed demo_session) <= dailyLimit (session_at deployed demo_session)
  ∧ usedToday (session_at deployed demo_session) <= dailyLimit (session_at deployed demo_session).
Proof.
  exact (usage_within_daily_limit recover_E1 deployed demo_session manager_deployed_reachable).
Defined.

(** A revoked session cannot pay: once its owner has revoked it, every
    [executeWithSession] on it reverts, whoever sends it and whatever
    the signature. *)
Theorem revoked_session_cannot_pay (recover : N → list N → result N)
    (owner_ i now chainid sender to amount paymentId : N) (signature : list N)
    (s s' : state) :
  revokeSession owner_ i s = Ok s' →
  is_ok (executeWithSession recover now chainid sender i to amount paymentId signature s')
  = false.
Proof.
  intros H. unfold revokeSession in H.
  apply bind_Ok in H as (u1 & _ & H). apply bind_Ok in H as (u2 & _ & H).
  apply mret_Ok in H. subst s'.
  unfold executeWithSession. rewrite session_at_set_session, decide_True by reflexivity.
  cbn [isActive relayer set_session].
  destruct (sender =? relayer s); reflexivity.
Qed.

Lemma revoked_session_cannot_pay_witness :
  is_ok (executeWithSession recover_E1 90000 56 0x9E demo_session 0xB0B 100 1 []
           (set_session deployed demo_session
              (mkSession 0xE1 0xA1 100 250 0 200000 0 false)))
  = false.
Proof.
  apply (revoked_session_cannot_pay recover_E1 0xA1 demo_session 90000 56 0x9E 0xB0B 100 1 []
           deployed).
  vm_compute. reflexivity.
Defined.

Lemma spent_app (l1 l2 : list call) :
  sum_list (map call_amount (l1 ++ l2))
  = sum_list (map call_amount l1) + sum_list (map call_amount l2).
Proof.
  induction l1 as [|c l1 IH]; [reflexivity|].
  unfold sum_list in *. cbn [app map fold_right]. rewrite IH. lia.
Qed.

(** A payment through a session on the day of its last reset, or
    before it, adds its amount to the usage and stays within the limit. *)
Lemma same_day_payments (recover : N → list N → result N)
    (i day : N) (txs : list (env * tx)) (s : state) :
  Forall (pays_on i day) txs →
  day <= lastResetDate (session_at s i) →
  usedToday (session_at s i) <= dailyLimit (session_at s i) →
  usedToday (session_at s i) + sum_list (map call_amount (run recover txs s).2)
  <= dailyLimit (session_at s i).
Proof.
  revert s. induction txs as [|[e t] rest IH]; intros s Hall Hday Hused.
  - cbn [run snd map sum_list fold_right]. lia.
  - apply Forall_cons in Hall as [[Hd (to & amount & pid & sig & Ht)] Hall].
    cbn [fst snd] in Hd, Ht. subst t. cbn [run step].
    destruct (executeWithSession recover (now e) (chainid e) (sender e) i to amount pid sig s)
      as [[s1 calls1]|err] eqn:Hexec; [|apply IH; assumption].
    apply executeWithSession_Ok in Hexec as (_ & _ & _ & _ & Hfit & _ & -> & ->).
    rewrite Hd in Hfit.
    destruct (reset_daily_fields (session_at s i) day) as (_ & _ & _ & _ & _ & Hsame).
    rewrite Hd. rewrite (Hsame Hday) in *.
    cbn [snd]. rewrite spent_app. cbn [map sum_list fold_right call_amount].
    match goal with
    | |- context [run recover rest ?s1] => specialize (IH s1 Hall)
    end.
    rewrite session_at_set_session, decide_True in IH by reflexivity.
    cbn [lastResetDate usedToday dailyLimit] in IH.
    specialize (IH Hday Hfit). unfold sum_list in *. lia.
Qed.

(** The daily limit holds: the payments that go through on one day
    through one session total at most the daily limit of the session,
    however many are sent and whichever of them revert. *)
Theorem daily_limit_holds (recover : N → list N → result N)
    (i day : N) (txs : list (env * tx)) (s : state) :
  Forall (pays_on i day) txs →
  sum_list (map call_amount (run recover txs s).2) <= dailyLimit (session_at s i).
Proof.
  revert s. induction txs as [|[e t] rest IH]; intros s Hall.
  - cbn [run snd map sum_list fold_right]. lia.
  - apply Forall_cons in Hall as [[Hd (to & amount & pid & sig & Ht)] Hall].
    cbn [fst snd] in Hd, Ht. subst t. cbn [run step].
    destruct (executeWithSession recover (now e) (chainid e) (sender e) i to amount pid sig s)
      as [[s1 calls1]|err] eqn:Hexec; [|apply IH; assumption].
    apply executeWithSession_Ok in Hexec as (_ & _ & _ & _ & Hfit & _ & -> & ->).
    rewrite Hd in *.
    destruct (reset_daily_fields (session_at s i) day) as (_ & _ & _ & Hlim & Hlast & _).
    cbn [snd]. rewrite spent_app. cbn [map sum_list fold_right call_amount].
    match goal with
    | |- context [run recover rest ?s1] =>
        pose proof (same_day_payments recover i day rest s1 Hall) as Hrest
    end.
    rewrite session_at_set_session, decide_True in Hrest by reflexivity.
    cbn [lastResetDate usedToday dailyLimit] in Hrest.
    specialize (Hrest Hlast Hfit). unfold sum_list in *. lia.
Qed.

Lemma daily_limit_holds_witness :
  sum_list (map call_amount (run recover_E1 three_payments deployed).2)
  <= dailyLimit (session_at deployed demo_session).
Proof.
  apply (daily_limit_holds recover_E1 demo_session 1 three_payments deployed).
  repeat (apply Forall_cons; split;
          [split; [reflexivity | eexists _, _, _, _; reflexivity]|]).
  apply Forall_nil. exact I.
Defined.

End XsrnSessionManagerSpec.

(** ** The event indexer *)

Module EventIndexerSpec.
Import EventIndexer.
Local Open Scope Z_scope.

Lemma map_sum_comm (z1 z2 y : Z) : z1 + (z2 + y) = z2 + (z1 + y).
Proof. lia. Qed.

Lemma map_sum_insert (m : gmap string Z) (k : string) (v : Z) :
  map_sum (<[k := v]> m) = map_sum m - get_or_zero m k + v.
Proof.
  unfold map_sum, get_or_zero. destruct (m !! k) as [w|] eqn:Hk; cbn [default]; unfold id.
  - rewrite <- (insert_delete_eq m k v).
    rewrite (map_fold_insert_L _ _ k v (delete k m));
      [|intros; apply map_sum_comm | apply lookup_delete_eq].
    rewrite (map_fold_delete_L _ _ k w m); [|intros; apply map_sum_comm | exact Hk].
    lia.
  - rewrite (map_fold_insert_L _ _ k v m); [|intros; apply map_sum_comm | exact Hk]. lia.
Qed.

Lemma payment_loop (events : list (event PaymentSplitArgs))
    (pe : list PaymentSplitEvent) (mv : gmap string Z) (tv tf : Z) :
  map_sum mv = tv →
  map_sum (fold_left payment_step events (pe, mv, tv, tf)).1.1.2
  = (fold_left payment_step events (pe, mv, tv, tf)).1.2.
Proof.
  revert pe mv tv tf. induction events as [|ev rest IH]; intros pe mv tv tf H.
  - exact H.
  - cbn [fold_left]. destruct ev as [|args h b]; [apply IH, H|].
    cbn [payment_step totalAmount]. apply IH. rewrite map_sum_insert. lia.
Qed.

(** The merchant volumes add up to the total volume: whatever logs the
    indexer reads, the sum over [merchantVolumes] is [totalVolume]. *)
Theorem merchant_volumes_add_up (same_epoch : Z → bool)
    (events : list (event PaymentSplitArgs))
    (receiptEvents : list (event ReceiptCreatedArgs)) :
  map_sum (merchantVolumes (indexEpoch same_epoch events receiptEvents))
  = totalVolume (indexEpoch same_epoch events receiptEvents).
Proof.
  unfold indexEpoch.
  pose proof (payment_loop events [] ∅ 0 0 eq_refl) as H.
  destruct (fold_left payment_step events ([], ∅, 0, 0)) as [[[pe mv] tv] tf].
  exact H.
Qed.

Lemma receipt_loop (same_epoch : Z → bool) (evs : list (event ReceiptCreatedArgs))
    (av : gmap string Z) :
  map_sum (fold_left (receipt_step same_epoch) evs av)
  = map_sum av + fold_right Z.add 0 (map (counted same_epoch) evs).
Proof.
  revert av. induction evs as [|ev rest IH]; intros av.
  - cbn [fold_left map fold_right]. lia.
  - cbn [fold_left map fold_right]. rewrite IH.
    destruct ev as [|args h b]; cbn [receipt_step counted]; [lia|].
    destruct (same_epoch (r_epochId args)); cbn [negb andb]; [|lia].
    destruct (bool_decide (r_agent args ≠ ZeroAddress)); [|lia].
    rewrite map_sum_insert. lia.
Qed.

(** The agent volumes count the decoded receipts that pass the
    indexer's epoch test and name an agent other than the zero address,
    and nothing else: their sum is the sum of the amounts of those
    receipts. The epoch test is the comparison through [Number] the
    indexer makes, [same_epoch] here; nothing is said on whether it is
    equality of epoch ids. *)
Theorem agent_volumes_add_up (same_epoch : Z → bool)
    (events : list (event PaymentSplitArgs))
    (receiptEvents : list (event ReceiptCreatedArgs)) :
  map_sum (agentVolumes (indexEpoch same_epoch events receiptEvents))
  = fold_right Z.add 0 (map (counted same_epoch) receiptEvents).
Proof.
  unfold indexEpoch.
  destruct (fold_left payment_step events ([], ∅, 0, 0)) as [[[pe mv] tv] tf].
  cbn [agentVolumes]. rewrite receipt_loop. reflexivity.
Qed.

Lemma receipt_loop_nonneg (same_epoch : Z → bool) (evs : list (event ReceiptCreatedArgs))
    (av : gmap string Z) :
  Forall (fun ev => match ev with Log => True | EventLog args _ _ => 0 <= r_amount args end)
         evs →
  map_Forall (fun _ v => 0 <= v) av →
  map_Forall (fun _ v => 0 <= v) (fold_left (receipt_step same_epoch) evs av).
Proof.
  revert av. induction evs as [|ev rest IH]; intros av Hall Hav; [exact Hav|].
  apply Forall_cons in Hall as [Hev Hall]. cbn [fold_left]. apply IH; [exact Hall|].
  destruct ev as [|args h b]; cbn [receipt_step]; [exact Hav|].
  destruct (negb (same_epoch (r_epochId args))); [exact Hav|].
  destruct (bool_decide (r_agent args ≠ ZeroAddress)); [|exact Hav].
  apply map_Forall_insert_2; [|exact Hav].
  unfold get_or_zero. destruct (av !! r_agent args) as [w|] eqn:Hw; cbn [default]; unfold id.
  - specialize (Hav _ _ Hw). cbn beta in Hav. lia.
  - lia.
Qed.

(** The loop of [calculateRewardDistribution] maps every volume to its
    reward and keeps the keys. *)
Lemma calculateRewardDistribution_fmap (data : IndexedData) :
  calculateRewardDistribution data = (fun volume => (volume * 10) ÷ 100) <$> agentVolumes data.
Proof.
  unfold calculateRewardDistribution. cbv zeta.
  induction (agentVolumes data) as [|k v m Hk IH] using map_ind.
  - rewrite map_fold_empty, fmap_empty. reflexivity.
  - rewrite map_fold_insert_L; [| |exact Hk].
    + rewrite IH, fmap_insert. reflexivity.
    + intros j1 j2 z1 z2 y Hne _ _. apply insert_insert_ne. exact Hne.
Qed.

Lemma tenth_le (v : Z) : 0 <= v → 10 * ((v * 10) ÷ 100) <= v.
Proof.
  intros Hv. rewrite Z.quot_div_nonneg by lia.
  change 100 with (10 * 10). rewrite Z.div_mul_cancel_r by lia.
  apply Z.mul_div_le. lia.
Qed.

Lemma rewards_sum (m : gmap string Z) :
  map_Forall (fun _ v => 0 <= v) m →
  10 * map_sum ((fun volume => (volume * 10) ÷ 100) <$> m) <= map_sum m.
Proof.
  induction m as [|k v m Hk IH] using map_ind; intros Hall.
  - rewrite fmap_empty. unfold map_sum. rewrite map_fold_empty. lia.
  - apply map_Forall_insert in Hall as [Hv Hm]; [|exact Hk].
    rewrite fmap_insert, !map_sum_insert. unfold get_or_zero.
    rewrite lookup_fmap, Hk. cbn [fmap option_fmap option_map default].
    specialize (IH Hm). pose proof (tenth_le v Hv). lia.
Qed.

(** The rewards are at most a tenth of the volume: when no receipt has a
    negative amount, ten times the rewards computed from an indexed
    epoch is at most the volume its agents handled. *)
Theorem rewards_at_most_a_tenth (same_epoch : Z → bool)
    (events : list (event PaymentSplitArgs))
    (receiptEvents : list (event ReceiptCreatedArgs)) :
  Forall (fun ev => match ev with Log => True | EventLog args _ _ => 0 <= r_amount args end)
         receiptEvents →
  10 * map_sum (calculateRewardDistribution (indexEpoch same_epoch events receiptEvents))
  <= fold_right Z.add 0 (map (counted same_epoch) receiptEvents).
Proof.
  intros Hall. rewrite calculateRewardDistribution_fmap. unfold indexEpoch.
  destruct (fold_left payment_step events ([], ∅, 0, 0)) as [[[pe mv] tv] tf].
  cbn [agentVolumes].
  eapply Z.le_trans.
  - apply rewards_sum, receipt_loop_nonneg; [exact Hall | apply map_Forall_empty].
  - rewrite receipt_loop. apply Z.eq_le_incl. reflexivity.
Qed.

Lemma rewards_at_most_a_tenth_witness :
  10 * map_sum (calculateRewardDistribution (indexEpoch (Z.eqb 1) demo_payments demo_receipts))
  <= fold_right Z.add 0 (map (counted (Z.eqb 1)) demo_receipts).
Proof.
  apply rewards_at_most_a_tenth.
  repeat (apply Forall_cons; split; [cbn; lia|]). apply Forall_nil. exact I.
Defined.

End EventIndexerSpec.

(** ** Generated proofs against the on-chain check *)

Module GeneratedProofsOnChain.























End GeneratedProofsOnChain.
